(** * Outbound TCP client of [aw]: pool, supervisor, dial loop, framed exchange

    A shallow embedding of [tcp/client.go].  The file has two layers:

    - the connection pool ([Send], [Close], [CloseAll], the spawning half of
      [runAndKeepAlive]) over a concrete store holding the address map, the
      channels and the cancel flags;
    - the per-address supervisor ([dial], [write], [run] and the goroutine
      body of [runAndKeepAlive]) as state-passing code over an abstract
      environment that stands for the Go runtime and the collaborators
      (network, handshaker, session, codec, listener), with a log of every
      call made to them. *)

From Stdlib Require Import ZArith List String Lia Bool.
From stdpp Require Import base option gmap strings list fin_maps.

Local Open Scope string_scope.
Local Open Scope list_scope.
Local Open Scope Z_scope.

(** ** The wire package *)

Module wire.

(** Modelled from the spec: the [wire] package is not part of the sources
    at hand.  A message carries a version, a type and opaque data; [V1] is
    the only known version, the types are the three requests, the three
    acknowledgements, and anything else. *)
Inductive Version := V1 | OtherVersion (code : N).

Inductive Type_ :=
| Ping | Push | Pull
| PingAck | PushAck | PullAck
| OtherType (code : N).

Definition bytes := list Z.

Record Message := mkMessage {
  Version_ : Version;
  MsgType : Type_;
  Data : bytes
}.

Definition is_ack (t : Type_) : bool :=
  match t with PingAck | PushAck | PullAck => true | _ => false end.

#[global] Instance Version_eq_dec : EqDecision Version.
Proof. solve_decision. Defined.
#[global] Instance Type_eq_dec : EqDecision Type_.
Proof. solve_decision. Defined.
#[global] Instance Message_eq_dec : EqDecision Message.
Proof. solve_decision. Defined.

End wire.

(** ** Go errors *)

(** [error] values.  [nil] is [None] in [option error].  A done context
    reports [context.Canceled] or [context.DeadlineExceeded]; [External] is an
    error made by a collaborator; [Errorf] is [fmt.Errorf] with one [%v]
    argument. *)
Inductive ContextError := Canceled | DeadlineExceeded.

Inductive error :=
| Context (e : ContextError)
| External (what : string)
| ErrorNew (text : string)
| Errorf (format : string) (arg : error)
| ErrorfVersion (format : string) (v : wire.Version)
| ErrorfType (format : string) (t : wire.Type_).

#[global] Instance ContextError_eq_dec : EqDecision ContextError.
Proof. solve_decision. Defined.
#[global] Instance error_eq_dec : EqDecision error.
Proof. solve_decision. Defined.

(** How a call ends: it returns, it panics, or it stays blocked on a
    channel operation that cannot proceed.  [Unfinished] is for the loops of
    the supervisor, which are unrolled a given number of times: the call was
    still running when the unrolling stopped. *)
Inductive outcome (A : Type) :=
| Ret (a : A)
| Panic (what : string)
| Blocked
| Unfinished.
Arguments Ret {A} a.
Arguments Panic {A} what.
Arguments Blocked {A}.
Arguments Unfinished {A}.

(** ** Options *)

Record ClientOptions := mkOptions {
  TimeToLive : Z;
  TimeToDial : Z;
  MaxDialAttempts : Z;
  MaxCapacity : Z;
  MaxConnections : Z
}.

Definition Hour : Z := 3600000000000.
Definition Second : Z := 1000000000.

Definition DefaultClientTimeToLive : Z := Hour.
Definition DefaultClientTimeToDial : Z := 15 * Second.
Definition DefaultClientMaxDialAttempts : Z := 1.
Definition DefaultClientMaxCapacity : Z := 4096.
Definition DefaultClientMaxConnections : Z := 128.

Definition DefaultClientOptions : ClientOptions :=
  {| TimeToLive := DefaultClientTimeToLive;
     TimeToDial := DefaultClientTimeToDial;
     MaxDialAttempts := DefaultClientMaxDialAttempts;
     MaxCapacity := DefaultClientMaxCapacity;
     MaxConnections := DefaultClientMaxConnections |}.

Definition WithTimeToLive (opts : ClientOptions) (ttl : Z) : ClientOptions :=
  {| TimeToLive := ttl;
     TimeToDial := TimeToDial opts;
     MaxDialAttempts := MaxDialAttempts opts;
     MaxCapacity := MaxCapacity opts;
     MaxConnections := MaxConnections opts |}.

Definition WithMaxDialAttempts (opts : ClientOptions) (dialAttempts : Z) : ClientOptions :=
  {| TimeToLive := TimeToLive opts;
     TimeToDial := TimeToDial opts;
     MaxDialAttempts := dialAttempts;
     MaxCapacity := MaxCapacity opts;
     MaxConnections := MaxConnections opts |}.


Definition WithMaxConnections (opts : ClientOptions) (maxConnections : Z) : ClientOptions :=
  {| TimeToLive := TimeToLive opts;
     TimeToDial := TimeToDial opts;
     MaxDialAttempts := MaxDialAttempts opts;
     MaxCapacity := MaxCapacity opts;
     MaxConnections := maxConnections |}.

(** ** The connection pool *)

Module Pool.

(** A [conn] is the pair the pool keeps per address: the sending end of
    the supervisor's channel and the supervisor's cancel function.  Both
    are references; [ch] names a channel of the store, [cancel] a
    context. *)
Record conn := mkConn { ch : nat; cancel : nat }.

#[global] Instance conn_eq_dec : EqDecision conn.
Proof. solve_decision. Defined.

(** The client with the objects it shares with its goroutines.
    [connsByAddr] is the map guarded by [connsByAddrMu]; [chans] gives the
    messages buffered in each channel, oldest first; [cancelled] is the set
    of contexts whose cancel function was called; [supervisors] lists the
    goroutines started by [runAndKeepAlive], oldest first, each with its
    address and the [conn] handed back to the pool. *)
Record Client := mkClient {
  opts : ClientOptions;
  connsByAddr : gmap string conn;
  chans : gmap nat (list wire.Message);
  cancelled : gset nat;
  supervisors : list (string * conn)
}.

Definition NewClient (o : ClientOptions) : Client :=
  {| opts := o;
     connsByAddr := ∅;
     chans := ∅;
     cancelled := ∅;
     supervisors := [] |}.

Definition Options (client : Client) : ClientOptions := opts client.

Definition with_conns (client : Client) (m : gmap string conn) : Client :=
  {| opts := opts client; connsByAddr := m; chans := chans client;
     cancelled := cancelled client; supervisors := supervisors client |}.

Definition with_cancelled (client : Client) (s : gset nat) : Client :=
  {| opts := opts client; connsByAddr := connsByAddr client;
     chans := chans client; cancelled := s;
     supervisors := supervisors client |}.

Definition with_chans (client : Client) (h : gmap nat (list wire.Message)) : Client :=
  {| opts := opts client; connsByAddr := connsByAddr client;
     chans := h; cancelled := cancelled client;
     supervisors := supervisors client |}.

(** [len(client.connsByAddr)] *)
Definition len (client : Client) : Z := Z.of_nat (size (connsByAddr client)).

(** The spawning half of [runAndKeepAlive]: [make] a channel of capacity
    [MaxCapacity] ([make] panics on a negative size), derive a cancellable
    context, start the goroutine, return the [conn].  The goroutine body is
    [Supervisor.runAndKeepAlive] below. *)
Definition runAndKeepAlive (client : Client) (addr : string)
  : outcome conn * Client :=
  if MaxCapacity (opts client) <? 0 then
    (Panic "makechan: size out of range", client)
  else
    let id := length (supervisors client) in
    let c := {| ch := id; cancel := id |} in
    (Ret c,
     {| opts := opts client;
        connsByAddr := connsByAddr client;
        chans := <[id := []]> (chans client);
        cancelled := cancelled client;
        supervisors := supervisors client ++ [(addr, c)] |}).

(** The part of [Send] that runs with the mutex held: look the address up;
    if it is missing, refuse when the map is full, else start a supervisor
    and store its [conn]. *)
Definition acquire (client : Client) (addr : string)
  : outcome (error + conn) * Client :=
  match connsByAddr client !! addr with
  | Some c => (Ret (inr c), client)
  | None =>
      if len client >=? MaxConnections (opts client) then
        (Ret (inl (ErrorNew "max outbound connections exceeded")), client)
      else
        match runAndKeepAlive client addr with
        | (Ret c, client') =>
            let client'' := with_conns client' (<[addr := c]> (connsByAddr client')) in
            (Ret (inr (default c (connsByAddr client'' !! addr))), client'')
        | (Panic what, client') => (Panic what, client')
        | (Blocked, client') => (Blocked, client')
        | (Unfinished, client') => (Unfinished, client')
        end
  end.

(** What the [select] of [Send] meets when it commits: the state of the
    caller's context ([ctx.Err()], [None] while it is not done), whether
    the supervisor is waiting to receive on the channel, and which of the
    two cases the runtime picks when both can proceed (Go picks one of the
    ready cases at random). *)
Record SelectEnv := mkSelectEnv {
  ctxErr : option ContextError;
  receiverWaiting : bool;
  pickSend : bool
}.

Definition buffered (client : Client) (c : conn) : list wire.Message :=
  default [] (chans client !! ch c).

(** A send on the channel can proceed when the buffer has room or a
    receiver is waiting. *)
Definition canSend (client : Client) (c : conn) (env : SelectEnv) : bool :=
  receiverWaiting env
  || (Z.of_nat (length (buffered client c)) <? MaxCapacity (opts client)).

Definition enqueue (client : Client) (c : conn) (msg : wire.Message) : Client :=
  with_chans client (<[ch c := buffered client c ++ [msg]]> (chans client)).

(** The [select] at the end of [Send]. *)
Definition race (client : Client) (c : conn) (msg : wire.Message) (env : SelectEnv)
  : outcome (option error) * Client :=
  match ctxErr env, canSend client c env with
  | Some e, true =>
      if pickSend env then (Ret None, enqueue client c msg)
      else (Ret (Some (Context e)), client)
  | Some e, false => (Ret (Some (Context e)), client)
  | None, true => (Ret None, enqueue client c msg)
  | None, false => (Blocked, client)
  end.

Definition Send (client : Client) (env : SelectEnv) (addr : string) (msg : wire.Message)
  : outcome (option error) * Client :=
  match acquire client addr with
  | (Ret (inl err), client') => (Ret (Some err), client')
  | (Ret (inr c), client') => race client' c msg env
  | (Panic what, client') => (Panic what, client')
  | (Blocked, client') => (Blocked, client')
  | (Unfinished, client') => (Unfinished, client')
  end.

Definition Close (client : Client) (addr : string) : Client :=
  match connsByAddr client !! addr with
  | Some c =>
      with_conns
        (with_cancelled client ({[cancel c]} ∪ cancelled client))
        (delete addr (connsByAddr client))
  | None => client
  end.

Definition CloseAll (client : Client) : Client :=
  with_conns
    (with_cancelled client
       (map_fold (fun _ c acc => {[cancel c]} ∪ acc) (cancelled client)
          (connsByAddr client)))
    ∅.

(** What goroutines do to the client, one step at a time.  A [Send] that
    nothing interrupts is [OpSend]; a [Send] that other goroutines overtake
    between its unlock and its [select] is [OpSendLocked] followed, later,
    by [OpSendSelect] on the [conn] it got.  [OpClose] is a call of [Close],
    by a caller or by a retiring supervisor; [OpReceive] is a supervisor
    taking the oldest message off a channel. *)
Inductive Op :=
| OpSend (env : SelectEnv) (addr : string) (msg : wire.Message)
| OpSendLocked (addr : string)
| OpSendSelect (env : SelectEnv) (c : conn) (msg : wire.Message)
| OpClose (addr : string)
| OpCloseAll
| OpReceive (chan : nat).

Definition step (client : Client) (op : Op) : Client :=
  match op with
  | OpSend env addr msg => snd (Send client env addr msg)
  | OpSendLocked addr => snd (acquire client addr)
  | OpSendSelect env c msg => snd (race client c msg env)
  | OpClose addr => Close client addr
  | OpCloseAll => CloseAll client
  | OpReceive chan =>
      match chans client !! chan with
      | Some (_ :: rest) => with_chans client (<[chan := rest]> (chans client))
      | _ => client
      end
  end.

Definition exec (ops : list Op) (client : Client) : Client :=
  fold_left step ops client.


(** What holds of the store whenever goroutines have only used the methods
    of the client: an entry of the map is the [conn] of a supervisor started
    for that address, whose context has not been cancelled; the [conn] of the
    supervisor started i-th names the i-th channel and the i-th context; only
    contexts of supervisors that were started have been cancelled. *)
Definition tidy (client : Client) : Prop :=
  (forall addr c, connsByAddr client !! addr = Some c ->
     (addr, c) ∈ supervisors client /\ cancel c ∉ cancelled client)
  /\ (forall i addr c, supervisors client !! i = Some (addr, c) ->
        c = {| ch := i; cancel := i |})
  /\ (forall x, x ∈ cancelled client -> (x < length (supervisors client))%nat).

End Pool.

(** ** The supervisor of one address *)

Module Supervisor.

(** Handles of the runtime objects the supervisor holds. *)
Definition Conn := nat.
Definition Session := nat.
Definition Signatory := nat.

(** The context made by [runAndKeepAlive] and the timeout contexts [dial]
    derives from it; [serial] tells apart contexts made at different
    times. *)
Inductive context :=
| Root
| WithTimeout (parent : context) (timeout : Z) (serial : nat).

Inductive Level := Info | Warn | Error_.

(** Every call the supervisor makes on the runtime or on a collaborator,
    with what came back.  [EvTimerFire] is the runtime sending on the
    channel of the timer; [EvDone], [EvExpired] and [EvReceive] are the
    case a [select] took. *)
Inductive Event :=
| EvWithTimeout (c : context)
| EvCancel (c : context)
| EvPollDone (c : context) (r : option ContextError)
| EvAwaitDone (c : context)
| EvDial (c : context) (addr : string) (r : error + Conn)
| EvHandshake (c : context) (conn : Conn) (r : option Session * option error)
| EvClose (conn : Conn) (r : option error)
| EvSetDeadline (conn : Conn) (d : Z) (r : option error)
| EvLog (level : Level) (format : string) (arg : option error)
| EvEncrypt (s : Session) (data : wire.bytes) (r : error + wire.bytes)
| EvMarshal (rw : Conn) (msg : wire.Message) (r : option error)
| EvFlush (rw : Conn) (r : option error)
| EvUnmarshal (rw : Conn) (r : error + wire.Message)
| EvDecrypt (s : Session) (data : wire.bytes) (r : error + wire.bytes)
| EvListener (t : wire.Type_) (v : wire.Version) (data : wire.bytes)
    (from : Signatory) (r : option error)
| EvNewTimer (d : Z)
| EvTimerFire
| EvTimerStop (wasRunning : bool)
| EvTimerDrain
| EvTimerReset (d : Z)
| EvDone (e : ContextError)
| EvExpired
| EvReceive (msg : wire.Message) (ok : bool)
| EvDefault
| EvClientClose (addr : string).

#[global] Instance Level_eq_dec : EqDecision Level.
Proof. solve_decision. Defined.
#[global] Instance context_eq_dec : EqDecision context.
Proof. solve_decision. Defined.
#[global] Instance Event_eq_dec : EqDecision Event.
Proof. solve_decision. Defined.

(** A [time.Timer], as documented for the stop-drain-reset idiom [run]
    uses: [running] until it fires or is stopped; when it fires the runtime
    puts one value in its channel [C] ([pending]), which stays there until
    it is received. *)
Record Timer := mkTimer { running : bool; pending : bool }.

Definition fire (t : Timer) : Timer :=
  if running t then {| running := false; pending := true |} else t.

(** What a [select] finds when it commits: whether the context is done,
    whether the duration of the timer has elapsed, what the channel offers
    (a message, or the zero message with [ok = false] when it is closed),
    and the runtime's pick among the cases that can proceed. *)
Record Ready := mkReady {
  doneNow : option ContextError;
  elapsedNow : bool;
  queued : option (wire.Message * bool);
  pick : nat
}.

Inductive Case :=
| CaseDone (e : ContextError)
| CaseExpired
| CaseReceive (msg : wire.Message) (ok : bool).

(** The runtime and the collaborators, over their own state [S]. *)
Record Env (S : Type) := mkEnv {
  pollDone : context -> S -> option ContextError * S;
  awaitDone : context -> S -> S;
  cancelCtx : context -> S -> S;
  DialContext : context -> string -> S -> (error + Conn) * S;
  Handshake : context -> Conn -> S -> (option Session * option error) * S;
  connClose : Conn -> S -> option error * S;
  SetDeadline : Conn -> Z -> S -> option error * S;
  Encrypt : Session -> wire.bytes -> S -> (error + wire.bytes) * S;
  Decrypt : Session -> wire.bytes -> S -> (error + wire.bytes) * S;
  RemoteSignatory : Session -> S -> Signatory * S;
  Marshal : Conn -> wire.Message -> S -> option error * S;
  Flush : Conn -> S -> option error * S;
  Unmarshal : Conn -> S -> (error + wire.Message) * S;
  DidReceivePingAck : wire.Version -> wire.bytes -> Signatory -> S -> option error * S;
  DidReceivePushAck : wire.Version -> wire.bytes -> Signatory -> S -> option error * S;
  DidReceivePullAck : wire.Version -> wire.bytes -> Signatory -> S -> option error * S;
  timerElapsed : S -> bool * S;
  ready : context -> S -> Ready * S
}.
Arguments pollDone {S}. Arguments awaitDone {S}. Arguments cancelCtx {S}.
Arguments DialContext {S}. Arguments Handshake {S}. Arguments connClose {S}.
Arguments SetDeadline {S}. Arguments Encrypt {S}. Arguments Decrypt {S}.
Arguments RemoteSignatory {S}. Arguments Marshal {S}. Arguments Flush {S}.
Arguments Unmarshal {S}. Arguments DidReceivePingAck {S}.
Arguments DidReceivePushAck {S}. Arguments DidReceivePullAck {S}.
Arguments timerElapsed {S}. Arguments ready {S}.

(** The state the supervisor code runs on: the environment's state, the
    idle-deadline timer, and the number of contexts made so far. *)
Record St (S : Type) := mkSt { world : S; deadline : Timer; serial : nat }.
Arguments mkSt {S}. Arguments world {S}. Arguments deadline {S}.
Arguments serial {S}.

(** A computation returns how it ended, the events it made in order, and
    the state it left. *)
Definition M (S A : Type) : Type := St S -> outcome A * list Event * St S.

Definition ret {S A} (a : A) : M S A := fun st => (Ret a, [], st).

Definition bind {S A B} (m : M S A) (f : A -> M S B) : M S B :=
  fun st =>
    match m st with
    | (Ret a, evs, st') =>
        match f a st' with
        | (r, evs', st'') => (r, evs ++ evs', st'')
        end
    | (Panic what, evs, st') => (Panic what, evs, st')
    | (Blocked, evs, st') => (Blocked, evs, st')
    | (Unfinished, evs, st') => (Unfinished, evs, st')
    end.

Definition panic {S A} (what : string) : M S A := fun st => (Panic what, [], st).
Definition blocked {S A} : M S A := fun st => (Blocked, [], st).
Definition unfinished {S A} : M S A := fun st => (Unfinished, [], st).

(** [defer cleanup] around [body]: the cleanup runs when the body returns
    or panics. *)
Definition defer {S A} (cleanup : M S unit) (body : M S A) : M S A :=
  fun st =>
    match body st with
    | (Ret a, evs, st') =>
        match cleanup st' with
        | (Ret _, evs', st'') => (Ret a, evs ++ evs', st'')
        | (Panic what, evs', st'') => (Panic what, evs ++ evs', st'')
        | (Blocked, evs', st'') => (Blocked, evs ++ evs', st'')
        | (Unfinished, evs', st'') => (Unfinished, evs ++ evs', st'')
        end
    | (Panic what, evs, st') =>
        match cleanup st' with
        | (_, evs', st'') => (Panic what, evs ++ evs', st'')
        end
    | (Blocked, evs, st') => (Blocked, evs, st')
    | (Unfinished, evs, st') => (Unfinished, evs, st')
    end.

(** One turn of a [for] loop either goes round again or leaves the
    function with a result. *)
Inductive turn (A B : Type) :=
| Continue (a : A)
| Return (b : B).
Arguments Continue {A B} a.
Arguments Return {A B} b.

Fixpoint loop {S A B} (fuel : nat) (body : A -> M S (turn A B)) (a : A) : M S B :=
  match fuel with
  | O => unfinished
  | Datatypes.S fuel' =>
      bind (body a) (fun t =>
        match t with
        | Continue a' => loop fuel' body a'
        | Return b => ret b
        end)
  end.

Declare Scope go_scope.
Delimit Scope go_scope with go.
Notation "'do' x <- m ; k" := (bind m (fun x => k))
  (at level 10, x name, m at level 100, k at level 200) : go_scope.
Notation "'call' m ; k" := (bind m (fun _ => k))
  (at level 10, m at level 100, k at level 200) : go_scope.

(** [int] arithmetic: [numDialAttempts++] wraps around (at 64 bits). *)
Definition wrap (z : Z) : Z := (z + 2 ^ 63) mod 2 ^ 64 - 2 ^ 63.

Section Code.
Context {S : Type}.
Variable env : Env S.
Local Open Scope go_scope.

(** *** Calls on the environment *)

(** Run an operation of the environment on the world and record it. *)
Definition perform {A} (op : S -> A * S) (ev : A -> Event) : M S A :=
  fun st =>
    let '(a, w) := op (world st) in
    (Ret a, [ev a], {| world := w; deadline := deadline st; serial := serial st |}).

Definition perform_ (op : S -> S) (ev : Event) : M S unit :=
  fun st =>
    (Ret tt, [ev],
     {| world := op (world st); deadline := deadline st; serial := serial st |}).

Definition emit (ev : Event) : M S unit := fun st => (Ret tt, [ev], st).

Definition logf (level : Level) (format : string) (arg : option error) : M S unit :=
  emit (EvLog level format arg).

(** [context.WithTimeout(parent, d)] *)
Definition withTimeout (parent : context) (d : Z) : M S context :=
  fun st =>
    let c := WithTimeout parent d (serial st) in
    (Ret c, [EvWithTimeout c],
     {| world := world st; deadline := deadline st;
        serial := Datatypes.S (serial st) |}).

Definition cancel (c : context) : M S unit :=
  perform_ (cancelCtx env c) (EvCancel c).

(** *** The idle-deadline timer *)

Definition setTimer (t : Timer) : M S unit :=
  fun st => (Ret tt, [], {| world := world st; deadline := t; serial := serial st |}).

Definition getTimer : M S Timer := fun st => (Ret (deadline st), [], st).

(** [time.NewTimer(d)] *)
Definition newTimer (d : Z) : M S unit :=
  call emit (EvNewTimer d);
  setTimer {| running := true; pending := false |}.

(** The runtime fires the timer once its duration has elapsed. *)
Definition tick (elapsed : bool) : M S unit :=
  do t <- getTimer;
  if elapsed && running t then
    call emit EvTimerFire;
    setTimer (fire t)
  else ret tt.

(** Ask the environment something that is not a call of the code. *)
Definition ask {A} (op : S -> A * S) : M S A :=
  fun st =>
    let '(a, w) := op (world st) in
    (Ret a, [], {| world := w; deadline := deadline st; serial := serial st |}).

(** [deadline.Stop()]: true when the call stops the timer, false when the
    timer has already fired or been stopped. *)
Definition timerStop : M S bool :=
  do elapsed <- ask (timerElapsed env);
  call tick elapsed;
  do t <- getTimer;
  call emit (EvTimerStop (running t));
  call setTimer {| running := false; pending := pending t |};
  ret (running t).

(** [<-deadline.C]: takes the value out of the channel; with no value
    there and the timer stopped, nothing will ever arrive. *)
Definition timerDrain : M S unit :=
  do t <- getTimer;
  if pending t then
    call emit EvTimerDrain;
    setTimer {| running := running t; pending := false |}
  else blocked.

(** [deadline.Reset(d)] re-arms the timer; it does not touch the
    channel. *)
Definition timerReset (d : Z) : M S unit :=
  do t <- getTimer;
  call emit (EvTimerReset d);
  setTimer {| running := true; pending := pending t |}.

(** *** [select] *)

(** The cases that can proceed, in the order of the source. *)
Definition readyCases (r : Ready) (t : Timer) (withChannel : bool) : list Case :=
  match doneNow r with Some e => [CaseDone e] | None => [] end
  ++ (if pending t then [CaseExpired] else [])
  ++ (if withChannel then
        match queued r with Some (m, ok) => [CaseReceive m ok] | None => [] end
      else []).

Definition choose (cases : list Case) (n : nat) : option Case :=
  nth_error cases (n mod length cases)%nat.

Definition took (c : Case) : M S unit :=
  match c with
  | CaseDone e => emit (EvDone e)
  | CaseExpired =>
      do t <- getTimer;
      call emit EvExpired;
      setTimer {| running := running t; pending := false |}
  | CaseReceive m ok => emit (EvReceive m ok)
  end.

(** [select] over [ctx.Done()], [deadline.C] and, in [run], the channel:
    one of the cases that can proceed is taken; [None] is the [default]
    case, which [run] does not have. *)
Definition selectCase (ctx : context) (withChannel hasDefault : bool)
  : M S (option Case) :=
  do r <- ask (ready env ctx);
  call tick (elapsedNow r);
  do t <- getTimer;
  match choose (readyCases r t withChannel) (pick r) with
  | Some c => call took c; ret (Some c)
  | None =>
      if hasDefault then call emit EvDefault; ret None
      else blocked
  end.

(** *** [write]: one framed exchange *)

Definition listener (t : wire.Type_) (v : wire.Version) (data : wire.bytes)
    (from : Signatory) : M S (option error) :=
  match t with
  | wire.PingAck => perform (DidReceivePingAck env v data from) (EvListener t v data from)
  | wire.PushAck => perform (DidReceivePushAck env v data from) (EvListener t v data from)
  | wire.PullAck => perform (DidReceivePullAck env v data from) (EvListener t v data from)
  | _ => panic "unreachable"
  end.

Definition write (session : Session) (rw : Conn) (msg : wire.Message)
  : M S (option error) :=
  do e <- perform (Encrypt env session (wire.Data msg))
            (EvEncrypt session (wire.Data msg));
  match e with
  | inl err => ret (Some (Errorf "encrypting message: %v" err))
  | inr data =>
  let msg := {| wire.Version_ := wire.Version_ msg;
                wire.MsgType := wire.MsgType msg;
                wire.Data := data |} in
  do m <- perform (Marshal env rw msg) (EvMarshal rw msg);
  match m with
  | Some err => ret (Some (Errorf "marshaling message: %v" err))
  | None =>
  do f <- perform (Flush env rw) (EvFlush rw);
  match f with
  | Some err => ret (Some (Errorf "flushing message: %v" err))
  | None =>
  do u <- perform (Unmarshal env rw) (EvUnmarshal rw);
  match u with
  | inl err => ret (Some (Errorf "unmarshaling response: %v" err))
  | inr response =>
  match wire.Version_ response with
  | wire.V1 =>
      match wire.MsgType response with
      | wire.PingAck | wire.PushAck | wire.PullAck =>
          do d <- perform (Decrypt env session (wire.Data response))
                    (EvDecrypt session (wire.Data response));
          match d with
          | inl err => ret (Some (Errorf "decrypting response: %v" err))
          | inr data =>
              do from <- ask (RemoteSignatory env session);
              do l <- listener (wire.MsgType response) (wire.Version_ response)
                        data from;
              match l with
              | Some err => ret (Some (Errorf "handling response: %v" err))
              | None => ret None
              end
          end
      | wire.Ping | wire.Push | wire.Pull =>
          ret (Some (ErrorfType "checking response: client does not expect type=%v"
                       (wire.MsgType response)))
      | wire.OtherType _ =>
          ret (Some (ErrorfType "checking response: unsupported type=%v"
                       (wire.MsgType response)))
      end
  | wire.OtherVersion _ =>
      ret (Some (ErrorfVersion "checking response: unsupported version=%v"
                   (wire.Version_ response)))
  end end end end end.

(** *** [dial] *)

(** [conn.Close()], logging the error if there is one. *)
Definition closeLogged (conn : Conn) : M S unit :=
  do r <- perform (connClose env conn) (EvClose conn);
  match r with
  | Some err => logf Error_ "closing connection: %v" (Some err)
  | None => ret tt
  end.

(** One turn of the loop of [dial]. *)
Definition dialTurn (opts : ClientOptions) (dialCtx : context) (addr : string)
    (numDialAttempts : Z) : M S (turn Z (error + Conn * Session)) :=
  do d <- perform (pollDone env dialCtx) (EvPollDone dialCtx);
  match d with
  | Some e => ret (Return (inl (Context e)))
  | None =>
  let numDialAttempts := wrap (numDialAttempts + 1) in
  do innerDialCtx <- withTimeout dialCtx (TimeToDial opts);
  do r <- perform (DialContext env innerDialCtx addr) (EvDial innerDialCtx addr);
  match r with
  | inl err =>
      call perform_ (awaitDone env innerDialCtx) (EvAwaitDone innerDialCtx);
      call cancel innerDialCtx;
      if numDialAttempts >=? MaxDialAttempts opts then
        ret (Return (inl (Errorf "dialing: exceeded max dial attempts: %v" err)))
      else
        call logf Warn "dialing: %v" (Some err);
        ret (Continue numDialAttempts)
  | inr conn =>
      do h <- perform (Handshake env dialCtx conn) (EvHandshake dialCtx conn);
      match h with
      | (_, Some err) =>
          call cancel innerDialCtx;
          call logf Error_ "handshaking: %v" (Some err);
          call closeLogged conn;
          ret (Continue numDialAttempts)
      | (None, None) =>
          call cancel innerDialCtx;
          call logf Error_ "handshaking: nil" None;
          call closeLogged conn;
          ret (Continue numDialAttempts)
      | (Some session, None) =>
          call cancel innerDialCtx;
          ret (Return (inr (conn, session)))
      end
  end
  end.

Definition dial (fuel : nat) (opts : ClientOptions) (ctx : context) (addr : string)
  : M S (error + Conn * Session) :=
  do dialCtx <- withTimeout ctx (TimeToLive opts);
  defer (cancel dialCtx) (loop fuel (dialTurn opts dialCtx addr) 0).

(** *** [run] *)

(** One turn of the message loop of [run]. *)
Definition runTurn (opts : ClientOptions) (ctx : context) (conn : Conn)
    (session : Session) (_ : unit)
  : M S (turn unit (option wire.Message * option error)) :=
  do c <- selectCase ctx true false;
  match c with
  | Some (CaseDone e) =>
      ret (Return (None, Some (Errorf "killing connection: %v" (Context e))))
  | Some CaseExpired =>
      ret (Return (None, Some (ErrorNew "killing connection: time-to-live expired")))
  | Some (CaseReceive msg ok) =>
      if negb ok then panic "channel is closed"
      else
        do stopped <- timerStop;
        call (if negb stopped then timerDrain else ret tt);
        call timerReset (TimeToLive opts);
        do sd <- perform (SetDeadline env conn (TimeToLive opts))
                   (EvSetDeadline conn (TimeToLive opts));
        match sd with
        | Some err =>
            call logf Error_ "setting deadline: %v" (Some err);
            ret (Return (Some msg, None))
        | None =>
            do w <- write session conn msg;
            match w with
            | Some err =>
                call logf Error_ "writing: %v" (Some err);
                ret (Return (Some msg, None))
            | None => ret (Continue tt)
            end
        end
  | None => blocked
  end.

Definition run (fuel : nat) (opts : ClientOptions) (ctx : context) (addr : string)
    (lastMessage : option wire.Message)
  : M S (option wire.Message * option error) :=
  do d <- dial fuel opts ctx addr;
  match d with
  | inl err => ret (None, Some (Errorf "connecting: %v" err))
  | inr (conn, session) =>
      defer (closeLogged conn)
        match lastMessage with
        | Some m =>
            call logf Info "resending last message sent" None;
            do w <- write session conn m;
            match w with
            | Some err =>
                call logf Error_ "writing: %v" (Some err);
                ret (lastMessage, None)
            | None => loop fuel (runTurn opts ctx conn session) tt
            end
        | None => loop fuel (runTurn opts ctx conn session) tt
        end
  end.

(** *** The goroutine of [runAndKeepAlive] *)

(** One turn of its loop. *)
Definition keepAliveTurn (fuel : nat) (opts : ClientOptions) (ctx : context)
    (addr : string) (lastMessageSent : option wire.Message)
  : M S (turn (option wire.Message) unit) :=
  do c <- selectCase ctx false true;
  match c with
  | Some (CaseDone _) => ret (Return tt)
  | Some CaseExpired =>
      call logf Error_ "running connection: killing connection: time-to-live expired" None;
      ret (Return tt)
  | Some (CaseReceive _ _) => ret (Return tt)
  | None =>
      do r <- run fuel opts ctx addr lastMessageSent;
      match r with
      | (_, Some err) =>
          do d <- perform (pollDone env ctx) (EvPollDone ctx);
          call match d with
               | Some _ => ret tt
               | None => logf Error_ "running connection: %v" (Some err)
               end;
          ret (Return tt)
      | (lastMessageSent, None) => ret (Continue lastMessageSent)
      end
  end.

Definition runAndKeepAlive (fuel : nat) (opts : ClientOptions) (ctx : context)
    (addr : string) : M S unit :=
  defer (emit (EvClientClose addr))
    (call newTimer (TimeToLive opts);
     loop fuel (keepAliveTurn fuel opts ctx addr) None).

End Code.

(** *** Reasoning about computations *)

(** [wp m st Q]: running [m] from [st] ends in a way that satisfies [Q]. *)
Definition wp {S A} (m : M S A) (st : St S)
    (Q : outcome A -> list Event -> St S -> Prop) : Prop :=
  Q (m st).1.1 (m st).1.2 (m st).2.

(** What a postcondition of [bind m f] asks of [m]. *)
Definition andThen {S A B} (f : A -> M S B)
    (Q : outcome B -> list Event -> St S -> Prop)
  : outcome A -> list Event -> St S -> Prop :=
  fun r evs st =>
    match r with
    | Ret a => wp (f a) st (fun r' evs' st' => Q r' (evs ++ evs') st')
    | Panic what => Q (Panic what) evs st
    | Blocked => Q Blocked evs st
    | Unfinished => Q Unfinished evs st
    end.

(** *** Reading the events of a run *)

(** The calls of a framed exchange after the encryption that opens it. *)
Definition exchangeTail (e : Event) : bool :=
  match e with
  | EvMarshal _ _ _ | EvFlush _ _ | EvUnmarshal _ _
  | EvDecrypt _ _ _ | EvListener _ _ _ _ _ => true
  | _ => false
  end.

(** Events that neither touch the timer nor take anything off the queue. *)
Definition timerFree (e : Event) : bool :=
  match e with
  | EvNewTimer _ | EvTimerFire | EvTimerStop _ | EvTimerDrain | EvTimerReset _
  | EvExpired | EvReceive _ _ => false
  | _ => true
  end.

(** The events [dial] makes. *)
Definition connecting (e : Event) : bool :=
  match e with
  | EvWithTimeout _ | EvCancel _ | EvPollDone _ _ | EvAwaitDone _
  | EvDial _ _ _ | EvHandshake _ _ _ | EvClose _ _ | EvLog _ _ _ => true
  | _ => false
  end.


(** No exchange is opened before a message has been taken off the queue. *)
Fixpoint settled (evs : list Event) : bool :=
  match evs with
  | [] => true
  | EvReceive _ _ :: _ => true
  | EvEncrypt _ _ _ :: _ => false
  | _ :: rest => settled rest
  end.



(** Where the code stands in re-arming the timer after taking a message. *)
Inductive Phase :=
| Idle
| Dequeued
| Stopped (wasRunning : bool)
| Drained.

(** The re-arming discipline, event by event: after a message is taken the
    timer is stopped, its channel is drained if the stop came too late, and
    it is reset to [ttl]; the timer is stopped, drained or reset nowhere
    else.  [None] when an event breaks the discipline. *)
Definition rearmStep (ttl : Z) (p : Phase) (e : Event) : option Phase :=
  match p, e with
  | Idle, EvReceive _ true => Some Dequeued
  | Idle, (EvTimerStop _ | EvTimerDrain | EvTimerReset _) => None
  | Idle, _ => Some Idle
  | Dequeued, EvTimerFire => Some Dequeued
  | Dequeued, EvTimerStop b => Some (Stopped b)
  | Stopped true, EvTimerReset d => if d =? ttl then Some Idle else None
  | Stopped false, EvTimerDrain => Some Drained
  | Drained, EvTimerReset d => if d =? ttl then Some Idle else None
  | _, _ => None
  end.

Fixpoint rearm (ttl : Z) (p : Phase) (evs : list Event) : option Phase :=
  match evs with
  | [] => Some p
  | e :: rest =>
      match rearmStep ttl p e with
      | Some p' => rearm ttl p' rest
      | None => None
      end
  end.

(** What an event does to a timer, when the timer allows it: it fires only
    while running; [Stop] reports whether it was running; a value is received
    from its channel only if one is there; it is reset only once stopped and
    with its channel empty. *)
Definition timerStep (t : Timer) (e : Event) : option Timer :=
  match e with
  | EvNewTimer _ => Some {| running := true; pending := false |}
  | EvTimerFire =>
      if running t then Some {| running := false; pending := true |} else None
  | EvTimerStop b =>
      if Bool.eqb b (running t)
      then Some {| running := false; pending := pending t |} else None
  | EvTimerDrain | EvExpired =>
      if pending t then Some {| running := running t; pending := false |} else None
  | EvTimerReset _ =>
      if running t || pending t then None
      else Some {| running := true; pending := false |}
  | _ => Some t
  end.

Fixpoint replay (t : Timer) (evs : list Event) : option Timer :=
  match evs with
  | [] => Some t
  | e :: rest =>
      match timerStep t e with
      | Some t' => replay t' rest
      | None => None
      end
  end.

(** A timer in use: running with an empty channel, or fired with its value
    waiting in the channel. *)
Definition inUse (t : Timer) : bool := xorb (running t) (pending t).

(** What the runtime may have done to the timer before the code looks at
    it: nothing, or fired it. *)
Definition ticked (t : Timer) (pre : list Event) (t1 : Timer) : Prop :=
  (pre = [] /\ t1 = t)
  \/ (pre = [EvTimerFire] /\ running t = true
      /\ t1 = {| running := false; pending := true |}).

(** The events [e] take the timer from [t] to [t'] and keep to the
    re-arming discipline. *)
Definition kept (ttl : Z) (t : Timer) (e : list Event) (t' : Timer) : Prop :=
  replay t e = Some t' /\ rearm ttl Idle e = Some Idle.


(** The connections a run of the code opened, and those it closed, in
    order. *)
Definition opened (evs : list Event) : list Conn :=
  omap (fun e => match e with EvDial _ _ (inr conn) => Some conn | _ => None end) evs.

Definition closed (evs : list Event) : list Conn :=
  omap (fun e => match e with EvClose conn _ => Some conn | _ => None end) evs.



(** The number of [DialContext] calls that failed. *)
Fixpoint failedDials (evs : list Event) : nat :=
  match evs with
  | [] => 0
  | EvDial _ _ (inl _) :: rest => Datatypes.S (failedDials rest)
  | _ :: rest => failedDials rest
  end.

(** Every event but a poll that finds its context done. *)
Definition live (e : Event) : bool :=
  match e with
  | EvPollDone _ (Some _) => false
  | _ => true
  end.

(** The events of the message loop of [run] and of the exchanges. *)
Definition serving (e : Event) : bool :=
  match e with
  | EvDone _ | EvExpired | EvReceive _ _
  | EvTimerFire | EvTimerStop _ | EvTimerDrain | EvTimerReset _
  | EvSetDeadline _ _ _ | EvLog _ _ _ | EvEncrypt _ _ _ => true
  | _ => exchangeTail e
  end.

(** The events of the loop of the goroutine: all but the creation of the
    timer and the call of [client.Close]. *)
Definition inLoop (e : Event) : bool :=
  match e with
  | EvNewTimer _ | EvClientClose _ => false
  | _ => true
  end.

(** Where the supervisor stands with the message it holds: nothing is
    owed; the message must be sent again; it was just taken off the queue;
    the I/O deadline is set for it; its resending was announced. *)
Inductive Stage := Quiet | Owed | Taken | Armed | Resending.

(** The order of the exchanges, event by event.  A message is taken off the
    queue only when nothing is owed.  The I/O deadline is set only for a
    message just taken, and to [ttl]; if that fails the message is owed.  An
    exchange is opened only for the message held, either with its deadline
    set or after its resending was announced, and once.  A failed exchange
    leaves the message owed, and resending is announced only for a message
    that is owed.  [None] when an event breaks the order. *)
Definition exchangeStep (ttl : Z) (s : option wire.Message * Stage) (e : Event)
  : option (option wire.Message * Stage) :=
  match e with
  | EvReceive msg true =>
      match s.2 with
      | Quiet => Some (Some msg, Taken)
      | _ => None
      end
  | EvSetDeadline _ d r =>
      match s.2 with
      | Taken =>
          if d =? ttl
          then Some (s.1, match r with None => Armed | Some _ => Owed end)
          else None
      | _ => None
      end
  | EvEncrypt _ data _ =>
      match s with
      | (Some msg, Armed) | (Some msg, Resending) =>
          if bool_decide (wire.Data msg = data) then Some (Some msg, Quiet) else None
      | _ => None
      end
  | EvLog Info format None =>
      if String.eqb format "resending last message sent" then
        match s with
        | (Some msg, Owed) => Some (Some msg, Resending)
        | _ => None
        end
      else Some s
  | EvLog Error_ format (Some _) =>
      if String.eqb format "writing: %v" then
        match s.2 with
        | Quiet => Some (s.1, Owed)
        | _ => None
        end
      else Some s
  | _ => Some s
  end.

Fixpoint exchanges (ttl : Z) (s : option wire.Message * Stage) (evs : list Event)
  : option (option wire.Message * Stage) :=
  match evs with
  | [] => Some s
  | e :: rest =>
      match exchangeStep ttl s e with
      | Some s' => exchanges ttl s' rest
      | None => None
      end
  end.

(** The stage in which [run] is entered. *)
Definition entering (lastMessage : option wire.Message) : Stage :=
  match lastMessage with
  | Some _ => Owed
  | None => Quiet
  end.

(** The calls that go over the connection [conn] and the session [session]
    and no other, with no dialling and no handshake. *)
Definition via (conn : Conn) (session : Session) (e : Event) : bool :=
  match e with
  | EvSetDeadline c _ _ | EvClose c _ => Nat.eqb c conn
  | EvMarshal rw _ _ | EvFlush rw _ | EvUnmarshal rw _ => Nat.eqb rw conn
  | EvEncrypt s _ _ | EvDecrypt s _ _ => Nat.eqb s session
  | EvDial _ _ _ | EvHandshake _ _ _ => false
  | _ => true
  end.

(** The last things the goroutine of a supervisor does before it returns:
    its [select] finds the context done; or it finds the timer expired, and
    logs it; or [run] has returned an error, which it logs unless it then
    finds the context done. *)
Definition parting (ctx : context) (tail : list Event) : Prop :=
  (exists e, tail = [EvDone e])
  \/ tail = [EvExpired;
             EvLog Error_ "running connection: killing connection: time-to-live expired"
               None]
  \/ (exists e, tail = [EvPollDone ctx (Some e)])
  \/ (exists err, tail = [EvPollDone ctx None;
                          EvLog Error_ "running connection: %v" (Some err)]).

End Supervisor.

(** ** Concrete inputs used to run the definitions *)

Module Examples.
Import Pool.

Definition ping : wire.Message :=
  {| wire.Version_ := wire.V1; wire.MsgType := wire.Ping; wire.Data := [1; 2; 3] |}.

(** A caller whose context is live, and one whose context was cancelled
    before the call; in the second the runtime picks the channel case. *)
Definition liveCaller : SelectEnv :=
  {| ctxErr := None; receiverWaiting := false; pickSend := false |}.
Definition cancelledCaller : SelectEnv :=
  {| ctxErr := Some Canceled; receiverWaiting := false; pickSend := true |}.
Definition cancelledCallerLosing : SelectEnv :=
  {| ctxErr := Some Canceled; receiverWaiting := false; pickSend := false |}.

Definition fresh : Client := NewClient DefaultClientOptions.
Definition single : Client := NewClient (WithMaxConnections DefaultClientOptions 1).
Definition singleBusy : Client := snd (Send single liveCaller "10.0.0.1:80" ping).


(** A scripted environment: each kind of call takes its next answer from a
    list, and has a fixed answer once the list is used up.  Encryption and
    decryption are the identity; marshalling, flushing, closing and setting
    deadlines succeed. *)
Record Script := mkScript {
  dials : list (error + Supervisor.Conn);
  handshakes : list (option Supervisor.Session * option error);
  frames : list (error + wire.Message);
  acks : list (option error);
  dones : list (option ContextError);
  selects : list Supervisor.Ready;
  elapses : list bool
}.

Definition pop {A} (d : A) (l : list A) : A * list A :=
  match l with
  | [] => (d, [])
  | x :: l' => (x, l')
  end.

Definition nothingReady : Supervisor.Ready :=
  {| Supervisor.doneNow := None; Supervisor.elapsedNow := false;
     Supervisor.queued := None; Supervisor.pick := 0%nat |}.

Definition scripted : Supervisor.Env Script :=
  {| Supervisor.pollDone := fun _ s =>
       let '(x, l) := pop None (dones s) in
       (x, mkScript (dials s) (handshakes s) (frames s) (acks s) l (selects s) (elapses s));
     Supervisor.awaitDone := fun _ s => s;
     Supervisor.cancelCtx := fun _ s => s;
     Supervisor.DialContext := fun _ _ s =>
       let '(x, l) := pop (inl (External "connection refused")) (dials s) in
       (x, mkScript l (handshakes s) (frames s) (acks s) (dones s) (selects s) (elapses s));
     Supervisor.Handshake := fun _ _ s =>
       let '(x, l) := pop (Some 0%nat, None) (handshakes s) in
       (x, mkScript (dials s) l (frames s) (acks s) (dones s) (selects s) (elapses s));
     Supervisor.connClose := fun _ s => (None, s);
     Supervisor.SetDeadline := fun _ _ s => (None, s);
     Supervisor.Encrypt := fun _ data s => (inr data, s);
     Supervisor.Decrypt := fun _ data s => (inr data, s);
     Supervisor.RemoteSignatory := fun session s => (session, s);
     Supervisor.Marshal := fun _ _ s => (None, s);
     Supervisor.Flush := fun _ s => (None, s);
     Supervisor.Unmarshal := fun _ s =>
       let '(x, l) := pop (inl (External "EOF")) (frames s) in
       (x, mkScript (dials s) (handshakes s) l (acks s) (dones s) (selects s) (elapses s));
     Supervisor.DidReceivePingAck := fun _ _ _ s =>
       let '(x, l) := pop None (acks s) in
       (x, mkScript (dials s) (handshakes s) (frames s) l (dones s) (selects s) (elapses s));
     Supervisor.DidReceivePushAck := fun _ _ _ s =>
       let '(x, l) := pop None (acks s) in
       (x, mkScript (dials s) (handshakes s) (frames s) l (dones s) (selects s) (elapses s));
     Supervisor.DidReceivePullAck := fun _ _ _ s =>
       let '(x, l) := pop None (acks s) in
       (x, mkScript (dials s) (handshakes s) (frames s) l (dones s) (selects s) (elapses s));
     Supervisor.timerElapsed := fun s =>
       let '(x, l) := pop false (elapses s) in
       (x, mkScript (dials s) (handshakes s) (frames s) (acks s) (dones s) (selects s) l);
     Supervisor.ready := fun _ s =>
       let '(x, l) := pop nothingReady (selects s) in
       (x, mkScript (dials s) (handshakes s) (frames s) (acks s) (dones s) l (elapses s)) |}.

Definition start (s : Script) : Supervisor.St Script :=
  {| Supervisor.world := s;
     Supervisor.deadline := {| Supervisor.running := true; Supervisor.pending := false |};
     Supervisor.serial := 0 |}.

Definition quiet : Script := mkScript [] [] [] [] [] [] [].

Definition pingAck : wire.Message :=
  {| wire.Version_ := wire.V1; wire.MsgType := wire.PingAck; wire.Data := [] |}.
Definition fromTheFuture : wire.Message :=
  {| wire.Version_ := wire.OtherVersion 2; wire.MsgType := wire.PingAck; wire.Data := [] |}.

(** One message goes through: the first [select] of the goroutine finds
    nothing ready, the dial and the handshake succeed, the [select] of [run]
    finds the message in the queue while the timer has just fired and takes
    the message, the peer acknowledges, and then the context is cancelled. *)
Definition oneMessage : Script :=
  mkScript [inr 1%nat] [] [inr pingAck] [] []
    [nothingReady;
     {| Supervisor.doneNow := None; Supervisor.elapsedNow := true;
        Supervisor.queued := Some (ping, true); Supervisor.pick := 1%nat |};
     {| Supervisor.doneNow := Some Canceled; Supervisor.elapsedNow := false;
        Supervisor.queued := None; Supervisor.pick := 0%nat |}]
    [].

(** The same, but the peer answers with a version the client does not
    know; the second run finds the context cancelled. *)
Definition unknownVersion : Script :=
  mkScript [inr 1%nat; inr 2%nat] [] [inr fromTheFuture; inr pingAck] [] []
    [nothingReady;
     {| Supervisor.doneNow := None; Supervisor.elapsedNow := false;
        Supervisor.queued := Some (ping, true); Supervisor.pick := 0%nat |};
     nothingReady;
     {| Supervisor.doneNow := Some Canceled; Supervisor.elapsedNow := false;
        Supervisor.queued := None; Supervisor.pick := 0%nat |}]
    [].

(** The part of [unknownVersion] that the first [run] sees. *)
Definition unknownVersionRun : Script :=
  mkScript [inr 1%nat] [] [inr fromTheFuture] [] []
    [{| Supervisor.doneNow := None; Supervisor.elapsedNow := false;
        Supervisor.queued := Some (ping, true); Supervisor.pick := 0%nat |}]
    [].

(** The first handshake is refused, the second attempt goes through. *)
Definition secondTry : Script :=
  mkScript [inr 1%nat; inr 2%nat] [(None, Some (External "bad signature"))]
    [] [] [] [] [].

(** The context is already done when [dial] first looks at it. *)
Definition alreadyDone : Script :=
  mkScript [] [] [] [] [Some Canceled] [] [].

(** The connection is up and the context is cancelled while [run] waits for
    a message. *)
Definition cancelledWhileIdle : Script :=
  mkScript [inr 1%nat] [] [] [] []
    [{| Supervisor.doneNow := Some Canceled; Supervisor.elapsedNow := false;
        Supervisor.queued := None; Supervisor.pick := 0%nat |}]
    [].

(** A peer that accepts every connection and fails every handshake, while
    the context never becomes done. *)
Definition impostor : Supervisor.Env unit :=
  {| Supervisor.pollDone := fun _ s => (None, s);
     Supervisor.awaitDone := fun _ s => s;
     Supervisor.cancelCtx := fun _ s => s;
     Supervisor.DialContext := fun _ _ s => (inr 1%nat, s);
     Supervisor.Handshake := fun _ _ s => ((None, Some (External "bad signature")), s);
     Supervisor.connClose := fun _ s => (None, s);
     Supervisor.SetDeadline := fun _ _ s => (None, s);
     Supervisor.Encrypt := fun _ data s => (inr data, s);
     Supervisor.Decrypt := fun _ data s => (inr data, s);
     Supervisor.RemoteSignatory := fun session s => (session, s);
     Supervisor.Marshal := fun _ _ s => (None, s);
     Supervisor.Flush := fun _ s => (None, s);
     Supervisor.Unmarshal := fun _ s => (inl (External "EOF"), s);
     Supervisor.DidReceivePingAck := fun _ _ _ s => (None, s);
     Supervisor.DidReceivePushAck := fun _ _ _ s => (None, s);
     Supervisor.DidReceivePullAck := fun _ _ _ s => (None, s);
     Supervisor.timerElapsed := fun s => (false, s);
     Supervisor.ready := fun _ s => (nothingReady, s) |}.

End Examples.

(** * Theorems *)

(** ** The pool *)

Section PoolFacts.
Import Pool.

Lemma acquire_present client addr c :
  connsByAddr client !! addr = Some c ->
  acquire client addr = (Ret (inr c), client).
Proof. intros H. unfold acquire. by rewrite H. Qed.

Lemma acquire_full client addr :
  connsByAddr client !! addr = None ->
  MaxConnections (opts client) <= len client ->
  acquire client addr
  = (Ret (inl (ErrorNew "max outbound connections exceeded")), client).
Proof.
  intros H Hfull. unfold acquire. rewrite H.
  destruct (Z.geb_spec (len client) (MaxConnections (opts client))); [done | lia].
Qed.

Lemma acquire_fresh client addr :
  connsByAddr client !! addr = None ->
  len client < MaxConnections (opts client) ->
  0 <= MaxCapacity (opts client) ->
  let c := {| ch := length (supervisors client); cancel := length (supervisors client) |} in
  acquire client addr
  = (Ret (inr c),
     {| opts := opts client;
        connsByAddr := <[addr := c]> (connsByAddr client);
        chans := <[ch c := []]> (chans client);
        cancelled := cancelled client;
        supervisors := supervisors client ++ [(addr, c)] |}).
Proof.
  intros H Hroom Hcap. unfold acquire, runAndKeepAlive. rewrite H.
  destruct (Z.geb_spec (len client) (MaxConnections (opts client))); [lia |].
  destruct (Z.ltb_spec (MaxCapacity (opts client)) 0); [lia |].
  cbn. unfold with_conns; cbn. by rewrite lookup_insert_eq.
Qed.

Lemma race_conns client c msg env :
  connsByAddr (snd (race client c msg env)) = connsByAddr client
  /\ supervisors (snd (race client c msg env)) = supervisors client
  /\ cancelled (snd (race client c msg env)) = cancelled client
  /\ opts (snd (race client c msg env)) = opts client.
Proof.
  unfold race. destruct (ctxErr env), (canSend client c env), (pickSend env); done.
Qed.

Lemma race_not_capacity client c msg env :
  fst (race client c msg env)
  <> Ret (Some (ErrorNew "max outbound connections exceeded")).
Proof.
  unfold race. destruct (ctxErr env), (canSend client c env), (pickSend env); done.
Qed.


Lemma Send_cases client env addr msg :
  (exists err, acquire client addr = (Ret (inl err), client)
               /\ Send client env addr msg = (Ret (Some err), client))
  \/ (exists c client', acquire client addr = (Ret (inr c), client')
                        /\ Send client env addr msg = race client' c msg env)
  \/ (exists what, acquire client addr = (Panic what, client)
                   /\ Send client env addr msg = (Panic what, client)).
Proof.
  unfold Send, acquire, runAndKeepAlive.
  destruct (connsByAddr client !! addr) as [c|] eqn:Hl.
  - right; left. by exists c, client.
  - destruct (len client >=? MaxConnections (opts client)).
    + left. by eexists.
    + destruct (MaxCapacity (opts client) <? 0).
      * right; right. by eexists.
      * right; left. by do 2 eexists.
Qed.

Lemma acquire_size client addr r client' :
  acquire client addr = (r, client') ->
  opts client' = opts client
  /\ (len client' <= len client
      \/ (len client < MaxConnections (opts client)
          /\ len client' = len client + 1)).
Proof.
  unfold acquire, runAndKeepAlive.
  destruct (connsByAddr client !! addr) as [c|] eqn:Hl.
  - intros [= <- <-]. split; [done | left; lia].
  - destruct (Z.geb_spec (len client) (MaxConnections (opts client))).
    + intros [= <- <-]. split; [done | left; lia].
    + destruct (MaxCapacity (opts client) <? 0).
      * intros [= <- <-]. split; [done | left; lia].
      * intros [= <- <-]. split; [done | right]. split; [lia |].
        unfold len, with_conns; cbn. rewrite map_size_insert_None by done. lia.
Qed.

Lemma Send_size client env addr msg :
  opts (snd (Send client env addr msg)) = opts client
  /\ (len (snd (Send client env addr msg)) <= len client
      \/ (len client < MaxConnections (opts client)
          /\ len (snd (Send client env addr msg)) = len client + 1)).
Proof.
  destruct (Send_cases client env addr msg)
    as [(err & Ha & ->) | [(c & client' & Ha & ->) | (what & Ha & ->)]]; cbn.
  - split; [done | left; lia].
  - destruct (race_conns client' c msg env) as (Hc & _ & _ & Ho).
    destruct (acquire_size _ _ _ _ Ha) as [Ho' Hs].
    unfold len in *. rewrite Hc, Ho. done.
  - split; [done | left; lia].
Qed.













(** C10.  When the address is new and admission hands back a [conn], the
    supervisor has been started and its [conn] stored in the map before the
    [select]; if [Send] then returns an error, that error is the caller's
    context error, nothing was enqueued, and the client is exactly as
    admission left it: the entry is still in the map, which has grown by
    one, and no cancel function was called. *)
Theorem Send_error_keeps_supervisor client env addr msg c held err :
  connsByAddr client !! addr = None ->
  acquire client addr = (Ret (inr c), held) ->
  fst (Send client env addr msg) = Ret (Some err) ->
  supervisors held = supervisors client ++ [(addr, c)]
  /\ connsByAddr held = <[addr := c]> (connsByAddr client)
  /\ Send client env addr msg = race held c msg env
  /\ (exists e, ctxErr env = Some e /\ err = Context e)
  /\ snd (Send client env addr msg) = held
  /\ connsByAddr (snd (Send client env addr msg)) !! addr = Some c
  /\ len (snd (Send client env addr msg)) = len client + 1
  /\ buffered (snd (Send client env addr msg)) c = []
  /\ cancelled (snd (Send client env addr msg)) = cancelled client.
Proof.
  intros Hnone Ha Herr.
  assert (Hsend : Send client env addr msg = race held c msg env)
    by (unfold Send; by rewrite Ha).
  rewrite Hsend in *.
  unfold acquire, runAndKeepAlive in Ha. rewrite Hnone in Ha.
  destruct (len client >=? MaxConnections (opts client)); [done |].
  destruct (MaxCapacity (opts client) <? 0); [done |].
  injection Ha as <- <-. cbn.
  unfold race in *.
  destruct (ctxErr env) as [e |] eqn:He;
    destruct (canSend _ _ env); try destruct (pickSend env);
    cbn in Herr; try discriminate; injection Herr as <-; cbn;
    rewrite ?lookup_insert_eq;
    repeat split; try done; try (by exists e).
  all: unfold len, buffered, with_conns; cbn;
    rewrite ?lookup_insert_eq, ?map_size_insert_None by done; try done; lia.
Qed.

Lemma Send_error_keeps_supervisor_witness :
  connsByAddr (snd (Send Examples.fresh Examples.cancelledCallerLosing
                      "10.0.0.1:80" Examples.ping)) !! "10.0.0.1:80"
  = Some {| ch := 0%nat; cancel := 0%nat |}.
Proof.
  apply (Send_error_keeps_supervisor Examples.fresh Examples.cancelledCallerLosing
           "10.0.0.1:80" Examples.ping {| ch := 0%nat; cancel := 0%nat |}
           (snd (acquire Examples.fresh "10.0.0.1:80")) (Context Canceled));
    reflexivity.
Defined.

End PoolFacts.

(** ** The supervisor *)

Section SupervisorFacts.
Import Supervisor.
Context {S : Type}.
Variable env : Env S.

Lemma wp_intro {A} (m : M S A) st Q r evs st' :
  wp m st Q -> m st = (r, evs, st') -> Q r evs st'.
Proof. unfold wp. intros H E. by rewrite E in H. Qed.

Lemma wp_ret {A} (a : A) (st : St S) Q : Q (Ret a) [] st -> wp (ret a) st Q.
Proof. done. Qed.

Lemma wp_bind {A B} (m : M S A) (f : A -> M S B) st Q :
  wp m st (andThen f Q) -> wp (bind m f) st Q.
Proof.
  unfold wp, andThen, bind.
  destruct (m st) as [[[a | what | |] evs] st1]; cbn; try done.
  unfold wp. destruct (f a st1) as [[r evs'] st2]; cbn; auto.
Qed.

Lemma wp_mono {A} (m : M S A) st (Q Q' : outcome A -> list Event -> St S -> Prop) :
  wp m st Q -> (forall r evs st', Q r evs st' -> Q' r evs st') -> wp m st Q'.
Proof. unfold wp. auto. Qed.

Lemma wp_perform {A} (op : S -> A * S) ev st Q :
  (forall a w, op (world st) = (a, w) ->
     Q (Ret a) [ev a] {| world := w; deadline := deadline st; serial := serial st |}) ->
  wp (perform op ev) st Q.
Proof.
  unfold wp, perform. destruct (op (world st)) as [a w]. cbn. auto.
Qed.

Lemma wp_ask {A} (op : S -> A * S) st Q :
  (forall a w, op (world st) = (a, w) ->
     Q (Ret a) [] {| world := w; deadline := deadline st; serial := serial st |}) ->
  wp (ask op) st Q.
Proof.
  unfold wp, ask. destruct (op (world st)) as [a w]. cbn. auto.
Qed.

Lemma wp_perform_ (op : S -> S) ev (st : St S) Q :
  Q (Ret tt) [ev] {| world := op (world st); deadline := deadline st; serial := serial st |} ->
  wp (perform_ op ev) st Q.
Proof. done. Qed.

Lemma wp_emit ev (st : St S) Q : Q (Ret tt) [ev] st -> wp (emit ev) st Q.
Proof. done. Qed.

Lemma wp_withTimeout parent d (st : St S) Q :
  Q (Ret (WithTimeout parent d (serial st)))
    [EvWithTimeout (WithTimeout parent d (serial st))]
    {| world := world st; deadline := deadline st; serial := Datatypes.S (serial st) |} ->
  wp (withTimeout parent d) st Q.
Proof. done. Qed.

Lemma wp_getTimer (st : St S) Q : Q (Ret (deadline st)) [] st -> wp getTimer st Q.
Proof. done. Qed.

Lemma wp_setTimer t (st : St S) Q :
  Q (Ret tt) [] {| world := world st; deadline := t; serial := serial st |} ->
  wp (setTimer t) st Q.
Proof. done. Qed.

Lemma wp_blocked {A} (st : St S) (Q : outcome A -> _) : Q Blocked [] st -> wp blocked st Q.
Proof. done. Qed.

Lemma wp_unfinished {A} (st : St S) (Q : outcome A -> _) : Q Unfinished [] st -> wp unfinished st Q.
Proof. done. Qed.

Lemma wp_panic {A} what (st : St S) (Q : outcome A -> _) : Q (Panic what) [] st -> wp (panic what) st Q.
Proof. done. Qed.
Lemma wp_defer {A} (cleanup : M S unit) (body : M S A) st Q :
  wp body st (fun r evs s =>
    match r with
    | Ret a =>
        wp cleanup s (fun r' evs' s' =>
          match r' with
          | Ret _ => Q (Ret a) (evs ++ evs') s'
          | Panic what => Q (Panic what) (evs ++ evs') s'
          | Blocked => Q Blocked (evs ++ evs') s'
          | Unfinished => Q Unfinished (evs ++ evs') s'
          end)
    | Panic what => wp cleanup s (fun _ evs' s' => Q (Panic what) (evs ++ evs') s')
    | Blocked => Q Blocked evs s
    | Unfinished => Q Unfinished evs s
    end) ->
  wp (defer cleanup body) st Q.
Proof.
  unfold wp, defer.
  destruct (body st) as [[[a | what | |] evs] s]; cbn; try done.
  - destruct (cleanup s) as [[[[] | what | |] evs'] s']; cbn; auto.
  - destruct (cleanup s) as [[r' evs'] s']; cbn; auto.
Qed.

(** A loop keeps an invariant [Inv]; what is known of a run of the loop
    from a state, [Q a st], follows from what is known of the run from the
    state a turn later. *)
Lemma wp_loop {A B} (Inv : A -> St S -> Prop)
    (Q : A -> St S -> outcome B -> list Event -> St S -> Prop)
    (body : A -> M S (turn A B)) :
  (forall a st, Inv a st -> Q a st Unfinished [] st) ->
  (forall a st, Inv a st ->
     wp (body a) st (fun r e s =>
       match r with
       | Ret (Continue a') =>
           Inv a' s /\ forall r' e' s', Q a' s r' e' s' -> Q a st r' (e ++ e') s'
       | Ret (Return b) => Q a st (Ret b) e s
       | Panic what => Q a st (Panic what) e s
       | Blocked => Q a st Blocked e s
       | Unfinished => Q a st Unfinished e s
       end)) ->
  forall fuel a st, Inv a st -> wp (loop fuel body a) st (Q a st).
Proof.
  intros Hun Hbody. induction fuel as [| fuel IH]; intros a st Hinv.
  - apply wp_unfinished. eauto.
  - cbn [loop]. apply wp_bind. eapply wp_mono; [apply Hbody, Hinv |].
    intros r e s Hr. unfold andThen.
    destruct r as [[a' | b] | what | |]; try done.
    + destruct Hr as [Hinv' Hcat]. eapply wp_mono; [apply IH, Hinv' |].
      cbn. eauto.
    + apply wp_ret. by rewrite app_nil_r.
Qed.

Lemma wp_run {A} (m : M S A) st : wp m st (fun r e s => m st = (r, e, s)).
Proof. unfold wp. by destruct (m st) as [[? ?] ?]. Qed.

Lemma wp_conj {A} (m : M S A) st (Q1 Q2 : outcome A -> list Event -> St S -> Prop) :
  wp m st Q1 -> wp m st Q2 -> wp m st (fun r e s => Q1 r e s /\ Q2 r e s).
Proof. unfold wp. auto. Qed.

End SupervisorFacts.

(** One step of symbolic execution. *)
Ltac wp_step :=
  lazymatch goal with
  | |- Supervisor.wp (Supervisor.bind _ _) _ _ => apply wp_bind
  | |- Supervisor.wp (Supervisor.perform _ _) _ _ => apply wp_perform; intros ? ? ?
  | |- Supervisor.wp (Supervisor.ask _) _ _ => apply wp_ask; intros ? ? ?
  | |- Supervisor.wp (Supervisor.perform_ _ _) _ _ => apply wp_perform_
  | |- Supervisor.wp (Supervisor.emit _) _ _ => apply wp_emit
  | |- Supervisor.wp (Supervisor.withTimeout _ _) _ _ => apply wp_withTimeout
  | |- Supervisor.wp Supervisor.getTimer _ _ => apply wp_getTimer
  | |- Supervisor.wp (Supervisor.setTimer _) _ _ => apply wp_setTimer
  | |- Supervisor.wp (Supervisor.ret _) _ _ => apply wp_ret
  | |- Supervisor.wp (Supervisor.panic _) _ _ => apply wp_panic
  | |- Supervisor.wp Supervisor.blocked _ _ => apply wp_blocked
  | |- Supervisor.wp Supervisor.unfinished _ _ => apply wp_unfinished
  | |- Supervisor.wp (Supervisor.logf _ _ _) _ _ => unfold Supervisor.logf
  | |- Supervisor.wp (Supervisor.cancel _ _) _ _ => unfold Supervisor.cancel
  | |- Supervisor.wp (Supervisor.closeLogged _ _) _ _ => unfold Supervisor.closeLogged
  | |- Supervisor.wp (Supervisor.listener _ _ _ _ _) _ _ => unfold Supervisor.listener
  | |- Supervisor.wp (if ?b then _ else _) _ _ => destruct b eqn:?
  | |- Supervisor.wp (match ?x with _ => _ end) _ _ => destruct x eqn:?
  | |- Supervisor.andThen _ _ _ _ _ => unfold Supervisor.andThen at 1; cbn beta iota
  end;
  cbn [Supervisor.world Supervisor.deadline Supervisor.serial].

(** Turn a goal about the result of [m st] into a [wp] goal. *)
Ltac wp_start H :=
  match type of H with
  | _ = (?r, ?evs, ?st') =>
      pattern r, evs, st'; eapply wp_intro; [| exact H]; clear H
  end.

Ltac in_cases H :=
  repeat (destruct H as [H | H]); try discriminate H; try contradiction.

Lemma triple_eta {A B C} (x : A * B * C) : x = (x.1.1, x.1.2, x.2).
Proof. by destruct x as [[? ?] ?]. Qed.

Section ExchangeFacts.
Import Supervisor.
Context {S : Type}.
Variable env : Env S.

(** C7.  In a framed exchange [Decrypt] is called only on a response whose
    version is [V1] and whose type is an acknowledgement: when the response
    read has another version or a type that is not an acknowledgement,
    [write] returns an error and the exchange holds no [Decrypt] call. *)
Theorem write_decrypts_after_checks session rw msg st r evs st' :
  write env session rw msg st = (r, evs, st') ->
  (forall response,
      In (EvUnmarshal rw (inr response)) evs ->
      wire.Version_ response <> wire.V1
      \/ wire.is_ack (wire.MsgType response) = false ->
      (exists err, r = Ret (Some err))
      /\ forall s d x, ~ In (EvDecrypt s d x) evs)
  /\ (forall s d x,
        In (EvDecrypt s d x) evs ->
        exists response,
          In (EvUnmarshal rw (inr response)) evs
          /\ wire.Version_ response = wire.V1
          /\ wire.is_ack (wire.MsgType response) = true
          /\ d = wire.Data response).
Proof.
  intros H. wp_start H. unfold write. repeat wp_step. all: cbn.
  all: split; [intros response Hin Hbad | intros s0 d0 x0 Hin].
  all: in_cases Hin.
  all: simplify_eq.
  all: try (destruct Hbad as [Hbad | Hbad]; [congruence | ];
            match goal with E : wire.MsgType _ = _ |- _ => rewrite E in Hbad end;
            try discriminate Hbad).
  all: try (split; [eauto |]; intros s0 d0 x0 Hin; in_cases Hin).
  all: try (eexists; split; [eauto 10 |]; repeat split; try done;
            match goal with E : wire.MsgType _ = _ |- _ => by rewrite E end).
Qed.

End ExchangeFacts.

Lemma write_decrypts_after_checks_witness :
  let out := Supervisor.write Examples.scripted 7%nat 3%nat Examples.ping
               (Examples.start (Examples.mkScript [] [] [inr Examples.fromTheFuture]
                                  [] [] [] [])) in
  (exists err, out.1.1 = Ret (Some err))
  /\ forall s d x, ~ In (Supervisor.EvDecrypt s d x) out.1.2.
Proof.
  cbv zeta.
  eapply (write_decrypts_after_checks Examples.scripted 7%nat 3%nat Examples.ping
            (Examples.start (Examples.mkScript [] [] [inr Examples.fromTheFuture]
                               [] [] [] []))).
  - reflexivity.
  - vm_compute. right; right; right; left. reflexivity.
  - left. discriminate.
Defined.


Section DialFacts.
Import Supervisor.
Context {S : Type}.
Variable env : Env S.

Lemma wrap_small z : - 2 ^ 63 <= z < 2 ^ 63 -> wrap z = z.
Proof. intros H. unfold wrap. rewrite Z.mod_small; lia. Qed.

Lemma dialTurn_budget_irrelevant opts dialCtx addr n st (a b : Z) :
  (wrap (n + 1) >=? a) = true ->
  (wrap (n + 1) >=? b) = true ->
  dialTurn env (WithMaxDialAttempts opts a) dialCtx addr n st
  = dialTurn env (WithMaxDialAttempts opts b) dialCtx addr n st.
Proof.
  intros Ha Hb. unfold dialTurn. cbn [MaxDialAttempts TimeToDial WithMaxDialAttempts].
  rewrite Ha, Hb. reflexivity.
Qed.

Lemma dialTurn_counts opts dialCtx addr n st r evs st' :
  dialTurn env opts dialCtx addr n st = (r, evs, st') ->
  forall n', r = Ret (Continue n') -> n' = wrap (n + 1).
Proof.
  intros H. wp_start H. unfold dialTurn.
  repeat wp_step; intros n' Hr; by simplify_eq.
Qed.

Lemma dial_loop_budget_irrelevant opts dialCtx addr fuel : forall n st,
  0 <= n -> n + Z.of_nat fuel < 2 ^ 63 ->
  loop fuel (dialTurn env (WithMaxDialAttempts opts 0) dialCtx addr) n st
  = loop fuel (dialTurn env (WithMaxDialAttempts opts 1) dialCtx addr) n st.
Proof.
  induction fuel as [| fuel IH]; intros n st Hn Hb; [done |].
  cbn [loop]. unfold bind.
  assert (Hw : wrap (n + 1) = n + 1) by (apply wrap_small; lia).
  rewrite (dialTurn_budget_irrelevant opts dialCtx addr n st 0 1)
    by (rewrite Hw; lia).
  destruct (dialTurn env (WithMaxDialAttempts opts 1) dialCtx addr n st)
    as [[[[n' | b] | what | |] evs] st'] eqn:E; try done.
  pose proof (dialTurn_counts _ _ _ _ _ _ _ _ E n' eq_refl) as ->.
  rewrite Hw. rewrite IH by lia. done.
Qed.

(** C5.  [numDialAttempts] is incremented before it is compared with
    [MaxDialAttempts], so [dial] with [MaxDialAttempts = 0] and [dial] with
    [MaxDialAttempts = 1] end the same way, after the same calls and in the
    same state, for every address, context and environment (as long as the
    64-bit counter has not wrapped: fewer than [2^63] turns of the loop). *)
Theorem dial_zero_attempts_as_one fuel opts ctx addr st :
  Z.of_nat fuel < 2 ^ 63 ->
  dial env fuel (WithMaxDialAttempts opts 0) ctx addr st
  = dial env fuel (WithMaxDialAttempts opts 1) ctx addr st.
Proof.
  intros Hf. unfold dial, bind, defer. cbn [TimeToLive WithMaxDialAttempts].
  destruct (withTimeout ctx (TimeToLive opts) st) as [[[dialCtx | | |] evs] st1]; try done.
  rewrite dial_loop_budget_irrelevant by lia. done.
Qed.






End DialFacts.

Lemma dial_zero_attempts_as_one_witness :
  Z.of_nat 5 < 2 ^ 63
  /\ Supervisor.dial Examples.scripted 5 (WithMaxDialAttempts DefaultClientOptions 0)
       Supervisor.Root "10.0.0.1:80" (Examples.start Examples.quiet)
     = Supervisor.dial Examples.scripted 5 (WithMaxDialAttempts DefaultClientOptions 1)
         Supervisor.Root "10.0.0.1:80" (Examples.start Examples.quiet).
Proof.
  split; [reflexivity |].
  apply (dial_zero_attempts_as_one Examples.scripted 5 DefaultClientOptions
           Supervisor.Root "10.0.0.1:80" (Examples.start Examples.quiet)).
  reflexivity.
Defined.


Section TimerFacts.
Import Supervisor.
Context {S : Type}.
Variable env : Env S.

(** **** Facts about event lists *)

Lemma rearm_app ttl e1 : forall p e2,
  rearm ttl p (e1 ++ e2)
  = match rearm ttl p e1 with
    | Some p' => rearm ttl p' e2
    | None => None
    end.
Proof.
  induction e1 as [| e e1 IH]; intros p e2; cbn; [done |].
  destruct (rearmStep ttl p e); [apply IH | done].
Qed.

Lemma replay_app e1 : forall t e2,
  replay t (e1 ++ e2)
  = match replay t e1 with
    | Some t' => replay t' e2
    | None => None
    end.
Proof.
  induction e1 as [| e e1 IH]; intros t e2; cbn; [done |].
  destruct (timerStep t e); [apply IH | done].
Qed.

Lemma rearm_timerFree ttl evs :
  forallb timerFree evs = true -> rearm ttl Idle evs = Some Idle.
Proof.
  induction evs as [| e evs IH]; cbn; [done |].
  intros [He Hevs]%andb_prop. destruct e; cbn in *; try discriminate; auto.
Qed.

Lemma replay_timerFree t evs :
  forallb timerFree evs = true -> replay t evs = Some t.
Proof.
  induction evs as [| e evs IH]; cbn; [done |].
  intros [He Hevs]%andb_prop. destruct e; cbn in *; try discriminate; auto.
Qed.

Lemma forallb_weaken {A} (f g : A -> bool) (l : list A) :
  (forall x, f x = true -> g x = true) -> forallb f l = true -> forallb g l = true.
Proof.
  intros Hfg. induction l as [| x l IH]; cbn; [done |].
  intros [Hx Hl]%andb_prop. by rewrite (Hfg x Hx), IH.
Qed.

Lemma connecting_timerFree e : connecting e = true -> timerFree e = true.
Proof. by destruct e. Qed.

Lemma exchangeTail_timerFree e : exchangeTail e = true -> timerFree e = true.
Proof. by destruct e. Qed.

(** **** [write] and [dial] *)

Lemma write_spec session rw msg st :
  wp (write env session rw msg) st (fun r evs st' =>
    deadline st' = deadline st
    /\ (exists x tail,
          evs = EvEncrypt session (wire.Data msg) x :: tail
          /\ forallb exchangeTail tail = true)
    /\ (r = Ret None \/ exists err, r = Ret (Some err))
    /\ (forall rw' response,
          In (EvUnmarshal rw' (inr response)) evs ->
          wire.Version_ response <> wire.V1
          \/ wire.is_ack (wire.MsgType response) = false ->
          exists err, r = Ret (Some err))).
Proof.
  unfold write. repeat wp_step. all: cbn.
  all: split; [done |]; split; [by do 2 eexists |]; split; [eauto |].
  all: intros rw' response Hin Hbad; eauto.
  all: in_cases Hin; simplify_eq.
  all: destruct Hbad as [Hbad | Hbad]; [congruence |].
  all: match goal with E : wire.MsgType _ = _ |- _ => rewrite E in Hbad end.
  all: discriminate Hbad.
Qed.

Lemma dialTurn_spec opts dialCtx addr n st :
  wp (dialTurn env opts dialCtx addr n) st (fun r evs st' =>
    deadline st' = deadline st /\ forallb connecting evs = true).
Proof. unfold dialTurn. repeat wp_step; done. Qed.

Lemma dial_spec fuel opts ctx addr st :
  wp (dial env fuel opts ctx addr) st (fun r evs st' =>
    deadline st' = deadline st /\ forallb connecting evs = true).
Proof.
  unfold dial. repeat wp_step. apply wp_defer.
  eapply wp_mono.
  - apply (wp_loop (fun _ _ => True)
             (fun _ s0 _ e s => deadline s = deadline s0 /\ forallb connecting e = true)
             (dialTurn env opts (WithTimeout ctx (TimeToLive opts) (serial st)) addr));
      [done | | done].
    intros n s _. eapply wp_mono; [apply dialTurn_spec |].
    intros r e s' [Hd He]. destruct r as [[|] | | |]; try done.
    split; [done |]. intros r' e' s'' [Hd' He'].
    split; [congruence |]. rewrite forallb_app. by rewrite He, He'.
  - intros r e s [Hd He]. cbn in Hd.
    destruct r; repeat wp_step; cbn; rewrite ?forallb_app, ?He; cbn; done.
Qed.


(** **** [select] and the timer *)

Lemma choose_In cases n c : choose cases n = Some c -> In c cases.
Proof. unfold choose. apply nth_error_In. Qed.

Lemma readyCases_inv r t withChannel c :
  In c (readyCases r t withChannel) ->
  (exists e, c = CaseDone e /\ doneNow r = Some e)
  \/ (c = CaseExpired /\ pending t = true)
  \/ (exists m ok, c = CaseReceive m ok /\ withChannel = true
                   /\ queued r = Some (m, ok)).
Proof.
  unfold readyCases. rewrite !in_app_iff. intros [H | [H | H]].
  - destruct (doneNow r); [| done]. destruct H as [<- | []]. left. eauto.
  - destruct (pending t); [| done]. destruct H as [<- | []]. right; left. done.
  - destruct withChannel; [| done]. destruct (queued r) as [[m ok] |]; [| done].
    destruct H as [<- | []]. right; right. eauto.
Qed.

Lemma tick_spec elapsed (st : St S) :
  wp (tick elapsed) st (fun r e (s : St S) =>
    r = Ret tt /\ world s = world st /\ serial s = serial st
    /\ ticked (deadline st) e (deadline s)).
Proof.
  unfold tick. repeat wp_step; cbn; repeat split; try done.
  - right. apply andb_prop in Heqb as [_ Hr]. unfold fire. rewrite Hr. done.
  - by left.
Qed.

Lemma selectCase_spec ctx withChannel hasDefault st :
  wp (selectCase env ctx withChannel hasDefault) st (fun r e s =>
    exists pre t1,
      ticked (deadline st) pre t1
      /\ ((exists err, r = Ret (Some (CaseDone err))
                       /\ e = pre ++ [EvDone err] /\ deadline s = t1)
          \/ (r = Ret (Some CaseExpired) /\ e = pre ++ [EvExpired]
              /\ pending t1 = true
              /\ deadline s = {| running := running t1; pending := false |})
          \/ (exists m ok, withChannel = true /\ r = Ret (Some (CaseReceive m ok))
                           /\ e = pre ++ [EvReceive m ok] /\ deadline s = t1)
          \/ (hasDefault = true /\ r = Ret None
              /\ e = pre ++ [EvDefault] /\ deadline s = t1)
          \/ (hasDefault = false /\ r = Blocked /\ e = pre /\ deadline s = t1))).
Proof.
  unfold selectCase. repeat wp_step.
  eapply wp_mono; [apply tick_spec |].
  intros r e s (-> & Hw & Hs & Ht). cbn in Ht.
  repeat wp_step.
  all: try (apply choose_In, readyCases_inv in Heqo
              as [(err & -> & _) | [[-> Hp] | (m & ok & -> & -> & _)]];
            unfold took; repeat wp_step).
  all: exists e, (deadline s); (split; [done |]); cbn; rewrite ?app_nil_r.
  - left. eauto.
  - right; left. done.
  - right; right; left. eauto 7.
  - right; right; right; left. done.
  - right; right; right; right. done.
Qed.


(** **** The timer across [run] *)

Lemma kept_app ttl t e1 t1 e2 t2 :
  kept ttl t e1 t1 -> kept ttl t1 e2 t2 -> kept ttl t (e1 ++ e2) t2.
Proof.
  intros (Hr1 & Hp1) (Hr2 & Hp2). split.
  - by rewrite replay_app, Hr1.
  - by rewrite rearm_app, Hp1.
Qed.

Lemma kept_free ttl t e : forallb timerFree e = true -> kept ttl t e t.
Proof. intros He. split; [by apply replay_timerFree | by apply rearm_timerFree]. Qed.

Lemma kept_extend ttl t e t' e' rest t'' :
  kept ttl t e t' -> e' = e ++ rest -> kept ttl t' rest t'' -> kept ttl t e' t''.
Proof. intros H -> H'. by eapply kept_app. Qed.

Lemma kept_nil ttl t : kept ttl t [] t.
Proof. done. Qed.

Lemma ticked_kept ttl t pre t1 :
  inUse t = true -> ticked t pre t1 -> kept ttl t pre t1 /\ inUse t1 = true.
Proof.
  intros Hi [[-> ->] | (-> & Hr & ->)]; [done |].
  destruct t as [[] []]; try discriminate. done.
Qed.

(** Taking a message and re-arming the timer: whether or not the runtime
    fired the timer before the [select] or before the [Stop], the timer ends
    up running with an empty channel. *)
Lemma rearmed ttl t0 pre1 t1 m pre2 t2 :
  inUse t0 = true -> ticked t0 pre1 t1 -> ticked t1 pre2 t2 ->
  (running t2 = false -> pending t2 = true)
  /\ kept ttl t0
       (pre1 ++ [EvReceive m true] ++ pre2 ++ [EvTimerStop (running t2)]
        ++ (if running t2 then [] else [EvTimerDrain]) ++ [EvTimerReset ttl])
       {| running := true; pending := false |}.
Proof.
  intros Hi H1 H2.
  destruct H1 as [[-> ->] | (-> & Hr1 & ->)];
    destruct H2 as [[-> ->] | (-> & Hr2 & ->)];
    destruct t0 as [[] []]; try discriminate;
    unfold kept; cbn; rewrite ?Z.eqb_refl; done.
Qed.

Lemma timerStop_spec (st : St S) :
  wp (timerStop env) st (fun r e s =>
    exists pre t1,
      ticked (deadline st) pre t1
      /\ r = Ret (running t1) /\ e = pre ++ [EvTimerStop (running t1)]
      /\ deadline s = {| running := false; pending := pending t1 |}).
Proof.
  unfold timerStop. repeat wp_step.
  eapply wp_mono; [apply tick_spec |].
  intros r e s (-> & _ & _ & Ht). cbn in Ht.
  repeat wp_step. exists e, (deadline s). by rewrite app_nil_r.
Qed.

Lemma runTurn_kept opts ctx conn session st :
  inUse (deadline st) = true ->
  wp (runTurn env opts ctx conn session tt) st (fun r e s =>
    kept (TimeToLive opts) (deadline st) e (deadline s)
    /\ (r = Ret (Continue tt) \/ (exists m, r = Ret (Return (m, None))) ->
        inUse (deadline s) = true)).
Proof.
  intros Hin. unfold runTurn. apply wp_bind.
  eapply wp_mono; [apply selectCase_spec |].
  intros r e s (pre & t1 & Ht & Hsel). unfold andThen.
  destruct (ticked_kept (TimeToLive opts) _ _ _ Hin Ht) as [Hk Hin1].
  destruct Hsel as [(err & -> & -> & Hd) | [(-> & -> & Hp & Hd)
    | [(m & ok & _ & -> & -> & Hd) | [(? & _) | (_ & -> & -> & Hd)]]]]; try done.
  - wp_step. rewrite app_nil_r. split.
    + eapply kept_app; [exact Hk |]. rewrite Hd. by apply kept_free.
    + intros [[=] | [m [=]]].
  - wp_step. rewrite app_nil_r. split.
    + eapply kept_app; [exact Hk |]. rewrite Hd. unfold kept. cbn. rewrite Hp. done.
    + intros [[=] | [m [=]]].
  - destruct ok; cbn [negb].
    2:{ wp_step. rewrite app_nil_r. split.
        - eapply kept_app; [exact Hk |]. rewrite Hd. done.
        - intros [[=] | [m' [=]]]. }
    wp_step. eapply wp_mono; [apply timerStop_spec |].
    intros r e s' (pre2 & t2 & Ht2 & -> & -> & Hd2). unfold andThen.
    rewrite Hd in Ht2.
    destruct (rearmed (TimeToLive opts) _ _ _ m _ _ Hin Ht Ht2) as [Hpend Hre].
    destruct (ticked_kept (TimeToLive opts) _ _ _ Hin1 Ht2) as [_ Hin2].
    destruct s' as [w' d' n']; cbn in Hd2; subst d'.
    unfold timerDrain, timerReset.
    destruct t2 as [[] []]; try discriminate Hin2; cbn [negb running pending] in *.
    all: repeat wp_step.
    all: try (eapply wp_mono; [apply write_spec |];
              intros r e s' (Hd' & (x & tail & -> & Htail) & [-> | [err ->]] & _);
              cbn in Hd'; repeat wp_step;
              apply (forallb_weaken _ _ _ exchangeTail_timerFree) in Htail).
    all: try match goal with
             | H : pending _ = _ |- _ => cbn in H; discriminate H
             end.
    all: (split; [| try (intros _; cbn; by rewrite ?Hd')]).
    all: (eapply kept_extend;
          [ exact Hre
          | rewrite <- !app_assoc; cbn [app]; reflexivity
          | cbn [deadline]; rewrite ?Hd'; apply kept_free; cbn;
            rewrite ?forallb_app, ?Htail; done ]).
  - split; [by rewrite Hd | intros [[=] | [m [=]]]].
Qed.


Lemma runLoop_kept fuel opts ctx conn session st :
  inUse (deadline st) = true ->
  wp (loop fuel (runTurn env opts ctx conn session) tt) st (fun r e s =>
    kept (TimeToLive opts) (deadline st) e (deadline s)
    /\ ((exists m, r = Ret (m, None)) -> inUse (deadline s) = true)).
Proof.
  intros Hin.
  apply (wp_loop (fun _ s => inUse (deadline s) = true)
           (fun _ s0 r e s =>
              kept (TimeToLive opts) (deadline s0) e (deadline s)
              /\ ((exists m, r = Ret (m, None)) -> inUse (deadline s) = true))
           (runTurn env opts ctx conn session)); [| | done].
  - intros _ s _. split; [done |]. by intros [m [=]].
  - intros [] s Hs. eapply wp_mono; [apply runTurn_kept, Hs |].
    intros r e s' [Hk Hgo].
    destruct r as [[[] | [m err]] | | |];
      try (split; [done | by intros [m' [=]]]).
    + split; [auto |]. intros r' e' s'' [Hk' Hgo']. split; [| done].
      by eapply kept_app.
    + split; [done |]. intros [m' [= -> ->]]. eauto.
Qed.

Lemma closeLogged_spec conn (st : St S) :
  wp (closeLogged env conn) st (fun r e s =>
    r = Ret tt /\ deadline s = deadline st /\ forallb connecting e = true).
Proof. unfold closeLogged. repeat wp_step; done. Qed.

Lemma run_kept fuel opts ctx addr lastMessage st :
  inUse (deadline st) = true ->
  wp (run env fuel opts ctx addr lastMessage) st (fun r e s =>
    kept (TimeToLive opts) (deadline st) e (deadline s)
    /\ ((exists m, r = Ret (m, None)) -> inUse (deadline s) = true)).
Proof.
  intros Hin. unfold run. apply wp_bind.
  eapply wp_mono; [apply dial_spec |].
  intros r e s [Hd He]. unfold andThen.
  apply (forallb_weaken _ _ _ connecting_timerFree) in He.
  pose proof (kept_free (TimeToLive opts) (deadline st) e He) as Hke.
  destruct r as [[err | [conn session]] | | |]; try (by rewrite Hd).
  - wp_step. rewrite app_nil_r, Hd. split; [done |]. by intros [m [=]].
  - rewrite <- Hd in Hin. rewrite <- Hd in Hke at 2.
    apply wp_defer.
    assert (Hbody : wp
              match lastMessage with
              | Some m =>
                  bind (logf Info "resending last message sent" None) (fun _ =>
                  bind (write env session conn m) (fun w =>
                  match w with
                  | Some err =>
                      bind (logf Error_ "writing: %v" (Some err)) (fun _ =>
                      ret (lastMessage, None))
                  | None => loop fuel (runTurn env opts ctx conn session) tt
                  end))
              | None => loop fuel (runTurn env opts ctx conn session) tt
              end s
              (fun r e' s' =>
                 kept (TimeToLive opts) (deadline s) e' (deadline s')
                 /\ ((exists m, r = Ret (m, None)) -> inUse (deadline s') = true))).
    { destruct lastMessage as [m |]; [| by apply runLoop_kept].
      repeat wp_step.
      eapply wp_mono; [apply write_spec |].
      intros r e' s' (Hd' & (x & tail & -> & Htail) & Hr & _). cbn in Hd'.
      apply (forallb_weaken _ _ _ exchangeTail_timerFree) in Htail.
      destruct Hr as [-> | [err ->]]; unfold andThen.
      - eapply wp_mono; [apply runLoop_kept; by rewrite Hd' |].
        intros r e'' s'' [Hk Hgo]. split; [| done].
        change (kept (TimeToLive opts) (deadline s)
                  ((EvLog Info "resending last message sent" None
                    :: EvEncrypt session (wire.Data m) x :: tail) ++ e'')
                  (deadline s'')).
        apply (kept_app _ _ _ (deadline s')); [| exact Hk].
        rewrite Hd'. apply kept_free. by cbn.
      - repeat wp_step. split; [| intros _; by rewrite Hd'].
        rewrite Hd'. apply kept_free. cbn. rewrite forallb_app, Htail. done. }
    eapply wp_mono; [exact Hbody |].
    intros r e' s' [Hk Hgo].
    destruct r as [[m err] | what | |].
    + eapply wp_mono; [apply closeLogged_spec |].
      intros r e'' s'' (-> & Hd'' & He'').
      apply (forallb_weaken _ _ _ connecting_timerFree) in He''.
      rewrite Hd''. split; [| done].
      rewrite app_assoc. eapply kept_app; [eapply kept_app; [exact Hke | exact Hk] |].
      by apply kept_free.
    + eapply wp_mono; [apply closeLogged_spec |].
      intros r e'' s'' (-> & Hd'' & He'').
      apply (forallb_weaken _ _ _ connecting_timerFree) in He''.
      rewrite Hd''. split; [| by intros [m [=]]].
      rewrite app_assoc. eapply kept_app; [eapply kept_app; [exact Hke | exact Hk] |].
      by apply kept_free.
    + split; [| by intros [m [=]]]. by eapply kept_app.
    + split; [| by intros [m [=]]]. by eapply kept_app.
Qed.


Lemma keepAliveTurn_kept fuel opts ctx addr last st :
  inUse (deadline st) = true ->
  wp (keepAliveTurn env fuel opts ctx addr last) st (fun r e s =>
    kept (TimeToLive opts) (deadline st) e (deadline s)
    /\ (forall l, r = Ret (Continue l) -> inUse (deadline s) = true)).
Proof.
  intros Hin. unfold keepAliveTurn. apply wp_bind.
  eapply wp_mono; [apply selectCase_spec |].
  intros r e s (pre & t1 & Ht & Hsel). unfold andThen.
  destruct (ticked_kept (TimeToLive opts) _ _ _ Hin Ht) as [Hk Hin1].
  destruct Hsel as [(err & -> & -> & Hd) | [(-> & -> & Hp & Hd)
    | [(m & ok & ? & _) | [(_ & -> & -> & Hd) | (? & _)]]]]; try done.
  - wp_step. rewrite app_nil_r. split; [| done].
    eapply kept_app; [exact Hk |]. rewrite Hd. by apply kept_free.
  - repeat wp_step. split; [| done]. rewrite <- app_assoc.
    eapply kept_app; [exact Hk |]. rewrite Hd. unfold kept. cbn. by rewrite Hp.
  - rewrite <- Hd in Hin1, Hk. wp_step.
    eapply wp_mono; [apply run_kept, Hin1 |].
    intros r e s' [Hk' Hgo]. unfold andThen.
    assert (Hall : kept (TimeToLive opts) (deadline st)
                     ((pre ++ [EvDefault]) ++ e) (deadline s')).
    { eapply kept_app; [| exact Hk'].
      eapply kept_app; [exact Hk |]. by apply kept_free. }
    destruct r as [[m [err |]] | | |]; try done.
    + repeat wp_step; (split; [| done]); rewrite app_assoc;
        (eapply kept_app; [exact Hall |]); by apply kept_free.
    + wp_step. rewrite app_nil_r. split; [done |]. intros _ _. eauto.
Qed.

Lemma replay_expiry_fresh q : forall p t t',
  pending t = false ->
  replay t (p ++ EvExpired :: q) = Some t' -> In EvTimerFire p.
Proof.
  induction p as [| e p IH]; intros t t' Hp; cbn.
  - by rewrite Hp.
  - destruct (timerStep t e) as [t2 |] eqn:He; [| done].
    intros Hr. destruct (decide (e = EvTimerFire)) as [-> | Hne]; [by left |].
    right. apply (IH t2 t'); [| done].
    destruct e; cbn in He; try (by simplify_eq);
      repeat match type of He with
             | (if ?b then _ else _) = _ => destruct b eqn:?
             end; simplify_eq; try done.
Qed.


Lemma replay_no_stale_expiry t evs t' pre d p q :
  replay t evs = Some t' ->
  evs = pre ++ EvTimerReset d :: p ++ EvExpired :: q ->
  In EvTimerFire p.
Proof.
  intros Hr ->. rewrite replay_app in Hr.
  destruct (replay t pre) as [t1 |]; [| done]. cbn in Hr.
  destruct (running t1 || pending t1); [done |].
  eapply replay_expiry_fresh; [| exact Hr]. done.
Qed.

Lemma keepAliveLoop_kept fuel fuel' opts ctx addr last st :
  inUse (deadline st) = true ->
  wp (loop fuel (keepAliveTurn env fuel' opts ctx addr) last) st (fun r e s =>
    kept (TimeToLive opts) (deadline st) e (deadline s)).
Proof.
  intros Hin.
  apply (wp_loop (fun _ s => inUse (deadline s) = true)
           (fun _ s0 _ e s => kept (TimeToLive opts) (deadline s0) e (deadline s))
           (keepAliveTurn env fuel' opts ctx addr)); [done | | done].
  intros l s Hs. eapply wp_mono; [apply keepAliveTurn_kept, Hs |].
  intros r e s' [Hk Hgo]. destruct r as [[l' | []] | | |]; try done.
  split; [eauto |]. intros r' e' s'' Hk'. by eapply kept_app.
Qed.

(** C9.  In everything a supervisor does, from the creation of its timer
    to its retirement and across all its runs: each message taken off the
    queue is followed at once by [Stop] on the timer, by a receive from the
    timer's channel when [Stop] reports that the timer had already fired, and
    then by [Reset] to [TimeToLive]; the timer is stopped, drained and reset
    nowhere else ([rearm]).  The events are those of a real timer ([replay]):
    the drain always finds a value, every [Reset] finds the timer stopped
    with its channel empty, and an expiry observed after a [Reset] was fired
    after that [Reset]. *)
Theorem runAndKeepAlive_rearms fuel opts ctx addr st r evs st' :
  runAndKeepAlive env fuel opts ctx addr st = (r, evs, st') ->
  rearm (TimeToLive opts) Idle evs = Some Idle
  /\ replay (deadline st) evs = Some (deadline st')
  /\ (forall pre d p q,
        evs = pre ++ EvTimerReset d :: p ++ EvExpired :: q -> In EvTimerFire p).
Proof.
  intros H.
  enough (Hk : kept (TimeToLive opts) (deadline st) evs (deadline st')).
  { destruct Hk as [Hr Hp]. repeat split; try done.
    intros pre d p q. by apply replay_no_stale_expiry with (1 := Hr). }
  apply (wp_intro _ _ (fun _ e s => kept (TimeToLive opts) (deadline st) e (deadline s))
           _ _ _) with (2 := H).
  unfold runAndKeepAlive. apply wp_defer.
  unfold newTimer. repeat wp_step.
  eapply wp_mono; [apply keepAliveLoop_kept; done |].
  intros r0 e s Hk. cbn in Hk.
  assert (Hall : kept (TimeToLive opts) (deadline st)
                   ([EvNewTimer (TimeToLive opts)] ++ [] ++ e) (deadline s)).
  { apply (kept_app _ _ _ {| running := true; pending := false |}); done. }
  destruct r0; repeat wp_step; try done.
  all: (eapply kept_app; [| by apply kept_free]);
    cbn [app] in *; exact Hall.
Qed.

End TimerFacts.

Lemma runAndKeepAlive_rearms_witness :
  let out := Supervisor.runAndKeepAlive Examples.scripted 3 DefaultClientOptions
               Supervisor.Root "10.0.0.1:80" (Examples.start Examples.oneMessage) in
  In Supervisor.EvTimerDrain out.1.2
  /\ Supervisor.rearm (TimeToLive DefaultClientOptions) Supervisor.Idle out.1.2
     = Some Supervisor.Idle.
Proof.
  cbv zeta. split.
  - vm_compute. do 12 right. left. reflexivity.
  - eapply (runAndKeepAlive_rearms Examples.scripted 3 DefaultClientOptions
              Supervisor.Root "10.0.0.1:80" (Examples.start Examples.oneMessage)).
    apply triple_eta.
Defined.

Section ResendFacts.
Import Supervisor.
Context {S : Type}.
Variable env : Env S.

Lemma settled_connecting l l' :
  forallb connecting l = true -> settled (l ++ l') = settled l'.
Proof.
  induction l as [| e l IH]; cbn; [done |].
  intros [He Hl]%andb_prop. destruct e; cbn in *; try discriminate; auto.
Qed.

Lemma settled_exchangeTail l l' :
  forallb exchangeTail l = true -> settled (l ++ l') = settled l'.
Proof.
  induction l as [| e l IH]; cbn; [done |].
  intros [He Hl]%andb_prop. destruct e; cbn in *; try discriminate; auto.
Qed.

Lemma settled_ticked t pre t1 l :
  ticked t pre t1 -> settled (pre ++ l) = settled l.
Proof. by intros [[-> _] | (-> & _)]. Qed.

Lemma runTurn_settled opts ctx conn session st :
  wp (runTurn env opts ctx conn session tt) st (fun r e s =>
    (r <> Ret (Continue tt) /\ forall l, settled (e ++ l) = settled l)
    \/ forall l, settled (e ++ l) = true).
Proof.
  unfold runTurn. apply wp_bind.
  eapply wp_mono; [apply selectCase_spec |].
  intros r e s (pre & t1 & Ht & Hsel). unfold andThen.
  destruct Hsel as [(err & -> & -> & Hd) | [(-> & -> & Hp & Hd)
    | [(m & ok & _ & -> & -> & Hd) | [(? & _) | (_ & -> & -> & Hd)]]]]; try done.
  - wp_step. left. split; [done |]. intros l.
    rewrite <- !app_assoc. by rewrite (settled_ticked _ _ _ _ Ht).
  - wp_step. left. split; [done |]. intros l.
    rewrite <- !app_assoc. by rewrite (settled_ticked _ _ _ _ Ht).
  - eapply wp_mono with (Q := fun _ _ _ => True); [done |].
    intros r e s' _. right. intros l.
    rewrite <- !app_assoc. by rewrite (settled_ticked _ _ _ _ Ht).
  - left. split; [done |]. intros l. by rewrite (settled_ticked _ _ _ _ Ht).
Qed.


Lemma runLoop_settled fuel opts ctx conn session st :
  wp (loop fuel (runTurn env opts ctx conn session) tt) st (fun r e s =>
    forall l, settled l = true -> settled (e ++ l) = true).
Proof.
  apply (wp_loop (fun _ _ => True)
           (fun _ _ _ e _ => forall l, settled l = true -> settled (e ++ l) = true)
           (runTurn env opts ctx conn session)); [done | | done].
  intros [] s _. eapply wp_mono; [apply runTurn_settled |].
  intros r e s' Hr.
  assert (Hany : forall l, settled l = true -> settled (e ++ l) = true).
  { intros l Hl. destruct Hr as [[_ Hr] | Hr]; by rewrite Hr. }
  destruct r as [[[] | b] | | |]; try done.
  split; [done |]. intros r' e' s'' He' l Hl.
  destruct Hr as [[Hne _] | Hr]; [done |]. by rewrite <- app_assoc.
Qed.

Lemma settled_closing l : forallb connecting l = true -> settled l = true.
Proof.
  intros H. rewrite <- (app_nil_r l). by rewrite settled_connecting.
Qed.

Lemma no_receive_connecting l msg ok :
  forallb connecting l = true -> ~ In (EvReceive msg ok) l.
Proof.
  intros H Hin. rewrite forallb_forall in H. by apply H in Hin.
Qed.

(** C6.  When [run] is entered with a message to resend and the dial
    succeeds, what follows the events of the dial is the "resending" log
    line and then one framed exchange of that message on the new session:
    its [Encrypt] call and the rest of that exchange.  In what comes after
    ([rest]), no exchange is opened before a message has been taken off the
    queue.  If the exchange fails, [run] returns the same message and a nil
    error, and nothing is taken off the queue. *)
Theorem run_resends_first fuel opts ctx addr m st conn session evsd std r evs st' :
  dial env fuel opts ctx addr st = (Ret (inr (conn, session)), evsd, std) ->
  run env fuel opts ctx addr (Some m) st = (r, evs, st') ->
  exists w x tail stw rest,
    write env session conn m std
    = (w, EvEncrypt session (wire.Data m) x :: tail, stw)
    /\ evs = evsd
             ++ EvLog Info "resending last message sent" None
             :: EvEncrypt session (wire.Data m) x :: tail ++ rest
    /\ forallb connecting evsd = true
    /\ forallb exchangeTail tail = true
    /\ settled rest = true
    /\ (forall err, w = Ret (Some err) ->
        r = Ret (Some m, None) /\ forall msg ok, ~ In (EvReceive msg ok) rest).
Proof.
  intros Hdial Hrun.
  assert (Hd : forallb connecting evsd = true).
  { pose proof (dial_spec env fuel opts ctx addr st) as H.
    apply (wp_intro _ _ _ _ _ _ H Hdial). }
  unfold run, bind at 1 in Hrun. rewrite Hdial in Hrun.
  match type of Hrun with
  | context [defer ?c ?b std] => destruct (defer c b std) as [[r1 e1] s1] eqn:Hdefer
  end.
  injection Hrun as <- <- <-.
  wp_start Hdefer.
  apply wp_defer. repeat wp_step.
  eapply wp_mono; [apply wp_conj; [apply wp_run | apply write_spec] |].
  intros w evw stw (Hw & _ & (x & tail & -> & Htail) & Hr & _).
  cbn in Hw. unfold andThen.
  destruct Hr as [-> | [err ->]].
  - eapply wp_mono; [apply runLoop_settled |].
    intros r e s Hset.
    cbn beta in Hset.
    destruct r as [a | what | |];
      [ eapply wp_mono; [apply closeLogged_spec |];
        intros r' e' s' (-> & _ & He');
        exists (Ret None), x, tail, stw, (e ++ e')
      | eapply wp_mono; [apply closeLogged_spec |];
        intros r' e' s' (-> & _ & He');
        exists (Ret None), x, tail, stw, (e ++ e')
      | exists (Ret None), x, tail, stw, e
      | exists (Ret None), x, tail, stw, e ].
    all: (split; [exact Hw |]); (split; [by rewrite <- ?app_assoc |]).
    all: repeat split; try done.
    1,2: by apply Hset, settled_closing.
    all: rewrite <- (app_nil_r e); by apply Hset.
  - repeat wp_step.
    all: eexists (Ret (Some err)), x, tail, stw, _.
    all: (split; [exact Hw |]).
    all: (split; [rewrite <- ?app_assoc; cbn [app]; reflexivity |]).
    all: repeat split; try done.
    all: intros msg ok Hin; in_cases Hin.
Qed.


(** **** Errors of the exchange are consumed by [run] *)















End ResendFacts.

Lemma run_resends_first_witness :
  let script := Examples.mkScript [inr 1%nat] [] [inr Examples.fromTheFuture] [] [] [] [] in
  let connected := Supervisor.dial Examples.scripted 4 DefaultClientOptions
                     Supervisor.Root "10.0.0.1:80" (Examples.start script) in
  let out := Supervisor.run Examples.scripted 4 DefaultClientOptions
               Supervisor.Root "10.0.0.1:80" (Some Examples.ping)
               (Examples.start script) in
  exists w x tail stw rest,
    Supervisor.write Examples.scripted 0%nat 1%nat Examples.ping connected.2
    = (w, Supervisor.EvEncrypt 0%nat (wire.Data Examples.ping) x :: tail, stw)
    /\ out.1.2
       = connected.1.2
         ++ Supervisor.EvLog Supervisor.Info "resending last message sent" None
         :: Supervisor.EvEncrypt 0%nat (wire.Data Examples.ping) x :: tail ++ rest
    /\ forallb Supervisor.connecting connected.1.2 = true
    /\ forallb Supervisor.exchangeTail tail = true
    /\ Supervisor.settled rest = true
    /\ (forall err, w = Ret (Some err) ->
        out.1.1 = Ret (Some Examples.ping, None)
        /\ forall msg ok, ~ In (Supervisor.EvReceive msg ok) rest).
Proof.
  intros script connected out.
  apply (run_resends_first Examples.scripted 4 DefaultClientOptions
           Supervisor.Root "10.0.0.1:80" Examples.ping (Examples.start script)
           1%nat 0%nat connected.1.2 connected.2 out.1.1 out.1.2 out.2).
  - vm_compute. reflexivity.
  - apply triple_eta.
Defined.



(** ** More about the pool *)

Section PoolLaws.
Import Pool.

Lemma Close_present client addr c :
  connsByAddr client !! addr = Some c ->
  Close client addr
  = {| opts := opts client;
       connsByAddr := delete addr (connsByAddr client);
       chans := chans client;
       cancelled := {[cancel c]} ∪ cancelled client;
       supervisors := supervisors client |}.
Proof. intros H. unfold Close. by rewrite H. Qed.

Lemma Close_absent client addr :
  connsByAddr client !! addr = None -> Close client addr = client.
Proof. intros H. unfold Close. by rewrite H. Qed.

Lemma Close_conns client addr :
  connsByAddr (Close client addr) = delete addr (connsByAddr client).
Proof.
  destruct (connsByAddr client !! addr) as [c |] eqn:H.
  - by rewrite (Close_present _ _ _ H).
  - rewrite (Close_absent _ _ H). by rewrite delete_id.
Qed.

Lemma Client_eq (a b : Client) :
  opts a = opts b -> connsByAddr a = connsByAddr b -> chans a = chans b ->
  cancelled a = cancelled b -> supervisors a = supervisors b -> a = b.
Proof. destruct a, b; cbn; intros; by subst. Qed.

Lemma CloseAll_cancelled client x :
  x ∈ cancelled (CloseAll client)
  <-> x ∈ cancelled client
      \/ exists addr c, connsByAddr client !! addr = Some c /\ cancel c = x.
Proof.
  unfold CloseAll; cbn.
  apply (map_fold_weak_ind
           (fun acc (m : gmap string conn) =>
              x ∈ acc <-> x ∈ cancelled client
                          \/ exists addr c, m !! addr = Some c /\ cancel c = x)).
  - split; [by left |]. intros [H | (addr & c & H & _)]; [done |].
    by rewrite lookup_empty in H.
  - intros addr c m acc Hnone IH. rewrite elem_of_union, elem_of_singleton, IH.
    split.
    + intros [-> | [H | (a & c' & H & Hx)]].
      * right. exists addr, c. by rewrite lookup_insert_eq.
      * by left.
      * right. exists a, c'. split; [| done].
        rewrite lookup_insert_ne; [done |]. intros ->. by rewrite Hnone in H.
    + intros [H | (a & c' & H & Hx)]; [by right; left |].
      destruct (decide (a = addr)) as [-> | Hne].
      * rewrite lookup_insert_eq in H. injection H as <-. by left.
      * rewrite lookup_insert_ne in H by done. right; right. by exists a, c'.
Qed.

Lemma Close_cancelled client addr x :
  x ∈ cancelled (Close client addr)
  <-> x ∈ cancelled client
      \/ exists c, connsByAddr client !! addr = Some c /\ cancel c = x.
Proof.
  destruct (connsByAddr client !! addr) as [c |] eqn:H.
  - rewrite (Close_present _ _ _ H); cbn.
    rewrite elem_of_union, elem_of_singleton. split.
    + intros [-> | Hx]; [right; by exists c | by left].
    + intros [Hx | (c' & [= <-] & Hx)]; [by right | by left].
  - rewrite (Close_absent _ _ H). split; [by left |].
    intros [Hx | (c' & [=] & _)]. done.
Qed.

Lemma Close_each l : forall client,
  let client' := fold_left Close l client in
  opts client' = opts client
  /\ chans client' = chans client
  /\ supervisors client' = supervisors client
  /\ (forall k, connsByAddr client' !! k
                = if decide (k ∈ l) then None else connsByAddr client !! k)
  /\ (forall x, x ∈ cancelled client'
                <-> x ∈ cancelled client
                    \/ exists addr c, addr ∈ l /\ connsByAddr client !! addr = Some c
                                      /\ cancel c = x).
Proof.
  induction l as [| a l IH]; intros client; cbn.
  - repeat split; try done.
    + by left.
    + intros [H | (addr & c & H & _)]; [done |]. by apply elem_of_nil in H.
  - destruct (IH (Close client a)) as (Ho & Hc & Hs & Hm & Hx). cbn in *.
    assert (Hrest : opts (Close client a) = opts client
                    /\ chans (Close client a) = chans client
                    /\ supervisors (Close client a) = supervisors client).
    { unfold Close. by destruct (connsByAddr client !! a). }
    destruct Hrest as (Ho' & Hc' & Hs').
    rewrite Ho, Hc, Hs. repeat split; try done.
    + intros k. rewrite Hm, Close_conns.
      destruct (decide (k ∈ a :: l)) as [Hin | Hin];
        destruct (decide (k ∈ l)) as [Hin' | Hin']; try done.
      * apply elem_of_cons in Hin as [-> | Hin]; [| done].
        apply lookup_delete_eq.
      * exfalso. apply Hin. by apply list_elem_of_further.
      * apply lookup_delete_ne. intros ->. apply Hin, list_elem_of_here.
    + rewrite Hx, Close_cancelled.
      intros [[H | (c & H & Hc0)] | (addr & c & Hin & H & Hc0)].
      * by left.
      * right. exists a, c. split; [apply list_elem_of_here | done].
      * right. exists addr, c. split; [by apply list_elem_of_further |].
        split; [| done]. rewrite Close_conns in H.
        by apply lookup_delete_Some in H as [_ H].
    + rewrite Hx, Close_cancelled.
      intros [H | (addr & c & Hin & H & Hc0)]; [by left; left |].
      destruct (decide (addr = a)) as [-> | Hne].
      * left; right. by exists c.
      * right. exists addr, c. apply elem_of_cons in Hin as [-> | Hin]; [done |].
        split; [done |]. split; [| done]. rewrite Close_conns.
        by rewrite lookup_delete_ne.
Qed.

(** X2.  [CloseAll] does what closing the addresses one by one does: for
    any list that names every address held (in any order, with repetitions,
    with addresses that are not held), closing the addresses of the list in
    turn leaves the client exactly as [CloseAll] leaves it. *)
Theorem CloseAll_is_Close_of_each client l :
  (forall addr, is_Some (connsByAddr client !! addr) -> addr ∈ l) ->
  fold_left Close l client = CloseAll client.
Proof.
  intros Hall. destruct (Close_each l client) as (Ho & Hc & Hs & Hm & Hx).
  cbn in *. apply Client_eq; try done.
  - apply map_eq. intros k. rewrite Hm. cbn. rewrite lookup_empty.
    destruct (decide (k ∈ l)) as [| Hn]; [done |].
    destruct (connsByAddr client !! k) eqn:Hk; [| done].
    exfalso. apply Hn, Hall. by rewrite Hk.
  - apply set_eq. intros x. rewrite Hx, CloseAll_cancelled.
    split; intros [H | (addr & c & H)]; [by left | | by left |].
    + right. exists addr, c. tauto.
    + right. exists addr, c. destruct H as [H Hc0]. split; [| done].
      apply Hall. by rewrite H.
Qed.


Lemma Send_unfold client env addr msg :
  (exists c, connsByAddr client !! addr = Some c
             /\ Send client env addr msg = race client c msg env)
  \/ (connsByAddr client !! addr = None
      /\ Send client env addr msg
         = (Ret (Some (ErrorNew "max outbound connections exceeded")), client))
  \/ (connsByAddr client !! addr = None
      /\ exists what, Send client env addr msg = (Panic what, client))
  \/ (connsByAddr client !! addr = None
      /\ len client < MaxConnections (opts client)
      /\ let c := {| ch := length (supervisors client);
                     cancel := length (supervisors client) |} in
         Send client env addr msg
         = race {| opts := opts client;
                   connsByAddr := <[addr := c]> (connsByAddr client);
                   chans := <[ch c := []]> (chans client);
                   cancelled := cancelled client;
                   supervisors := supervisors client ++ [(addr, c)] |} c msg env).
Proof.
  destruct (connsByAddr client !! addr) as [c |] eqn:H.
  - left. exists c. split; [done |]. unfold Send. by rewrite (acquire_present _ _ _ H).
  - right. destruct (Z_lt_le_dec (len client) (MaxConnections (opts client))) as [Hlt | Hge].
    + destruct (Z_lt_le_dec (MaxCapacity (opts client)) 0) as [Hneg | Hcap].
      * right; left. split; [done |]. exists "makechan: size out of range".
        unfold Send, acquire, runAndKeepAlive. rewrite H.
        destruct (len client >=? MaxConnections (opts client)) eqn:E; [lia |].
        destruct (MaxCapacity (opts client) <? 0) eqn:E'; [done | lia].
      * right; right. split; [done |]. split; [done |]. cbn.
        unfold Send. by rewrite (acquire_fresh _ _ H Hlt Hcap).
    + left. split; [done |]. unfold Send. by rewrite (acquire_full _ _ H Hge).
Qed.

Lemma race_chans client c msg env :
  (fst (race client c msg env) = Ret None
   /\ snd (race client c msg env) = enqueue client c msg)
  \/ (fst (race client c msg env) <> Ret None
      /\ snd (race client c msg env) = client).
Proof.
  unfold race. destruct (ctxErr env), (canSend client c env); cbn;
    try destruct (pickSend env); cbn; auto; right; split; done.
Qed.


(** X3.  [Send] changes nothing but what belongs to its address.  It
    cancels no context and keeps the options; the entries of the other
    addresses stay as they were; an entry already held for the address is
    reused, and then no supervisor is started.  When it returns nil the
    message is the last of the queue of the address, behind what was queued
    before (behind nothing for a supervisor just started); the other queues
    are never touched; and if the address is not held afterwards, the client
    is as it was. *)
Theorem Send_touches_one_address client env addr msg :
  let out := Send client env addr msg in
  cancelled out.2 = cancelled client
  /\ opts out.2 = opts client
  /\ (forall other, other <> addr ->
        connsByAddr out.2 !! other = connsByAddr client !! other)
  /\ (forall c, connsByAddr client !! addr = Some c ->
        connsByAddr out.2 !! addr = Some c
        /\ supervisors out.2 = supervisors client)
  /\ (out.1 = Ret None ->
        exists c, connsByAddr out.2 !! addr = Some c
                  /\ chans out.2 !! ch c
                     = Some ((if connsByAddr client !! addr is Some _
                              then buffered client c else []) ++ [msg]))
  /\ (forall c, connsByAddr out.2 !! addr = Some c ->
        forall k, k <> ch c -> chans out.2 !! k = chans client !! k)
  /\ (connsByAddr out.2 !! addr = None -> out.2 = client).
Proof.
  cbn zeta.
  destruct (Send_unfold client env addr msg)
    as [(c & Hc & ->) | [(Hc & ->) | [(Hc & what & ->) | (Hc & Hlt & Hs)]]].
  - destruct (race_conns client c msg env) as (Hm & Hsup & Hcan & Ho).
    rewrite Hcan, Ho, Hm, Hsup, Hc.
    destruct (race_chans client c msg env) as [[Hr ->] | [Hr ->]]; split_and!;
      try done.
    + intros _. exists c. split; [done |]. cbn. apply lookup_insert_eq.
    + intros c' [= <-] k Hk. cbn. by rewrite lookup_insert_ne.
  - cbn. rewrite Hc. by split_and!.
  - cbn. rewrite Hc. by split_and!.
  - cbn zeta in Hs. rewrite Hs. clear Hs.
    set (c := {| ch := length (supervisors client);
                 cancel := length (supervisors client) |}).
    set (started := mkClient _ _ _ _ _).
    destruct (race_conns started c msg env) as (Hm & Hsup & Hcan & Ho).
    rewrite Hcan, Ho, Hm. rewrite Hc.
    assert (Hat : connsByAddr started !! addr = Some c) by apply lookup_insert_eq.
    assert (Hother : forall other, other <> addr ->
              connsByAddr started !! other = connsByAddr client !! other).
    { intros other Hne. cbn. by rewrite lookup_insert_ne. }
    rewrite Hat.
    destruct (race_chans started c msg env) as [[Hr ->] | [Hr ->]]; split_and!;
      try done.
    + intros _. exists c. split; [done |]. cbn.
      rewrite lookup_insert_eq. unfold buffered. cbn.
      by rewrite lookup_insert_eq.
    + intros c' [= <-] k Hk. cbn. by rewrite !lookup_insert_ne.
    + intros c' [= <-] k Hk. cbn. by rewrite !lookup_insert_ne.
Qed.


Lemma tidy_distinct client a b c c' :
  tidy client ->
  connsByAddr client !! a = Some c -> connsByAddr client !! b = Some c' ->
  a <> b -> ch c <> ch c' /\ cancel c <> cancel c'.
Proof.
  intros (Hin & Hid & _) Ha Hb Hne.
  destruct (Hin _ _ Ha) as [Hsa _]. destruct (Hin _ _ Hb) as [Hsb _].
  apply list_elem_of_lookup in Hsa as [i Hi]. apply list_elem_of_lookup in Hsb as [j Hj].
  pose proof (Hid _ _ _ Hi) as ->. pose proof (Hid _ _ _ Hj) as ->. cbn.
  assert (i <> j); [| done]. intros ->. rewrite Hi in Hj. by injection Hj.
Qed.

Lemma tidy_chans client h :
  tidy client -> tidy (with_chans client h).
Proof. done. Qed.

Lemma tidy_race client c msg env : tidy client -> tidy (snd (race client c msg env)).
Proof.
  intros H. destruct (race_chans client c msg env) as [[_ ->] | [_ ->]]; [| done].
  by apply tidy_chans.
Qed.

Lemma tidy_acquire client addr : tidy client -> tidy (snd (acquire client addr)).
Proof.
  intros Ht. destruct (connsByAddr client !! addr) as [c |] eqn:H.
  { by rewrite (acquire_present _ _ _ H). }
  unfold acquire, runAndKeepAlive. rewrite H.
  destruct (len client >=? MaxConnections (opts client)); [done |].
  destruct (MaxCapacity (opts client) <? 0); [done |]. cbn.
  destruct Ht as (Hin & Hid & Hcan). split_and!; cbn.
  - intros a c Ha. destruct (decide (a = addr)) as [-> | Hne].
    + rewrite lookup_insert_eq in Ha. injection Ha as <-. split.
      * apply elem_of_app. right. apply list_elem_of_here.
      * cbn. intros Hx. apply Hcan in Hx. lia.
    + rewrite lookup_insert_ne in Ha by done. destruct (Hin _ _ Ha) as [Hs Hc].
      split; [| done]. apply elem_of_app. by left.
  - intros i a c Hi. apply lookup_app_Some in Hi as [Hi | [Hge Hi]].
    + by eapply Hid.
    + destruct (i - length (supervisors client))%nat as [| n] eqn:E; [| done].
      cbn in Hi. injection Hi as <- <-. f_equal; lia.
  - intros x Hx. apply Hcan in Hx. rewrite length_app. cbn. lia.
Qed.

Lemma tidy_Close client addr : tidy client -> tidy (Close client addr).
Proof.
  intros Ht. destruct (connsByAddr client !! addr) as [c |] eqn:H.
  2: { by rewrite (Close_absent _ _ H). }
  rewrite (Close_present _ _ _ H).
  pose proof Ht as (Hin & Hid & Hcan). split_and!; cbn.
  - intros a c' Ha. apply lookup_delete_Some in Ha as [Hne Ha].
    destruct (Hin _ _ Ha) as [Hs Hc]. split; [done |].
    rewrite elem_of_union, elem_of_singleton. intros [Heq | Hx]; [| done].
    by destruct (tidy_distinct _ _ _ _ _ Ht Ha H).
  - done.
  - intros x. rewrite elem_of_union, elem_of_singleton. intros [-> | Hx]; [| by apply Hcan].
    destruct (Hin _ _ H) as [Hs _]. apply list_elem_of_lookup in Hs as [i Hi].
    pose proof (Hid _ _ _ Hi) as ->. cbn. by eapply lookup_lt_Some.
Qed.

Lemma tidy_CloseAll client : tidy client -> tidy (CloseAll client).
Proof.
  intros (Hin & Hid & Hcan). split_and!.
  - intros a c Ha. cbn in Ha. by rewrite lookup_empty in Ha.
  - done.
  - intros x Hx. apply CloseAll_cancelled in Hx as [Hx | (a & c & Ha & <-)].
    + by apply Hcan.
    + destruct (Hin _ _ Ha) as [Hs _]. apply list_elem_of_lookup in Hs as [i Hi].
      pose proof (Hid _ _ _ Hi) as ->. cbn. by eapply lookup_lt_Some.
Qed.

Lemma tidy_step client op : tidy client -> tidy (step client op).
Proof.
  intros Ht. destruct op as [env addr msg | addr | env c msg | addr | | chan]; cbn.
  - destruct (Send_cases client env addr msg)
      as [(err & _ & ->) | [(c & held & Ha & ->) | (what & _ & ->)]]; try done.
    apply tidy_race. pose proof (tidy_acquire client addr Ht) as Hh.
    by rewrite Ha in Hh.
  - by apply tidy_acquire.
  - by apply tidy_race.
  - by apply tidy_Close.
  - by apply tidy_CloseAll.
  - destruct (chans client !! chan) as [[| m rest] |]; try done.
Qed.

Lemma tidy_exec ops : forall client, tidy client -> tidy (exec ops client).
Proof.
  induction ops as [| op ops IH]; intros client Ht; [done |].
  cbn. apply IH. by apply tidy_step.
Qed.

Lemma tidy_NewClient o : tidy (NewClient o).
Proof.
  split_and!; cbn.
  - intros addr c H. by rewrite lookup_empty in H.
  - intros i addr c H. done.
  - intros x H. by apply elem_of_empty in H.
Qed.

(** X4.  Whatever goroutines do with the methods of a new client, an entry
    of the map is always the [conn] of a supervisor started for that address
    whose context has not been cancelled, and two addresses never share a
    channel or a context. *)
Theorem pool_entries_live_and_distinct o ops :
  let client := exec ops (NewClient o) in
  (forall addr c, connsByAddr client !! addr = Some c ->
     (cancel c ∉ cancelled client) /\ (addr, c) ∈ supervisors client)
  /\ (forall a b c c',
        connsByAddr client !! a = Some c -> connsByAddr client !! b = Some c' ->
        a <> b -> ch c <> ch c' /\ cancel c <> cancel c').
Proof.
  cbn zeta. pose proof (tidy_exec ops _ (tidy_NewClient o)) as Ht. split.
  - intros addr c H. destruct Ht as (Hin & _). by destruct (Hin _ _ H).
  - intros a b c c'. by apply tidy_distinct.
Qed.

Lemma opts_exec ops : forall client, opts (exec ops client) = opts client.
Proof.
  induction ops as [| op ops IH]; intros client; [done |].
  cbn. rewrite IH. destruct op as [env addr msg | addr | env c msg | addr | | chan]; cbn.
  - apply Send_size.
  - by destruct (acquire_size client addr _ _ (surjective_pairing _)).
  - apply race_conns.
  - unfold Close. by destruct (connsByAddr client !! addr).
  - done.
  - by destruct (chans client !! chan) as [[| m rest] |].
Qed.

(** X7.  [Options] returns the options given to [NewClient], whatever has
    been done with the client since. *)
Theorem Options_never_change o ops : Options (exec ops (NewClient o)) = o.
Proof. unfold Options. by rewrite opts_exec. Qed.

Lemma Close_opts client addr : opts (Close client addr) = opts client.
Proof. unfold Close. by destruct (connsByAddr client !! addr). Qed.

Lemma Close_len client addr c :
  connsByAddr client !! addr = Some c -> len (Close client addr) = len client - 1.
Proof.
  intros H. unfold len. rewrite Close_conns.
  pose proof (map_size_delete addr (connsByAddr client)) as Hd.
  rewrite H in Hd.
  assert (size (connsByAddr client) <> 0%nat).
  { intros H0. apply map_size_empty_iff in H0. rewrite H0 in H. done. }
  lia.
Qed.

Lemma Send_fresh client env addr msg :
  connsByAddr client !! addr = None ->
  len client < MaxConnections (opts client) ->
  0 <= MaxCapacity (opts client) ->
  let c := {| ch := length (supervisors client); cancel := length (supervisors client) |} in
  let client' := snd (Send client env addr msg) in
  connsByAddr client' = <[addr := c]> (connsByAddr client)
  /\ supervisors client' = supervisors client ++ [(addr, c)]
  /\ cancelled client' = cancelled client
  /\ opts client' = opts client
  /\ fst (Send client env addr msg)
     <> Ret (Some (ErrorNew "max outbound connections exceeded")).
Proof.
  intros Hb Hroom Hcap. cbn zeta. unfold Send.
  rewrite (acquire_fresh _ _ Hb Hroom Hcap).
  set (c := mkConn _ _). set (started := mkClient _ _ _ _ _).
  destruct (race_conns started c msg env) as (Hm & Hs & Hc & Ho).
  rewrite Hm, Hs, Hc, Ho. split_and!; try done. apply race_not_capacity.
Qed.

(** X5.  When the map is full, a [Send] to an address that is not held is
    refused and changes nothing; after [Close] of an address that is held, the
    same [Send] is not refused for lack of room: the new address is held, the
    closed one is not, and the map is full again. *)
Theorem Close_frees_a_slot client env a b ca msg :
  connsByAddr client !! a = Some ca ->
  connsByAddr client !! b = None ->
  len client = MaxConnections (opts client) ->
  0 <= MaxCapacity (opts client) ->
  Send client env b msg
  = (Ret (Some (ErrorNew "max outbound connections exceeded")), client)
  /\ fst (Send (Close client a) env b msg)
     <> Ret (Some (ErrorNew "max outbound connections exceeded"))
  /\ is_Some (connsByAddr (snd (Send (Close client a) env b msg)) !! b)
  /\ connsByAddr (snd (Send (Close client a) env b msg)) !! a = None
  /\ len (snd (Send (Close client a) env b msg)) = len client.
Proof.
  intros Ha Hb Hfull Hcap.
  assert (Hne : a <> b). { intros ->. by rewrite Ha in Hb. }
  split.
  { unfold Send. rewrite (acquire_full _ _ Hb); [done | lia]. }
  pose proof (Close_len _ _ _ Ha) as Hlen.
  assert (Hb' : connsByAddr (Close client a) !! b = None).
  { rewrite Close_conns. by rewrite lookup_delete_ne. }
  assert (Hroom : len (Close client a) < MaxConnections (opts (Close client a))).
  { rewrite Close_opts. lia. }
  assert (Hcap' : 0 <= MaxCapacity (opts (Close client a))).
  { by rewrite Close_opts. }
  destruct (Send_fresh (Close client a) env b msg Hb' Hroom Hcap')
    as (Hm & _ & _ & _ & Herr).
  split_and!.
  - done.
  - rewrite Hm, lookup_insert_eq. by eexists.
  - rewrite Hm, lookup_insert_ne by done. rewrite Close_conns. apply lookup_delete_eq.
  - unfold len. rewrite Hm, map_size_insert_None by done.
    unfold len in Hlen. lia.
Qed.

(** X6.  [Close] removes and cancels whatever is held for the address when
    it is called.  So when an address is sent to, closed and sent to again,
    two supervisors have been started for it, the map holds the second, and
    one more [Close] of the address (the one the first supervisor defers
    until it returns) removes the entry of the second supervisor and cancels
    its context. *)
Theorem late_Close_cancels_successor client env1 env2 addr msg1 msg2 :
  connsByAddr client !! addr = None ->
  len client < MaxConnections (opts client) ->
  0 <= MaxCapacity (opts client) ->
  let first := {| ch := length (supervisors client);
                  cancel := length (supervisors client) |} in
  let second := {| ch := Datatypes.S (length (supervisors client));
                   cancel := Datatypes.S (length (supervisors client)) |} in
  let replaced :=
    exec [OpSend env1 addr msg1; OpClose addr; OpSend env2 addr msg2] client in
  supervisors replaced = supervisors client ++ [(addr, first); (addr, second)]
  /\ connsByAddr replaced !! addr = Some second
  /\ cancelled replaced = {[cancel first]} ∪ cancelled client
  /\ connsByAddr (Close replaced addr) !! addr = None
  /\ cancelled (Close replaced addr)
     = {[cancel second]} ∪ ({[cancel first]} ∪ cancelled client).
Proof.
  intros Hb Hroom Hcap. cbn zeta. unfold exec. cbn [fold_left step].
  destruct (Send_fresh client env1 addr msg1 Hb Hroom Hcap)
    as (Hm1 & Hs1 & Hc1 & Ho1 & _).
  set (s1 := snd (Send client env1 addr msg1)) in *.
  assert (Hat : connsByAddr s1 !! addr = Some (mkConn (length (supervisors client))
                                                  (length (supervisors client)))).
  { rewrite Hm1. apply lookup_insert_eq. }
  pose proof (Close_present _ _ _ Hat) as Hclose.
  set (s2 := Close s1 addr) in *.
  assert (Hm2 : connsByAddr s2 = connsByAddr client).
  { rewrite Hclose. cbn. rewrite Hm1. by apply delete_insert_id. }
  assert (Hb2 : connsByAddr s2 !! addr = None).
  { by rewrite Hm2. }
  assert (Hroom2 : len s2 < MaxConnections (opts s2)).
  { unfold len. rewrite Hm2. rewrite Hclose. cbn. rewrite Ho1. done. }
  assert (Hcap2 : 0 <= MaxCapacity (opts s2)).
  { rewrite Hclose. cbn. by rewrite Ho1. }
  destruct (Send_fresh s2 env2 addr msg2 Hb2 Hroom2 Hcap2)
    as (Hm3 & Hs3 & Hc3 & Ho3 & _).
  set (s3 := snd (Send s2 env2 addr msg2)) in *.
  assert (Hlen : length (supervisors s2) = Datatypes.S (length (supervisors client))).
  { rewrite Hclose. cbn. rewrite Hs1, length_app. cbn. lia. }
  rewrite Hlen in Hm3, Hs3.
  assert (Hat3 : connsByAddr s3 !! addr
                 = Some (mkConn (Datatypes.S (length (supervisors client)))
                           (Datatypes.S (length (supervisors client))))).
  { rewrite Hm3. apply lookup_insert_eq. }
  split_and!.
  - rewrite Hs3, Hclose. cbn. rewrite Hs1. by rewrite <- app_assoc.
  - done.
  - rewrite Hc3, Hclose. cbn. by rewrite Hc1.
  - rewrite Close_conns. apply lookup_delete_eq.
  - rewrite (Close_present _ _ _ Hat3). cbn. rewrite Hc3, Hclose. cbn. by rewrite Hc1.
Qed.


(** X8.  Addresses are admitted first come, first served: after sends to
    pairwise different addresses on a new client, the addresses held are
    exactly the first [MaxConnections] of them, whatever the contexts of the
    callers and whatever the [select]s pick, and the map holds as many
    entries as there were sends, up to [MaxConnections]. *)
Theorem first_come_first_admitted o sends :
  0 <= MaxConnections o -> 0 <= MaxCapacity o ->
  NoDup (sends.*1.*2) ->
  let client := exec ((fun s => OpSend s.1.1 s.1.2 s.2) <$> sends) (NewClient o) in
  (forall addr, is_Some (connsByAddr client !! addr)
                <-> addr ∈ take (Z.to_nat (MaxConnections o)) (sends.*1.*2))
  /\ len client = Z.min (Z.of_nat (length sends)) (MaxConnections o)
  /\ opts client = o.
Proof.
  intros Hmax Hcap. induction sends as [| [[env a] msg] sends IH] using rev_ind.
  { intros _. cbn. split_and!; try done.
    - intros addr. rewrite lookup_empty, take_nil. split.
      + by intros [? ?].
      + by intros ?%elem_of_nil.
    - unfold len. cbn. rewrite map_size_empty. lia. }
  rewrite !fmap_app. cbn [fmap list_fmap fst snd].
  intros [Hnd [Hnotin _]]%NoDup_app. cbn zeta.
  unfold exec. rewrite fold_left_app. cbn [fold_left step].
  fold (exec ((fun s => OpSend s.1.1 s.1.2 s.2) <$> sends) (NewClient o)).
  destruct (IH Hnd) as (Hdom & Hlen & Hopts). clear IH.
  set (client := exec _ _) in *.
  set (addrs := sends.*1.*2) in *.
  assert (Hlenaddrs : length addrs = length sends).
  { unfold addrs. by rewrite !length_fmap. }
  assert (Habsent : connsByAddr client !! a = None).
  { destruct (connsByAddr client !! a) eqn:E; [| done]. exfalso.
    assert (Hin : a ∈ take (Z.to_nat (MaxConnections o)) addrs).
    { apply Hdom. by rewrite E. }
    apply (Hnotin a); [| apply list_elem_of_here].
    apply elem_of_take in Hin as (i & Hi & _).
    apply list_elem_of_lookup. by exists i. }
  destruct (Z_lt_le_dec (Z.of_nat (length sends)) (MaxConnections o)) as [Hlt | Hge].
  - assert (Hroom : len client < MaxConnections (opts client)).
    { rewrite Hopts. lia. }
    assert (Hcap' : 0 <= MaxCapacity (opts client)).
    { by rewrite Hopts. }
    destruct (Send_fresh client env a msg Habsent Hroom Hcap') as (Hm & _ & _ & Ho & _).
    split_and!.
    + intros addr. rewrite Hm.
      rewrite take_ge by (rewrite length_app, Hlenaddrs; cbn; lia).
      rewrite elem_of_app, list_elem_of_singleton.
      rewrite take_ge in Hdom by lia.
      destruct (decide (addr = a)) as [-> | Hne].
      * rewrite lookup_insert_eq. split; [by right | by eexists].
      * rewrite lookup_insert_ne by done. rewrite Hdom. tauto.
    + unfold len. rewrite Hm, map_size_insert_None by done.
      rewrite length_app. cbn. unfold len in Hlen. lia.
    + by rewrite Ho.
  - assert (Hfull : MaxConnections (opts client) <= len client).
    { rewrite Hopts. lia. }
    unfold Send. rewrite (acquire_full _ _ Habsent Hfull). cbn [snd].
    split_and!.
    + intros addr. rewrite Hdom.
      rewrite take_app_le by lia. done.
    + rewrite length_app. cbn. lia.
    + done.
Qed.

Lemma Close_commutes client a b :
  Close (Close client a) b = Close (Close client b) a.
Proof.
  destruct (decide (a = b)) as [-> | Hne]; [done |].
  apply Client_eq.
  - by rewrite !Close_opts.
  - rewrite !Close_conns. apply delete_delete.
  - unfold Close at 1 3.
    destruct (connsByAddr (Close client a) !! b), (connsByAddr (Close client b) !! a); cbn;
      unfold Close; by destruct (connsByAddr client !! a), (connsByAddr client !! b).
  - apply set_eq. intros x. rewrite !Close_cancelled, !Close_conns.
    rewrite !lookup_delete_ne by done. tauto.
  - unfold Close at 1 3.
    destruct (connsByAddr (Close client a) !! b), (connsByAddr (Close client b) !! a); cbn;
      unfold Close; by destruct (connsByAddr client !! a), (connsByAddr client !! b).
Qed.

(** X1.  [Close] of an address leaves the map without that address and
    leaves every other entry as it was.  If the address was held, the
    context of its supervisor is cancelled and the map is one entry smaller;
    if it was not, nothing changes.  Closing twice is closing once, the
    order in which two addresses are closed does not matter, and [Close]
    touches neither the channels, nor the list of supervisors, nor the
    options. *)
Theorem Close_removes_and_cancels client addr :
  connsByAddr (Close client addr) !! addr = None
  /\ (forall other, other <> addr ->
        connsByAddr (Close client addr) !! other = connsByAddr client !! other)
  /\ (forall c, connsByAddr client !! addr = Some c ->
        cancelled (Close client addr) = {[cancel c]} ∪ cancelled client
        /\ len (Close client addr) = len client - 1)
  /\ (connsByAddr client !! addr = None -> Close client addr = client)
  /\ Close (Close client addr) addr = Close client addr
  /\ chans (Close client addr) = chans client
  /\ supervisors (Close client addr) = supervisors client
  /\ opts (Close client addr) = opts client
  /\ (forall other, Close (Close client addr) other = Close (Close client other) addr).
Proof.
  split; [| split; [| split; [| split; [| split; [| split_and!]]]]].
  - rewrite Close_conns. apply lookup_delete_eq.
  - intros other Hne. rewrite Close_conns. by apply lookup_delete_ne.
  - intros c H. rewrite (Close_present _ _ _ H). cbn. split; [done |].
    unfold len; cbn.
    pose proof (map_size_delete addr (connsByAddr client)) as Hd.
    rewrite H in Hd.
    assert (size (connsByAddr client) <> 0%nat).
    { intros H0. apply map_size_empty_iff in H0. rewrite H0 in H. done. }
    lia.
  - apply Close_absent.
  - apply Close_absent. rewrite Close_conns. apply lookup_delete_eq.
  - unfold Close. by destruct (connsByAddr client !! addr).
  - unfold Close. by destruct (connsByAddr client !! addr).
  - apply Close_opts.
  - intros other. apply Close_commutes.
Qed.


Lemma closed_pool_step client op :
  MaxConnections (opts client) <= 0 -> connsByAddr client = ∅ ->
  opts (step client op) = opts client /\ connsByAddr (step client op) = ∅.
Proof.
  intros Hmax Hempty.
  assert (Hno : forall addr, connsByAddr client !! addr = None).
  { intros addr. by rewrite Hempty, lookup_empty. }
  assert (Hfull : MaxConnections (opts client) <= len client).
  { unfold len. rewrite Hempty, map_size_empty. lia. }
  destruct op as [env addr msg | addr | env c msg | addr | | chan]; cbn.
  - unfold Send. by rewrite (acquire_full _ _ (Hno addr) Hfull).
  - by rewrite (acquire_full _ _ (Hno addr) Hfull).
  - destruct (race_conns client c msg env) as (-> & _ & _ & ->). done.
  - by rewrite (Close_absent _ _ (Hno addr)).
  - done.
  - by destruct (chans client !! chan) as [[| m rest] |].
Qed.

(** X22.  A client whose [MaxConnections] is zero or negative never holds
    an address: whatever has been done with it, its map is empty and every
    [Send] is refused for lack of room and changes nothing. *)
Theorem nonpositive_MaxConnections_refuses_all o ops env addr msg :
  MaxConnections o <= 0 ->
  connsByAddr (exec ops (NewClient o)) = ∅
  /\ Send (exec ops (NewClient o)) env addr msg
     = (Ret (Some (ErrorNew "max outbound connections exceeded")),
        exec ops (NewClient o)).
Proof.
  intros Hmax.
  assert (H : forall client, MaxConnections (opts client) <= 0 ->
              connsByAddr client = ∅ ->
              MaxConnections (opts (exec ops client)) <= 0
              /\ connsByAddr (exec ops client) = ∅).
  { induction ops as [| op ops IH]; intros client Hm He; [done |].
    cbn. destruct (closed_pool_step client op Hm He) as [Ho Hc].
    apply IH; [by rewrite Ho | done]. }
  destruct (H (NewClient o) Hmax eq_refl) as [Hm He].
  split; [done |]. unfold Send. rewrite acquire_full; [done | |].
  - by rewrite He, lookup_empty.
  - unfold len. rewrite He, map_size_empty. lia.
Qed.

End PoolLaws.

Lemma Close_removes_and_cancels_witness :
  Pool.cancelled (Pool.Close Examples.singleBusy "10.0.0.1:80")
  = {[Pool.cancel {| Pool.ch := 0%nat; Pool.cancel := 0%nat |}]}
    ∪ Pool.cancelled Examples.singleBusy
  /\ Pool.len (Pool.Close Examples.singleBusy "10.0.0.1:80")
     = Pool.len Examples.singleBusy - 1.
Proof.
  destruct (Close_removes_and_cancels Examples.singleBusy "10.0.0.1:80")
    as (_ & _ & H & _).
  apply H. vm_compute. reflexivity.
Defined.

Lemma CloseAll_is_Close_of_each_witness :
  fold_left Pool.Close ["10.0.0.9:80"; "10.0.0.1:80"; "10.0.0.1:80"] Examples.singleBusy
  = Pool.CloseAll Examples.singleBusy.
Proof.
  apply CloseAll_is_Close_of_each. intros addr Hsome.
  destruct (decide (addr = "10.0.0.1:80")) as [-> | Hne].
  - right. left.
  - exfalso. destruct Hsome as [c Hc].
    change (Pool.connsByAddr Examples.singleBusy)
      with (<["10.0.0.1:80" := {| Pool.ch := 0%nat; Pool.cancel := 0%nat |}]>
              (∅ : gmap string Pool.conn)) in Hc.
    rewrite lookup_insert_ne in Hc by done. by rewrite lookup_empty in Hc.
Defined.

Lemma Send_touches_one_address_witness :
  exists c,
    Pool.connsByAddr (Pool.Send Examples.singleBusy Examples.liveCaller
                        "10.0.0.1:80" Examples.ping).2 !! "10.0.0.1:80" = Some c
    /\ Pool.chans (Pool.Send Examples.singleBusy Examples.liveCaller
                     "10.0.0.1:80" Examples.ping).2 !! Pool.ch c
       = Some ((if Pool.connsByAddr Examples.singleBusy !! "10.0.0.1:80" is Some _
                then Pool.buffered Examples.singleBusy c else []) ++ [Examples.ping]).
Proof.
  destruct (Send_touches_one_address Examples.singleBusy Examples.liveCaller
              "10.0.0.1:80" Examples.ping) as (_ & _ & _ & _ & H & _).
  apply H. vm_compute. reflexivity.
Defined.

Lemma pool_entries_live_and_distinct_witness :
  Pool.ch {| Pool.ch := 0%nat; Pool.cancel := 0%nat |}
  <> Pool.ch {| Pool.ch := 1%nat; Pool.cancel := 1%nat |}
  /\ Pool.cancel {| Pool.ch := 0%nat; Pool.cancel := 0%nat |}
     <> Pool.cancel {| Pool.ch := 1%nat; Pool.cancel := 1%nat |}.
Proof.
  destruct (pool_entries_live_and_distinct
              (WithMaxConnections DefaultClientOptions 2)
              [Pool.OpSend Examples.liveCaller "10.0.0.1:80" Examples.ping;
               Pool.OpSend Examples.liveCaller "10.0.0.2:80" Examples.ping])
    as [_ H].
  apply (H "10.0.0.1:80" "10.0.0.2:80").
  - vm_compute. reflexivity.
  - vm_compute. reflexivity.
  - discriminate.
Defined.

Lemma Close_frees_a_slot_witness :
  Pool.Send Examples.singleBusy Examples.liveCaller "10.0.0.2:80" Examples.ping
  = (Ret (Some (ErrorNew "max outbound connections exceeded")), Examples.singleBusy)
  /\ fst (Pool.Send (Pool.Close Examples.singleBusy "10.0.0.1:80")
            Examples.liveCaller "10.0.0.2:80" Examples.ping)
     <> Ret (Some (ErrorNew "max outbound connections exceeded"))
  /\ is_Some (Pool.connsByAddr
                (snd (Pool.Send (Pool.Close Examples.singleBusy "10.0.0.1:80")
                        Examples.liveCaller "10.0.0.2:80" Examples.ping))
              !! "10.0.0.2:80")
  /\ Pool.connsByAddr
       (snd (Pool.Send (Pool.Close Examples.singleBusy "10.0.0.1:80")
               Examples.liveCaller "10.0.0.2:80" Examples.ping))
     !! "10.0.0.1:80" = None
  /\ Pool.len (snd (Pool.Send (Pool.Close Examples.singleBusy "10.0.0.1:80")
                      Examples.liveCaller "10.0.0.2:80" Examples.ping))
     = Pool.len Examples.singleBusy.
Proof.
  apply (Close_frees_a_slot Examples.singleBusy Examples.liveCaller
           "10.0.0.1:80" "10.0.0.2:80" {| Pool.ch := 0%nat; Pool.cancel := 0%nat |}).
  - vm_compute. reflexivity.
  - vm_compute. reflexivity.
  - vm_compute. reflexivity.
  - vm_compute. discriminate.
Defined.

Lemma late_Close_cancels_successor_witness :
  let replaced :=
    Pool.exec [Pool.OpSend Examples.liveCaller "10.0.0.1:80" Examples.ping;
               Pool.OpClose "10.0.0.1:80";
               Pool.OpSend Examples.liveCaller "10.0.0.1:80" Examples.ping]
      Examples.fresh in
  Pool.connsByAddr replaced !! "10.0.0.1:80"
  = Some {| Pool.ch := 1%nat; Pool.cancel := 1%nat |}
  /\ Pool.cancelled (Pool.Close replaced "10.0.0.1:80")
     = {[1%nat]} ∪ ({[0%nat]} ∪ Pool.cancelled Examples.fresh).
Proof.
  cbv zeta.
  destruct (late_Close_cancels_successor Examples.fresh Examples.liveCaller
              Examples.liveCaller "10.0.0.1:80" Examples.ping Examples.ping)
    as (_ & H1 & _ & _ & H2).
  - vm_compute. reflexivity.
  - vm_compute. reflexivity.
  - vm_compute. discriminate.
  - split; [exact H1 | exact H2].
Defined.

Lemma first_come_first_admitted_witness :
  let client :=
    Pool.exec [Pool.OpSend Examples.liveCaller "10.0.0.1:80" Examples.ping;
               Pool.OpSend Examples.cancelledCaller "10.0.0.2:80" Examples.ping]
      Examples.single in
  (forall addr, is_Some (Pool.connsByAddr client !! addr) <-> addr ∈ ["10.0.0.1:80"])
  /\ Pool.len client = 1.
Proof.
  cbv zeta.
  destruct (first_come_first_admitted (WithMaxConnections DefaultClientOptions 1)
              [(Examples.liveCaller, "10.0.0.1:80", Examples.ping);
               (Examples.cancelledCaller, "10.0.0.2:80", Examples.ping)])
    as (H1 & H2 & _).
  - vm_compute. discriminate.
  - vm_compute. discriminate.
  - apply (bool_decide_unpack _). vm_compute. reflexivity.
  - split; [exact H1 | exact H2].
Defined.

(** ** More about the supervisor *)

(** *** The exchange *)

Section ExchangeLaws.
Import Supervisor.
Context {S : Type}.
Variable env : Env S.





(** X10.  What [write] puts on the wire is the message given, with its
    version and type, carrying the bytes [Encrypt] returned for its data; the
    only thing encrypted is the data of that message, on the session given.
    The writer is flushed only after a frame was marshalled without error,
    and a response is read only after a flush without error, all on the
    connection given. *)
Theorem write_sends_only_ciphertext session rw msg st r evs st' :
  write env session rw msg st = (r, evs, st') ->
  (forall rw' m res,
      In (EvMarshal rw' m res) evs ->
      rw' = rw
      /\ wire.Version_ m = wire.Version_ msg
      /\ wire.MsgType m = wire.MsgType msg
      /\ In (EvEncrypt session (wire.Data msg) (inr (wire.Data m))) evs)
  /\ (forall rw' res,
        In (EvFlush rw' res) evs ->
        rw' = rw /\ exists m, In (EvMarshal rw m None) evs)
  /\ (forall rw' res,
        In (EvUnmarshal rw' res) evs -> rw' = rw /\ In (EvFlush rw None) evs)
  /\ (forall s data res,
        In (EvEncrypt s data res) evs -> s = session /\ data = wire.Data msg).
Proof.
  intros H. wp_start H. unfold write. repeat wp_step.
  all: split_and!; intros.
  all: lazymatch goal with
       | Hin : In (EvMarshal _ _ _) _ |- _ =>
           cbn in Hin; in_cases Hin; simplify_eq; cbn;
           split_and!; try done; repeat first [left; reflexivity | right]
       | Hin : In (EvFlush _ _) _ |- _ =>
           cbn in Hin; in_cases Hin; simplify_eq; cbn;
           (split; [done |]); eexists; repeat first [left; reflexivity | right]
       | Hin : In (EvUnmarshal _ _) _ |- _ =>
           cbn in Hin; in_cases Hin; simplify_eq; cbn;
           (split; [done |]); repeat first [left; reflexivity | right]
       | Hin : In (EvEncrypt _ _ _) _ |- _ =>
           cbn in Hin; in_cases Hin; by simplify_eq
       end.
Qed.

End ExchangeLaws.

(** *** Connections and contexts of [dial] *)

Section DialLaws.
Import Supervisor.
Context {S : Type}.
Variable env : Env S.

Lemma opened_app e1 e2 : opened (e1 ++ e2) = opened e1 ++ opened e2.
Proof. apply omap_app. Qed.
Lemma closed_app e1 e2 : closed (e1 ++ e2) = closed e1 ++ closed e2.
Proof. apply omap_app. Qed.

Lemma dialTurn_sockets opts dialCtx addr n st :
  wp (dialTurn env opts dialCtx addr n) st (fun r e s =>
    match r with
    | Ret (Continue _) => opened e = closed e
    | Ret (Return (inl _)) => opened e = [] /\ closed e = []
    | Ret (Return (inr (conn, _))) => opened e = [conn] /\ closed e = []
    | _ => False
    end).
Proof. unfold dialTurn. repeat wp_step; done. Qed.

Lemma dial_sockets fuel opts ctx addr st :
  wp (dial env fuel opts ctx addr) st (fun r e s =>
    match r with
    | Ret (inr (conn, _)) => opened e = closed e ++ [conn]
    | _ => opened e = closed e
    end).
Proof.
  unfold dial. repeat wp_step. apply wp_defer.
  eapply wp_mono.
  - apply (wp_loop (fun _ _ => True)
             (fun _ _ r e _ =>
                match r with
                | Ret (inr (conn, _)) => opened e = closed e ++ [conn]
                | _ => opened e = closed e
                end)
             (dialTurn env opts (WithTimeout ctx (TimeToLive opts) (serial st)) addr));
      [done | | done].
    intros n s _. eapply wp_mono; [apply dialTurn_sockets |].
    intros r e s' H. destruct r as [[n' | [err | [conn session]]] | | |]; try done.
    + split; [done |]. intros r' e' s'' H'.
      rewrite opened_app, closed_app, H.
      destruct r' as [[err | [conn session]] | | |]; rewrite H'; by rewrite ?app_assoc.
    + destruct H as [-> ->]. done.
    + destruct H as [-> ->]. done.
  - intros r e s H. cbn beta.
    destruct r as [[err | [conn session]] | | |]; repeat wp_step; cbn;
      rewrite ?opened_app, ?closed_app, ?H; cbn; by rewrite ?app_nil_r.
Qed.




Lemma failedDials_app e1 e2 :
  failedDials (e1 ++ e2) = (failedDials e1 + failedDials e2)%nat.
Proof.
  induction e1 as [| e e1 IH]; [done |].
  destruct e as [| | | | c a [err | conn] | | | | | | | | | | | | | | | | | | | |];
    cbn; by rewrite ?IH.
Qed.

Lemma dialTurn_failures opts dialCtx addr n st :
  wp (dialTurn env opts dialCtx addr n) st (fun r e s =>
    (failedDials e <= 1)%nat
    /\ match r with
       | Ret (Continue n') =>
           n' = wrap (n + 1)
           /\ (failedDials e = 1%nat -> wrap (n + 1) < MaxDialAttempts opts)
       | Ret (Return _) => True
       | _ => False
       end).
Proof.
  unfold dialTurn. repeat wp_step; cbn; split_and!; try done; try lia.
  all: intros _.
  all: match goal with
       | H : (_ >=? _) = false |- _ => rewrite Z.geb_leb in H; by apply Z.leb_gt in H
       end.
Qed.

Lemma dialLoop_failures opts dialCtx addr fuel : forall n st,
  0 <= n -> n + Z.of_nat fuel < 2 ^ 63 ->
  wp (loop fuel (dialTurn env opts dialCtx addr) n) st (fun r e s =>
    Z.of_nat (failedDials e) <= Z.max 1 (MaxDialAttempts opts - n)).
Proof.
  induction fuel as [| fuel IH]; intros n st Hn Hfuel.
  { cbn [loop]. wp_step. cbn. lia. }
  cbn [loop]. apply wp_bind.
  eapply wp_mono; [apply dialTurn_failures |].
  intros r e s [Hle Hr]. unfold andThen.
  destruct r as [[n' | b] | | |]; try done.
  - destruct Hr as [-> Hbudget].
    rewrite wrap_small in * by lia.
    eapply wp_mono; [apply IH; lia |].
    intros r' e' s' Hrest. cbn beta in *. rewrite failedDials_app.
    destruct (failedDials e) as [| [| k]] eqn:E; [lia | | lia].
    specialize (Hbudget eq_refl). lia.
  - wp_step. rewrite app_nil_r. lia.
Qed.

Lemma dial_failures fuel opts ctx addr st :
  Z.of_nat fuel < 2 ^ 63 ->
  wp (dial env fuel opts ctx addr) st (fun r e s =>
    Z.of_nat (failedDials e) <= Z.max 1 (MaxDialAttempts opts)).
Proof.
  intros Hfuel. unfold dial. repeat wp_step. apply wp_defer.
  eapply wp_mono; [apply dialLoop_failures; lia |].
  intros r e s H. cbn beta. rewrite Z.sub_0_r in H.
  destruct r; repeat wp_step; cbn; rewrite ?failedDials_app; cbn; lia.
Qed.

Lemma dialTurn_done opts dialCtx addr n st :
  wp (dialTurn env opts dialCtx addr n) st (fun r e s =>
    (exists err, e = [EvPollDone dialCtx (Some err)]
                 /\ r = Ret (Return (inl (Context err))))
    \/ (forallb live e = true
        /\ (exists t, r = Ret t)
        /\ forall err, r <> Ret (Return (inl (Context err))))).
Proof.
  unfold dialTurn. repeat wp_step; cbn.
  all: try (right; split_and!; [done | by eexists | done]).
  left. by eexists.
Qed.

Lemma dial_done fuel opts ctx addr st :
  wp (dial env fuel opts ctx addr) st (fun r e s =>
    let dialCtx := WithTimeout ctx (TimeToLive opts) (serial st) in
    (exists pre err,
        e = pre ++ [EvPollDone dialCtx (Some err); EvCancel dialCtx]
        /\ forallb live pre = true
        /\ r = Ret (inl (Context err)))
    \/ (forallb live e = true /\ forall err, r <> Ret (inl (Context err)))).
Proof.
  unfold dial. repeat wp_step. apply wp_defer.
  set (dialCtx := WithTimeout ctx (TimeToLive opts) (serial st)).
  eapply wp_mono.
  - apply (wp_loop (fun _ _ => True)
             (fun _ _ r e _ =>
                ((exists pre err,
                     e = pre ++ [EvPollDone dialCtx (Some err)]
                     /\ forallb live pre = true
                     /\ r = Ret (inl (Context err)))
                 \/ (forallb live e = true /\ forall err, r <> Ret (inl (Context err))))
                /\ r <> Blocked /\ forall what, r <> Panic what)
             (dialTurn env opts dialCtx addr)); [by split; [right |] | | done].
    intros n s _. eapply wp_mono; [apply dialTurn_done |].
    intros r e s' [(err & -> & ->) | (Hlive & (t & ->) & Hne)].
    + split; [| done]. left. by exists [], err.
    + destruct t as [n' | b].
      * split; [done |].
        intros r' e' s'' [[(pre & err & -> & Hpre & ->) | (Hlive' & Hne')] Hr'].
        -- split; [| done]. left. exists (e ++ pre), err.
           rewrite app_assoc, forallb_app, Hlive, Hpre. done.
        -- split; [| done]. right. by rewrite forallb_app, Hlive, Hlive'.
      * split; [| done]. right. split; [done |]. intros err [= ->].
        by apply (Hne err).
  - intros r e s [H [Hb Hp]]. cbn beta.
    destruct r as [x | what | |]; [| by destruct (Hp what) | done |].
    + repeat wp_step. destruct H as [(pre & err & -> & Hpre & [= ->]) | (Hlive & Hne)].
      * left. exists (EvWithTimeout dialCtx :: pre), err.
        cbn. rewrite <- app_assoc. cbn. done.
      * right. rewrite !forallb_app, Hlive. cbn. split; [done |].
        intros err [= ->]. by apply (Hne err).
    + destruct H as [(pre & err & _ & _ & [=]) | (Hlive & Hne)].
      right. cbn. by rewrite Hlive.
Qed.

Lemma dialTurn_impostor opts dialCtx addr n st :
  (forall c w, (pollDone env c w).1 = None) ->
  (forall c a w, exists conn, (DialContext env c a w).1 = inr conn) ->
  (forall c conn w session, (Handshake env c conn w).1 <> (Some session, None)) ->
  wp (dialTurn env opts dialCtx addr n) st (fun r e s =>
    exists n' conn,
      r = Ret (Continue n') /\ opened e = [conn] /\ closed e = [conn]
      /\ failedDials e = 0%nat).
Proof.
  intros Hpoll Hdial Hhs. unfold dialTurn.
  apply wp_bind. apply wp_perform. intros d w Hd.
  pose proof (Hpoll dialCtx (world st)) as Hp.
  rewrite Hd in Hp. cbn in Hp. subst d.
  unfold andThen. cbn [world serial deadline].
  apply wp_bind. apply wp_withTimeout. unfold andThen. cbn [world serial deadline].
  apply wp_bind. apply wp_perform. intros r w' Hr. cbn [world] in Hr.
  destruct (Hdial (WithTimeout dialCtx (TimeToDial opts) (serial st)) addr w)
    as [conn Hc].
  rewrite Hr in Hc. cbn in Hc. subst r.
  unfold andThen. cbn [world serial deadline].
  apply wp_bind. apply wp_perform. intros h w'' Hh. cbn [world] in Hh.
  pose proof (Hhs dialCtx conn w') as Hno. rewrite Hh in Hno. cbn in Hno.
  unfold andThen. cbn [world serial deadline].
  destruct h as [[session |] [err |]];
    repeat wp_step; cbn; eauto 10.
  by destruct (Hno session).
Qed.

Lemma dialLoop_impostor opts dialCtx addr fuel :
  (forall c w, (pollDone env c w).1 = None) ->
  (forall c a w, exists conn, (DialContext env c a w).1 = inr conn) ->
  (forall c conn w session, (Handshake env c conn w).1 <> (Some session, None)) ->
  forall n st,
  wp (loop fuel (dialTurn env opts dialCtx addr) n) st (fun r e s =>
    r = Unfinished /\ length (opened e) = fuel /\ closed e = opened e
    /\ failedDials e = 0%nat).
Proof.
  intros Hpoll Hdial Hhs. induction fuel as [| fuel IH]; intros n st.
  { cbn [loop]. by wp_step. }
  cbn [loop]. apply wp_bind.
  eapply wp_mono; [by apply dialTurn_impostor |].
  intros r e s (n' & conn & -> & Ho & Hc & Hf). unfold andThen.
  eapply wp_mono; [apply IH |].
  intros r' e' s' (-> & Hlen & Hcl & Hf'). cbn beta.
  rewrite opened_app, closed_app, failedDials_app, length_app, Ho, Hc, Hcl, Hf, Hf'.
  cbn. by rewrite Hlen.
Qed.

(** X11.  [dial] closes every connection it opened and does not return: when
    it returns a connection, the connections it opened are those it closed
    followed by the one returned; in every other case it closed all it
    opened. *)
Theorem dial_closes_rejected_connections fuel opts ctx addr st r evs st' :
  dial env fuel opts ctx addr st = (r, evs, st') ->
  match r with
  | Ret (inr (conn, _)) => opened evs = closed evs ++ [conn]
  | _ => opened evs = closed evs
  end.
Proof. intros H. wp_start H. apply dial_sockets. Qed.


(** X13.  As long as the attempt counter does not wrap around, the
    [DialContext] calls that fail in one call of [dial] are at most
    [MaxDialAttempts], and at most one when [MaxDialAttempts] is below one. *)
Theorem failed_dials_within_budget fuel opts ctx addr st r evs st' :
  Z.of_nat fuel < 2 ^ 63 ->
  dial env fuel opts ctx addr st = (r, evs, st') ->
  Z.of_nat (failedDials evs) <= Z.max 1 (MaxDialAttempts opts).
Proof. intros Hfuel H. wp_start H. by apply dial_failures. Qed.

(** X14.  Handshakes that fail are not counted against [MaxDialAttempts]:
    while the context is not done, every [DialContext] call succeeds and
    every handshake fails, [dial] does not return, however small the budget.
    Each turn of its loop opens a connection and closes it again. *)
Theorem handshake_failures_outlast_budget :
  (forall c w, (pollDone env c w).1 = None) ->
  (forall c a w, exists conn, (DialContext env c a w).1 = inr conn) ->
  (forall c conn w session, (Handshake env c conn w).1 <> (Some session, None)) ->
  forall fuel opts ctx addr st,
    (dial env fuel opts ctx addr st).1.1 = Unfinished
    /\ length (opened (dial env fuel opts ctx addr st).1.2) = fuel
    /\ closed (dial env fuel opts ctx addr st).1.2
       = opened (dial env fuel opts ctx addr st).1.2
    /\ failedDials (dial env fuel opts ctx addr st).1.2 = 0%nat.
Proof.
  intros Hpoll Hdial Hhs fuel opts ctx addr st.
  pose proof (triple_eta (dial env fuel opts ctx addr st)) as H.
  wp_start H. unfold dial. repeat wp_step. apply wp_defer.
  eapply wp_mono; [by apply dialLoop_impostor |].
  intros r e s (-> & Hlen & Hcl & Hf). cbn beta.
  rewrite !opened_app, !closed_app, !failedDials_app, Hcl, Hf. cbn.
  done.
Qed.

(** X15.  [dial] returns the error of its context exactly when a poll at
    the top of its loop finds the context done, and that poll is then the
    last thing it does before it releases the context: no further attempt
    is made.  No earlier poll found the context done. *)
Theorem dial_stops_when_context_done fuel opts ctx addr st r evs st' :
  dial env fuel opts ctx addr st = (r, evs, st') ->
  let dialCtx := WithTimeout ctx (TimeToLive opts) (serial st) in
  (exists pre err,
      evs = pre ++ [EvPollDone dialCtx (Some err); EvCancel dialCtx]
      /\ forallb live pre = true
      /\ r = Ret (inl (Context err)))
  \/ (forallb live evs = true /\ forall err, r <> Ret (inl (Context err))).
Proof. intros H. wp_start H. apply dial_done. Qed.

End DialLaws.

(** *** Connections of [run], and the end of the goroutine *)

Section RunLaws.
Import Supervisor.
Context {S : Type}.
Variable env : Env S.

Lemma serving_ticked t pre t1 : ticked t pre t1 -> forallb serving pre = true.
Proof. by intros [[-> _] | (-> & _)]. Qed.

Lemma serving_exchangeTail l : forallb exchangeTail l = true -> forallb serving l = true.
Proof. apply forallb_weaken. by intros []. Qed.

Lemma runTurn_serving opts ctx conn session st :
  wp (runTurn env opts ctx conn session tt) st (fun r e s => forallb serving e = true).
Proof.
  unfold runTurn. apply wp_bind.
  eapply wp_mono; [apply selectCase_spec |].
  intros r e s (pre & t1 & Ht & Hsel). unfold andThen.
  pose proof (serving_ticked _ _ _ Ht) as Hpre.
  destruct Hsel as [(err & -> & -> & Hd) | [(-> & -> & Hp & Hd)
    | [(m & ok & _ & -> & -> & Hd) | [(? & _) | (_ & -> & -> & Hd)]]]]; try done.
  - wp_step. by rewrite !forallb_app, Hpre.
  - wp_step. by rewrite !forallb_app, Hpre.
  - destruct ok; cbn [negb].
    2:{ wp_step. by rewrite !forallb_app, Hpre. }
    wp_step. eapply wp_mono; [apply timerStop_spec |].
    intros r e s' (pre2 & t2 & Ht2 & -> & -> & Hd2). unfold andThen.
    pose proof (serving_ticked _ _ _ Ht2) as Hpre2.
    unfold timerDrain, timerReset.
    repeat wp_step.
    all: try (eapply wp_mono; [apply write_spec |];
              intros r e s'' (_ & (x & tail & -> & Htail) & Hr & _);
              apply serving_exchangeTail in Htail;
              destruct Hr as [-> | [err ->]]; repeat wp_step).
    all: rewrite ?forallb_app; cbn; rewrite ?forallb_app, ?Hpre, ?Hpre2, ?Htail; done.
Qed.

Lemma runLoop_serving fuel opts ctx conn session st :
  wp (loop fuel (runTurn env opts ctx conn session) tt) st (fun r e s =>
    forallb serving e = true).
Proof.
  apply (wp_loop (fun _ _ => True) (fun _ _ _ e _ => forallb serving e = true)
           (runTurn env opts ctx conn session)); [done | | done].
  intros [] s _. eapply wp_mono; [apply runTurn_serving |].
  intros r e s' He. destruct r as [[[] | b] | | |]; try done.
  split; [done |]. intros r' e' s'' He'. by rewrite forallb_app, He, He'.
Qed.

(** The body of [run] between the dial and the deferred close. *)
Lemma runBody_serving fuel opts ctx conn session lastMessage st :
  wp match lastMessage with
     | Some m =>
         bind (logf Info "resending last message sent" None) (fun _ =>
         bind (write env session conn m) (fun w =>
         match w with
         | Some err =>
             bind (logf Error_ "writing: %v" (Some err)) (fun _ =>
             ret (lastMessage, None))
         | None => loop fuel (runTurn env opts ctx conn session) tt
         end))
     | None => loop fuel (runTurn env opts ctx conn session) tt
     end st
     (fun r e s => forallb serving e = true).
Proof.
  destruct lastMessage as [m0 |]; [| apply runLoop_serving].
  repeat wp_step.
  eapply wp_mono; [apply write_spec |].
  intros r e' s' (_ & (x & tail & -> & Htail) & Hr & _).
  apply serving_exchangeTail in Htail.
  destruct Hr as [-> | [err ->]]; unfold andThen.
  - eapply wp_mono; [apply runLoop_serving |].
    intros r e'' s'' Hloop. cbn. by rewrite forallb_app, Htail, Hloop.
  - repeat wp_step. cbn. by rewrite !forallb_app, Htail.
Qed.

Lemma opened_serving l : forallb serving l = true -> opened l = [].
Proof.
  induction l as [| e l IH]; [done |]. cbn [forallb]. intros [He Hl]%andb_prop.
  specialize (IH Hl). destruct e; try discriminate He; exact IH.
Qed.

Lemma closed_serving l : forallb serving l = true -> closed l = [].
Proof.
  induction l as [| e l IH]; [done |]. cbn [forallb]. intros [He Hl]%andb_prop.
  specialize (IH Hl). destruct e; try discriminate He; exact IH.
Qed.

Lemma closeLogged_sockets conn (st : St S) :
  wp (closeLogged env conn) st (fun r e s =>
    r = Ret tt /\ opened e = [] /\ closed e = [conn]).
Proof. unfold closeLogged. repeat wp_step; done. Qed.

Lemma run_sockets fuel opts ctx addr lastMessage st :
  wp (run env fuel opts ctx addr lastMessage) st (fun r e s =>
    match r with
    | Ret _ | Panic _ => opened e = closed e
    | _ => opened e = closed e \/ exists conn, opened e = closed e ++ [conn]
    end).
Proof.
  unfold run. apply wp_bind.
  eapply wp_mono; [apply dial_sockets |].
  intros r e s He. unfold andThen.
  destruct r as [[err | [conn session]] | | |]; try done; try by left.
  - wp_step. by rewrite app_nil_r.
  - apply wp_defer. eapply wp_mono; [apply runBody_serving |].
    intros r e' s' Hbody.
    pose proof (opened_serving _ Hbody) as Ho.
    pose proof (closed_serving _ Hbody) as Hc.
    destruct r as [a | what | |].
    + eapply wp_mono; [apply closeLogged_sockets |].
      intros r' e'' s'' (-> & Ho' & Hc').
      rewrite !opened_app, !closed_app, He, Ho, Hc, Ho', Hc'. cbn.
      by rewrite app_nil_r.
    + eapply wp_mono; [apply closeLogged_sockets |].
      intros r' e'' s'' (-> & Ho' & Hc').
      rewrite !opened_app, !closed_app, He, Ho, Hc, Ho', Hc'. cbn.
      by rewrite app_nil_r.
    + right. exists conn. by rewrite !opened_app, !closed_app, He, Ho, Hc, !app_nil_r.
    + right. exists conn. by rewrite !opened_app, !closed_app, He, Ho, Hc, !app_nil_r.
Qed.


Lemma inLoop_connecting l : forallb connecting l = true -> forallb inLoop l = true.
Proof. apply forallb_weaken. by intros []. Qed.

Lemma inLoop_serving l : forallb serving l = true -> forallb inLoop l = true.
Proof. apply forallb_weaken. by intros []. Qed.

Lemma inLoop_ticked t pre t1 : ticked t pre t1 -> forallb inLoop pre = true.
Proof. by intros [[-> _] | (-> & _)]. Qed.

Lemma run_inLoop fuel opts ctx addr lastMessage st :
  wp (run env fuel opts ctx addr lastMessage) st (fun r e s =>
    forallb inLoop e = true).
Proof.
  unfold run. apply wp_bind.
  eapply wp_mono; [apply dial_spec |].
  intros r e s [_ He%inLoop_connecting]. unfold andThen.
  destruct r as [[err | [conn session]] | | |]; try done.
  - wp_step. by rewrite app_nil_r.
  - apply wp_defer. eapply wp_mono; [apply runBody_serving |].
    intros r e' s' Hbody%inLoop_serving.
    destruct r as [a | what | |]; rewrite ?forallb_app, ?He, ?Hbody; try done.
    all: eapply wp_mono; [apply closeLogged_spec |].
    all: intros r' e'' s'' (-> & _ & He''%inLoop_connecting).
    all: by rewrite !forallb_app, He, Hbody, He''.
Qed.

Lemma keepAliveTurn_inLoop fuel opts ctx addr last st :
  wp (keepAliveTurn env fuel opts ctx addr last) st (fun r e s =>
    forallb inLoop e = true).
Proof.
  unfold keepAliveTurn. apply wp_bind.
  eapply wp_mono; [apply selectCase_spec |].
  intros r e s (pre & t1 & Ht & Hsel). unfold andThen.
  pose proof (inLoop_ticked _ _ _ Ht) as Hpre.
  destruct Hsel as [(err & -> & -> & Hd) | [(-> & -> & Hp & Hd)
    | [(m & ok & ? & _) | [(_ & -> & -> & Hd) | (? & _)]]]]; try done.
  - wp_step. by rewrite !forallb_app, Hpre.
  - repeat wp_step. by rewrite !forallb_app, Hpre.
  - wp_step. eapply wp_mono; [apply run_inLoop |].
    intros r e s' Hrun. unfold andThen.
    destruct r as [[m [err |]] | | |]; repeat wp_step;
      rewrite ?forallb_app, ?Hpre, ?Hrun; done.
Qed.

Lemma keepAliveLoop_inLoop fuel fuel' opts ctx addr last st :
  wp (loop fuel (keepAliveTurn env fuel' opts ctx addr) last) st (fun r e s =>
    forallb inLoop e = true).
Proof.
  apply (wp_loop (fun _ _ => True) (fun _ _ _ e _ => forallb inLoop e = true)
           (keepAliveTurn env fuel' opts ctx addr)); [done | | done].
  intros a s _. eapply wp_mono; [apply keepAliveTurn_inLoop |].
  intros r e s' He. destruct r as [[a' | b] | | |]; try done.
  split; [done |]. intros r' e' s'' He'. by rewrite forallb_app, He, He'.
Qed.

(** X20.  The goroutine of [runAndKeepAlive] creates its timer first, with
    the time to live, and creates no other.  Whenever it ends, by returning
    or because [run] panicked, the last thing it does is to call
    [client.Close] on its address, and it does so nowhere else. *)
Theorem supervisor_removes_itself_last fuel opts ctx addr st r evs st' :
  runAndKeepAlive env fuel opts ctx addr st = (r, evs, st') ->
  exists pre,
    evs = EvNewTimer (TimeToLive opts) :: pre
          ++ match r with
             | Ret _ | Panic _ => [EvClientClose addr]
             | Blocked | Unfinished => []
             end
    /\ (forall a, ~ In (EvClientClose a) pre)
    /\ (forall d, ~ In (EvNewTimer d) pre).
Proof.
  intros H. wp_start H. unfold runAndKeepAlive, newTimer.
  apply wp_defer. repeat wp_step.
  eapply wp_mono; [apply keepAliveLoop_inLoop |].
  intros r0 e s He. cbn beta.
  assert (Hno : (forall a, ~ In (EvClientClose a) e)
                /\ (forall d, ~ In (EvNewTimer d) e)).
  { rewrite forallb_forall in He. split; intros x Hin; by apply He in Hin. }
  destruct r0; repeat wp_step; exists e; (split; [| done]); cbn;
    by rewrite ?app_nil_r.
Qed.

(** X16.  [run] closes the connection it got from [dial] on every way out:
    when it returns and when it panics, every connection opened during the
    call has been closed.  While it is still running, or blocked, at most the
    connection in use is open. *)
Theorem run_closes_its_connection fuel opts ctx addr lastMessage st r evs st' :
  run env fuel opts ctx addr lastMessage st = (r, evs, st') ->
  match r with
  | Ret _ | Panic _ => opened evs = closed evs
  | _ => opened evs = closed evs \/ exists conn, opened evs = closed evs ++ [conn]
  end.
Proof. intros H. wp_start H. apply run_sockets. Qed.

End RunLaws.

(** *** The order of the exchanges *)

Section OrderLaws.
Import Supervisor.
Context {S : Type}.
Variable env : Env S.

Lemma exchanges_app ttl e1 : forall s e2,
  exchanges ttl s (e1 ++ e2)
  = match exchanges ttl s e1 with
    | Some s' => exchanges ttl s' e2
    | None => None
    end.
Proof.
  induction e1 as [| e e1 IH]; intros s e2; [done |].
  cbn [app exchanges]. by destruct (exchangeStep ttl s e).
Qed.

Lemma exchanges_exchangeTail ttl l : forall s,
  forallb exchangeTail l = true -> exchanges ttl s l = Some s.
Proof.
  induction l as [| e l IH]; intros s; [done |].
  cbn [forallb exchanges]. intros [He Hl]%andb_prop.
  destruct e; try discriminate He; cbn; by apply IH.
Qed.

Lemma exchanges_ticked ttl t pre t1 s :
  ticked t pre t1 -> exchanges ttl s pre = Some s.
Proof. by intros [[-> _] | (-> & _)]. Qed.

Lemma dialTurn_exchanges ttl opts dialCtx addr n st :
  wp (dialTurn env opts dialCtx addr n) st (fun r e s =>
    forall x, exchanges ttl x e = Some x).
Proof. unfold dialTurn. repeat wp_step; done. Qed.

Lemma dial_exchanges ttl fuel opts ctx addr st :
  wp (dial env fuel opts ctx addr) st (fun r e s =>
    forall x, exchanges ttl x e = Some x).
Proof.
  unfold dial. repeat wp_step. apply wp_defer.
  eapply wp_mono.
  - apply (wp_loop (fun _ _ => True)
             (fun _ _ _ e _ => forall x, exchanges ttl x e = Some x)
             (dialTurn env opts (WithTimeout ctx (TimeToLive opts) (serial st)) addr));
      [done | | done].
    intros n s _. eapply wp_mono; [apply dialTurn_exchanges |].
    intros r e s' He. destruct r as [[|] | | |]; try done.
    split; [done |]. intros r' e' s'' He' x.
    by rewrite exchanges_app, He, He'.
  - intros r e s He. cbn beta.
    destruct r; repeat wp_step; intros x; cbn [app exchanges exchangeStep];
      rewrite ?exchanges_app, ?He; done.
Qed.

Lemma closeLogged_exchanges ttl conn (st : St S) :
  wp (closeLogged env conn) st (fun r e s =>
    r = Ret tt /\ forall x, exchanges ttl x e = Some x).
Proof. unfold closeLogged. repeat wp_step; done. Qed.


Lemma exchanges_encrypt ttl msg stage session x rest :
  stage = Armed \/ stage = Resending ->
  exchanges ttl (Some msg, stage) (EvEncrypt session (wire.Data msg) x :: rest)
  = exchanges ttl (Some msg, Quiet) rest.
Proof.
  intros [-> | ->]; cbn [exchanges exchangeStep]; by rewrite bool_decide_eq_true_2.
Qed.

Lemma exchanges_deadline ttl last conn r rest :
  exchanges ttl (last, Taken) (EvSetDeadline conn ttl r :: rest)
  = exchanges ttl (last, match r with None => Armed | Some _ => Owed end) rest.
Proof. cbn [exchanges exchangeStep snd fst]. by rewrite Z.eqb_refl. Qed.

Lemma runTurn_exchanges opts ctx conn session st :
  wp (runTurn env opts ctx conn session tt) st (fun r e s =>
    forall last, exists fin,
      exchanges (TimeToLive opts) (last, Quiet) e = Some fin
      /\ match r with
         | Ret (Continue _) => fin.2 = Quiet
         | Ret (Return (m, None)) => fin = (m, Owed) /\ m <> None
         | _ => True
         end).
Proof.
  unfold runTurn. apply wp_bind.
  eapply wp_mono; [apply selectCase_spec |].
  intros r e s (pre & t1 & Ht & Hsel). unfold andThen.
  pose proof (fun x => exchanges_ticked (TimeToLive opts) _ _ _ x Ht) as Hpre.
  destruct Hsel as [(err & -> & -> & Hd) | [(-> & -> & Hp & Hd)
    | [(m & ok & _ & -> & -> & Hd) | [(? & _) | (_ & -> & -> & Hd)]]]]; try done.
  - wp_step. intros last. eexists. by rewrite !exchanges_app, Hpre.
  - wp_step. intros last. eexists. by rewrite !exchanges_app, Hpre.
  - destruct ok; cbn [negb].
    2:{ wp_step. intros last. eexists. by rewrite !exchanges_app, Hpre. }
    wp_step. eapply wp_mono; [apply timerStop_spec |].
    intros r e s' (pre2 & t2 & Ht2 & -> & -> & Hd2). unfold andThen.
    pose proof (fun x => exchanges_ticked (TimeToLive opts) _ _ _ x Ht2) as Hpre2.
    unfold timerDrain, timerReset.
    repeat wp_step.
    all: try (eapply wp_mono; [apply write_spec |];
              intros r e s'' (_ & (x & tail & -> & Htail) & Hr & _);
              destruct Hr as [-> | [err ->]]; repeat wp_step).
    all: intros last; eexists.
    all: repeat first
           [ rewrite Z.eqb_refl
           | rewrite bool_decide_eq_true_2 by done
           | rewrite exchanges_app
           | rewrite (exchanges_exchangeTail _ tail) by done
           | rewrite Hpre
           | rewrite Hpre2
           | progress cbn [exchanges exchangeStep snd fst app
                           String.eqb Ascii.eqb Bool.eqb] ].
    all: try (split; [reflexivity |]; done).
  - intros last. eexists. by rewrite Hpre.
Qed.



Lemma runLoop_exchanges fuel opts ctx conn session st :
  wp (loop fuel (runTurn env opts ctx conn session) tt) st (fun r e s =>
    forall last, exists fin,
      exchanges (TimeToLive opts) (last, Quiet) e = Some fin
      /\ forall m, r = Ret (m, None) -> fin = (m, Owed) /\ m <> None).
Proof.
  apply (wp_loop (fun _ _ => True)
           (fun _ _ r e _ =>
              forall last, exists fin,
                exchanges (TimeToLive opts) (last, Quiet) e = Some fin
                /\ forall m, r = Ret (m, None) -> fin = (m, Owed) /\ m <> None)
           (runTurn env opts ctx conn session)).
  - intros a s _ last. by eexists.
  - intros [] s _. eapply wp_mono; [apply runTurn_exchanges |].
    intros r e s' Hturn.
    destruct r as [[[] | [m [err |]]] | | |].
    + split; [done |]. intros r' e' s'' Hrest last.
      destruct (Hturn last) as ([l1 stage] & H1 & Hq). cbn in Hq. subst stage.
      destruct (Hrest l1) as (fin & H2 & Hr).
      exists fin. by rewrite exchanges_app, H1.
    + intros last. destruct (Hturn last) as (fin & H1 & _). by exists fin.
    + intros last. destruct (Hturn last) as (fin & H1 & Hq).
      exists fin. split; [done |]. by intros m' [= <-].
    + intros last. destruct (Hturn last) as (fin & H1 & _). by exists fin.
    + intros last. destruct (Hturn last) as (fin & H1 & _). by exists fin.
    + intros last. destruct (Hturn last) as (fin & H1 & _). by exists fin.
  - done.
Qed.

Lemma run_exchanges fuel opts ctx addr lastMessage st :
  wp (run env fuel opts ctx addr lastMessage) st (fun r e s =>
    exists fin,
      exchanges (TimeToLive opts) (lastMessage, entering lastMessage) e = Some fin
      /\ forall m, r = Ret (m, None) -> fin = (m, Owed) /\ m <> None).
Proof.
  unfold run. apply wp_bind.
  eapply wp_mono; [apply (dial_exchanges (TimeToLive opts)) |].
  intros r e s He. unfold andThen.
  destruct r as [[err | [conn session]] | | |]; try by eexists.
  - wp_step. eexists. by rewrite app_nil_r, He.
  - apply wp_defer.
    assert (Hbody : wp
              match lastMessage with
              | Some m =>
                  bind (logf Info "resending last message sent" None) (fun _ =>
                  bind (write env session conn m) (fun w =>
                  match w with
                  | Some err =>
                      bind (logf Error_ "writing: %v" (Some err)) (fun _ =>
                      ret (lastMessage, None))
                  | None => loop fuel (runTurn env opts ctx conn session) tt
                  end))
              | None => loop fuel (runTurn env opts ctx conn session) tt
              end s
              (fun r e' s' =>
                 exists fin,
                   exchanges (TimeToLive opts) (lastMessage, entering lastMessage) e'
                   = Some fin
                   /\ forall m, r = Ret (m, None) -> fin = (m, Owed) /\ m <> None)).
    { destruct lastMessage as [m0 |]; [| apply runLoop_exchanges].
      repeat wp_step.
      eapply wp_mono; [apply write_spec |].
      intros r e' s' (_ & (x & tail & -> & Htail) & Hr & _).
      destruct Hr as [-> | [err ->]]; unfold andThen.
      - eapply wp_mono; [apply runLoop_exchanges |].
        intros r e'' s'' Hloop. destruct (Hloop (Some m0)) as (fin & H & Hr).
        exists fin. split; [| done].
        cbn [app exchanges exchangeStep entering String.eqb Ascii.eqb Bool.eqb].
        rewrite bool_decide_eq_true_2 by done.
        by rewrite exchanges_app, (exchanges_exchangeTail _ tail).
      - repeat wp_step. eexists.
        cbn [app exchanges exchangeStep entering String.eqb Ascii.eqb Bool.eqb].
        rewrite bool_decide_eq_true_2 by done.
        rewrite exchanges_app, (exchanges_exchangeTail _ tail) by done.
        cbn [app exchanges exchangeStep snd fst String.eqb Ascii.eqb Bool.eqb].
        split; [reflexivity |]. by intros m [= <-]. }
    eapply wp_mono; [exact Hbody |].
    intros r e' s' (fin & Hfin & Hr).
    destruct r as [a | what | |].
    + eapply wp_mono; [apply (closeLogged_exchanges (TimeToLive opts)) |].
      intros r' e'' s'' (-> & He''). exists fin.
      by rewrite exchanges_app, He, exchanges_app, Hfin, He''.
    + eapply wp_mono; [apply (closeLogged_exchanges (TimeToLive opts)) |].
      intros r' e'' s'' (-> & He''). exists fin.
      by rewrite exchanges_app, He, exchanges_app, Hfin, He''.
    + exists fin. by rewrite exchanges_app, He, Hfin.
    + exists fin. by rewrite exchanges_app, He, Hfin.
Qed.

Lemma keepAliveTurn_exchanges fuel opts ctx addr last st :
  wp (keepAliveTurn env fuel opts ctx addr last) st (fun r e s =>
    exists fin,
      exchanges (TimeToLive opts) (last, entering last) e = Some fin
      /\ forall l, r = Ret (Continue l) -> fin = (l, Owed) /\ l <> None).
Proof.
  unfold keepAliveTurn. apply wp_bind.
  eapply wp_mono; [apply selectCase_spec |].
  intros r e s (pre & t1 & Ht & Hsel). unfold andThen.
  pose proof (fun x => exchanges_ticked (TimeToLive opts) _ _ _ x Ht) as Hpre.
  destruct Hsel as [(err & -> & -> & Hd) | [(-> & -> & Hp & Hd)
    | [(m & ok & ? & _) | [(_ & -> & -> & Hd) | (? & _)]]]]; try done.
  - wp_step. eexists. by rewrite !exchanges_app, Hpre.
  - repeat wp_step. eexists. by rewrite !exchanges_app, Hpre.
  - wp_step. eapply wp_mono; [apply run_exchanges |].
    intros r e s' (fin & Hfin & Hr). unfold andThen.
    destruct r as [[m [err |]] | | |]; repeat wp_step; exists fin.
    all: repeat first
           [ rewrite exchanges_app
           | rewrite Hpre
           | rewrite Hfin
           | progress cbn [exchanges exchangeStep snd fst app
                           String.eqb Ascii.eqb Bool.eqb] ].
    all: try done.
    split; [done |]. intros l [= <-]. by apply Hr.
Qed.

Lemma keepAliveLoop_exchanges fuel fuel' opts ctx addr last st :
  wp (loop fuel (keepAliveTurn env fuel' opts ctx addr) last) st (fun r e s =>
    is_Some (exchanges (TimeToLive opts) (last, entering last) e)).
Proof.
  apply (wp_loop (fun _ _ => True)
           (fun a _ _ e _ =>
              is_Some (exchanges (TimeToLive opts) (a, entering a) e))
           (keepAliveTurn env fuel' opts ctx addr)); [by eexists | | done].
  intros a s _. eapply wp_mono; [apply keepAliveTurn_exchanges |].
  intros r e s' (fin & Hfin & Hr).
  destruct r as [[a' | b] | | |]; try by eexists.
  split; [done |]. intros r' e' s'' Hrest.
  destruct (Hr a' eq_refl) as [-> Hsome].
  rewrite exchanges_app, Hfin. by destruct a'.
Qed.


Lemma dialTurn_errors opts dialCtx addr n st :
  wp (dialTurn env opts dialCtx addr n) st (fun r e s =>
    match r with
    | Ret (Return (inl d)) =>
        (exists c, d = Context c /\ In (EvPollDone dialCtx (Some c)) e)
        \/ (exists x c, d = Errorf "dialing: exceeded max dial attempts: %v" x
                        /\ In (EvDial c addr (inl x)) e)
    | Ret _ => True
    | _ => False
    end).
Proof.
  unfold dialTurn. repeat wp_step; cbn; try done.
  - left. eexists. split; [done |]. by left.
  - right. do 2 eexists. split; [done |]. right; right. by left.
Qed.

Lemma dial_errors fuel opts ctx addr st :
  wp (dial env fuel opts ctx addr) st (fun r e s =>
    match r with
    | Ret (inl d) =>
        (exists c dialCtx, d = Context c /\ In (EvPollDone dialCtx (Some c)) e)
        \/ (exists x c, d = Errorf "dialing: exceeded max dial attempts: %v" x
                        /\ In (EvDial c addr (inl x)) e)
    | Ret _ | Unfinished => True
    | _ => False
    end).
Proof.
  unfold dial. repeat wp_step. apply wp_defer.
  eapply wp_mono.
  - apply (wp_loop (fun _ _ => True)
             (fun _ _ r e _ =>
                match r with
                | Ret (inl d) =>
                    (exists c dialCtx, d = Context c
                                       /\ In (EvPollDone dialCtx (Some c)) e)
                    \/ (exists x c, d = Errorf "dialing: exceeded max dial attempts: %v" x
                                    /\ In (EvDial c addr (inl x)) e)
                | Ret _ | Unfinished => True
                | _ => False
                end)
             (dialTurn env opts (WithTimeout ctx (TimeToLive opts) (serial st)) addr));
      [done | | done].
    intros n s _. eapply wp_mono; [apply dialTurn_errors |].
    intros r e s' H. destruct r as [[n' | [d | b]] | | |]; try done.
    + split; [done |]. intros r' e' s'' H'.
      destruct r' as [[d | b] | | |]; try done.
      destruct H' as [(c & dc & -> & Hin) | (x & c & -> & Hin)].
      * left. exists c, dc. split; [done |]. apply in_or_app. by right.
      * right. exists x, c. split; [done |]. apply in_or_app. by right.
    + destruct H as [(c & -> & Hin) | (x & c & -> & Hin)]; [left | right]; eauto.
  - intros r e s H. cbn beta.
    destruct r as [[d | b] | | |]; try done; repeat wp_step; try done.
    destruct H as [(c & dc & -> & Hin) | (x & c & -> & Hin)].
    + left. exists c, dc. split; [done |]. rewrite !in_app_iff. tauto.
    + right. exists x, c. split; [done |]. rewrite !in_app_iff. tauto.
Qed.

Lemma runTurn_errors opts ctx conn session st :
  wp (runTurn env opts ctx conn session tt) st (fun r e s =>
    match r with
    | Ret (Return (m, Some err)) =>
        m = None
        /\ ((exists c, err = Errorf "killing connection: %v" (Context c)
                       /\ In (EvDone c) e)
            \/ (err = ErrorNew "killing connection: time-to-live expired"
                /\ In EvExpired e))
    | Panic what => what = "channel is closed" /\ exists m, In (EvReceive m false) e
    | _ => True
    end).
Proof.
  unfold runTurn. apply wp_bind.
  eapply wp_mono; [apply selectCase_spec |].
  intros r e s (pre & t1 & Ht & Hsel). unfold andThen.
  destruct Hsel as [(err & -> & -> & Hd) | [(-> & -> & Hp & Hd)
    | [(m & ok & _ & -> & -> & Hd) | [(? & _) | (_ & -> & -> & Hd)]]]]; try done.
  - wp_step. split; [done |]. left. exists err. split; [done |].
    rewrite app_nil_r. apply in_or_app. right. by left.
  - wp_step. split; [done |]. right. split; [done |].
    rewrite app_nil_r. apply in_or_app. right. by left.
  - destruct ok; cbn [negb].
    2:{ wp_step. split; [done |]. exists m. rewrite app_nil_r.
        apply in_or_app. right. by left. }
    wp_step. eapply wp_mono; [apply timerStop_spec |].
    intros r e s' (pre2 & t2 & Ht2 & -> & -> & Hd2). unfold andThen.
    unfold timerDrain, timerReset.
    repeat wp_step.
    all: try (eapply wp_mono; [apply write_spec |];
              intros r e s'' (_ & _ & Hr & _);
              destruct Hr as [-> | [err ->]]; repeat wp_step).
    all: done.
Qed.

Lemma runLoop_errors fuel opts ctx conn session st :
  wp (loop fuel (runTurn env opts ctx conn session) tt) st (fun r e s =>
    match r with
    | Ret (m, Some err) =>
        m = None
        /\ ((exists c, err = Errorf "killing connection: %v" (Context c)
                       /\ In (EvDone c) e)
            \/ (err = ErrorNew "killing connection: time-to-live expired"
                /\ In EvExpired e))
    | Panic what => what = "channel is closed" /\ exists m, In (EvReceive m false) e
    | _ => True
    end).
Proof.
  apply (wp_loop (fun _ _ => True)
           (fun _ _ r e _ =>
              match r with
              | Ret (m, Some err) =>
                  m = None
                  /\ ((exists c, err = Errorf "killing connection: %v" (Context c)
                                 /\ In (EvDone c) e)
                      \/ (err = ErrorNew "killing connection: time-to-live expired"
                          /\ In EvExpired e))
              | Panic what =>
                  what = "channel is closed" /\ exists m, In (EvReceive m false) e
              | _ => True
              end)
           (runTurn env opts ctx conn session)); [done | | done].
  intros [] s _. eapply wp_mono; [apply runTurn_errors |].
  intros r e s' H. destruct r as [[[] | [m [err |]]] | what | |]; try done.
  split; [done |]. intros r' e' s'' H'.
  destruct r' as [[m [err |]] | what | |]; try done.
  - destruct H' as [-> [(c & -> & Hin) | [-> Hin]]]; (split; [done |]).
    + left. exists c. split; [done |]. apply in_or_app. by right.
    + right. split; [done |]. apply in_or_app. by right.
  - destruct H' as [-> [m Hin]]. split; [done |]. exists m.
    apply in_or_app. by right.
Qed.


Lemma run_errors fuel opts ctx addr lastMessage st :
  wp (run env fuel opts ctx addr lastMessage) st (fun r e s =>
    match r with
    | Ret (m, Some err) =>
        m = None
        /\ ((exists c dialCtx,
                err = Errorf "connecting: %v" (Context c)
                /\ In (EvPollDone dialCtx (Some c)) e)
            \/ (exists x c,
                   err = Errorf "connecting: %v"
                           (Errorf "dialing: exceeded max dial attempts: %v" x)
                   /\ In (EvDial c addr (inl x)) e)
            \/ (exists c, err = Errorf "killing connection: %v" (Context c)
                          /\ In (EvDone c) e)
            \/ (err = ErrorNew "killing connection: time-to-live expired"
                /\ In EvExpired e))
    | Panic what => what = "channel is closed" /\ exists m, In (EvReceive m false) e
    | _ => True
    end).
Proof.
  unfold run. apply wp_bind.
  eapply wp_mono; [apply dial_errors |].
  intros r e s He. unfold andThen.
  destruct r as [[d | [conn session]] | | |]; try done.
  - wp_step. rewrite app_nil_r. split; [done |].
    destruct He as [(c & dc & -> & Hin) | (x & c & -> & Hin)].
    + left. by exists c, dc.
    + right; left. by exists x, c.
  - apply wp_defer.
    assert (Hbody : wp
              match lastMessage with
              | Some m =>
                  bind (logf Info "resending last message sent" None) (fun _ =>
                  bind (write env session conn m) (fun w =>
                  match w with
                  | Some err =>
                      bind (logf Error_ "writing: %v" (Some err)) (fun _ =>
                      ret (lastMessage, None))
                  | None => loop fuel (runTurn env opts ctx conn session) tt
                  end))
              | None => loop fuel (runTurn env opts ctx conn session) tt
              end s
              (fun r e' s' =>
                 match r with
                 | Ret (m, Some err) =>
                     m = None
                     /\ ((exists c, err = Errorf "killing connection: %v" (Context c)
                                    /\ In (EvDone c) e')
                         \/ (err = ErrorNew "killing connection: time-to-live expired"
                             /\ In EvExpired e'))
                 | Panic what =>
                     what = "channel is closed" /\ exists m, In (EvReceive m false) e'
                 | _ => True
                 end)).
    { destruct lastMessage as [m0 |]; [| apply runLoop_errors].
      repeat wp_step.
      eapply wp_mono; [apply write_spec |].
      intros r e' s' (_ & _ & Hr & _).
      destruct Hr as [-> | [err ->]]; unfold andThen; [| by repeat wp_step].
      eapply wp_mono; [apply runLoop_errors |].
      intros r e'' s'' Hloop.
      destruct r as [[m [err |]] | what | |]; try done.
      - destruct Hloop as [-> [(c & -> & Hin) | [-> Hin]]]; (split; [done |]).
        + left. exists c. split; [done |]. rewrite !in_app_iff. tauto.
        + right. split; [done |]. rewrite !in_app_iff. tauto.
      - destruct Hloop as [-> [m Hin]]. split; [done |]. exists m.
        rewrite !in_app_iff. tauto. }
    eapply wp_mono; [exact Hbody |].
    intros r e' s' Hpost.
    destruct r as [[m [err |]] | what | |]; try done.
    + eapply wp_mono; [apply closeLogged_spec |].
      intros r' e'' s'' (-> & _).
      destruct Hpost as [-> [(c & -> & Hin) | [-> Hin]]]; (split; [done |]).
      * right; right; left. exists c. split; [done |]. rewrite !in_app_iff. tauto.
      * right; right; right. split; [done |]. rewrite !in_app_iff. tauto.
    + eapply wp_mono; [apply closeLogged_spec |]. intros r' e'' s'' (-> & _). done.
    + eapply wp_mono; [apply closeLogged_spec |]. intros r' e'' s'' _.
      destruct Hpost as [-> [m Hin]]. split; [done |]. exists m.
      rewrite !in_app_iff. tauto.
Qed.

(** X17.  [run] returns an error, and then no message, only when [dial]
    gave up (its context was found done, or a [DialContext] call failed with
    the budget used up), when its [select] found the context done, or when
    the timer expired.  No failure of an exchange, of [SetDeadline] or of
    closing the connection makes it return an error.  It panics only when
    the channel is closed. *)
Theorem run_fails_only_to_retire fuel opts ctx addr lastMessage st r evs st' :
  run env fuel opts ctx addr lastMessage st = (r, evs, st') ->
  (forall m err, r = Ret (m, Some err) ->
     m = None
     /\ ((exists c dialCtx,
             err = Errorf "connecting: %v" (Context c)
             /\ In (EvPollDone dialCtx (Some c)) evs)
         \/ (exists x c,
                err = Errorf "connecting: %v"
                        (Errorf "dialing: exceeded max dial attempts: %v" x)
                /\ In (EvDial c addr (inl x)) evs)
         \/ (exists c, err = Errorf "killing connection: %v" (Context c)
                       /\ In (EvDone c) evs)
         \/ (err = ErrorNew "killing connection: time-to-live expired"
             /\ In EvExpired evs)))
  /\ (forall what, r = Panic what ->
        what = "channel is closed" /\ exists m, In (EvReceive m false) evs).
Proof.
  intros H. wp_start H. eapply wp_mono; [apply run_errors |].
  intros r0 e s Hr. split.
  - intros m err ->. exact Hr.
  - intros what ->. exact Hr.
Qed.

(** X18.  The calls of one [run] keep the order [exchanges] checks, entered
    with the message to resend as owed: a message is taken off the queue only
    when nothing is owed; [SetDeadline] is called only for a message just
    taken, with the time to live; an exchange is opened only for the message
    held, once, after its deadline was set or after its resending was
    announced (in which case no deadline was set on the new connection).
    When [run] returns a nil error it returns the message held, which is
    then owed. *)
Theorem run_exchange_order fuel opts ctx addr lastMessage st r evs st' :
  run env fuel opts ctx addr lastMessage st = (r, evs, st') ->
  exists fin,
    exchanges (TimeToLive opts) (lastMessage, entering lastMessage) evs = Some fin
    /\ forall m, r = Ret (m, None) -> fin = (m, Owed) /\ m <> None.
Proof. intros H. wp_start H. apply run_exchanges. Qed.

(** X19.  The same order holds over the whole life of a supervisor, across
    its runs: what is sent again after a reconnection is the message whose
    exchange or deadline failed, and no other message is taken off the queue
    before that. *)
Theorem supervisor_exchange_order fuel opts ctx addr st r evs st' :
  runAndKeepAlive env fuel opts ctx addr st = (r, evs, st') ->
  is_Some (exchanges (TimeToLive opts) (None, Quiet) evs).
Proof.
  intros H. wp_start H. unfold runAndKeepAlive, newTimer.
  apply wp_defer. repeat wp_step.
  eapply wp_mono; [apply keepAliveLoop_exchanges |].
  intros r0 e s [fin Hfin]. cbn beta. cbn [entering] in Hfin.
  destruct r0; repeat wp_step; cbn [app exchanges exchangeStep];
    rewrite ?exchanges_app, ?Hfin; by eexists.
Qed.

(** What the order rules out, for instance: taking a message while another
    is owed, opening an exchange for a message just taken before its deadline
    is set, opening two exchanges for one message, and setting a deadline
    before a resend. *)
Lemma exchanges_refuses ttl (held taken : wire.Message) session x y conn r :
  exchanges ttl (Some held, Owed) [EvReceive taken true] = None
  /\ exchanges ttl (None, Quiet)
       [EvReceive taken true; EvEncrypt session (wire.Data taken) x] = None
  /\ exchanges ttl (Some held, Armed)
       [EvEncrypt session (wire.Data held) x; EvEncrypt session (wire.Data held) y]
     = None
  /\ exchanges ttl (Some held, Owed)
       [EvLog Info "resending last message sent" None; EvSetDeadline conn ttl r]
     = None.
Proof.
  split_and!; try done.
  cbn [exchanges exchangeStep]. by rewrite bool_decide_eq_true_2.
Qed.

End OrderLaws.


Lemma write_sends_only_ciphertext_witness :
  let out := Supervisor.write Examples.scripted 7%nat 3%nat Examples.ping
               (Examples.start (Examples.mkScript [] [] [inr Examples.pingAck]
                                  [] [] [] [])) in
  In (Supervisor.EvFlush 3%nat None) out.1.2.
Proof.
  intros out.
  destruct (write_sends_only_ciphertext Examples.scripted 7%nat 3%nat
              Examples.ping _ out.1.1 out.1.2 out.2 (triple_eta out))
    as (_ & _ & H & _).
  apply (H 3%nat (inr Examples.pingAck)).
  vm_compute. do 3 right. left. reflexivity.
Defined.

Lemma dial_closes_rejected_connections_witness :
  let out := Supervisor.dial Examples.scripted 4 DefaultClientOptions
               Supervisor.Root "10.0.0.1:80" (Examples.start Examples.secondTry) in
  Supervisor.opened out.1.2 = Supervisor.closed out.1.2 ++ [2%nat].
Proof.
  intros out.
  exact (dial_closes_rejected_connections Examples.scripted 4 DefaultClientOptions
           Supervisor.Root "10.0.0.1:80" (Examples.start Examples.secondTry)
           out.1.1 out.1.2 out.2 (triple_eta out)).
Defined.


Lemma failed_dials_within_budget_witness :
  let out := Supervisor.dial Examples.scripted 5
               (WithMaxDialAttempts DefaultClientOptions 3)
               Supervisor.Root "10.0.0.1:80" (Examples.start Examples.quiet) in
  Z.of_nat (Supervisor.failedDials out.1.2) <= Z.max 1 3.
Proof.
  intros out.
  apply (failed_dials_within_budget Examples.scripted 5
           (WithMaxDialAttempts DefaultClientOptions 3)
           Supervisor.Root "10.0.0.1:80" (Examples.start Examples.quiet)
           out.1.1 out.1.2 out.2).
  - vm_compute. reflexivity.
  - apply triple_eta.
Defined.

Lemma handshake_failures_outlast_budget_witness :
  let st := {| Supervisor.world := tt;
               Supervisor.deadline := {| Supervisor.running := true;
                                         Supervisor.pending := false |};
               Supervisor.serial := 0 |} in
  (Supervisor.dial Examples.impostor 3 DefaultClientOptions Supervisor.Root
     "10.0.0.1:80" st).1.1 = Unfinished
  /\ length (Supervisor.opened
               (Supervisor.dial Examples.impostor 3 DefaultClientOptions
                  Supervisor.Root "10.0.0.1:80" st).1.2) = 3%nat.
Proof.
  intros st.
  destruct (handshake_failures_outlast_budget Examples.impostor) with
    (fuel := 3%nat) (opts := DefaultClientOptions) (ctx := Supervisor.Root)
    (addr := "10.0.0.1:80") (st := st) as (H1 & H2 & _).
  - intros c w. reflexivity.
  - intros c a w. exists 1%nat. reflexivity.
  - intros c conn w session. discriminate.
  - split; [exact H1 | exact H2].
Defined.

Lemma dial_stops_when_context_done_witness :
  let out := Supervisor.dial Examples.scripted 4 DefaultClientOptions
               Supervisor.Root "10.0.0.1:80" (Examples.start Examples.alreadyDone) in
  let dialCtx := Supervisor.WithTimeout Supervisor.Root
                   (TimeToLive DefaultClientOptions) 0 in
  (exists pre err,
      out.1.2 = pre ++ [Supervisor.EvPollDone dialCtx (Some err);
                        Supervisor.EvCancel dialCtx]
      /\ forallb Supervisor.live pre = true
      /\ out.1.1 = Ret (inl (Context err)))
  \/ (forallb Supervisor.live out.1.2 = true
      /\ forall err, out.1.1 <> Ret (inl (Context err))).
Proof.
  intros out dialCtx.
  exact (dial_stops_when_context_done Examples.scripted 4 DefaultClientOptions
           Supervisor.Root "10.0.0.1:80" (Examples.start Examples.alreadyDone)
           out.1.1 out.1.2 out.2 (triple_eta out)).
Defined.

Lemma run_closes_its_connection_witness :
  let out := Supervisor.run Examples.scripted 4 DefaultClientOptions
               Supervisor.Root "10.0.0.1:80" None
               (Examples.start Examples.unknownVersionRun) in
  Supervisor.opened out.1.2 = Supervisor.closed out.1.2.
Proof.
  intros out.
  exact (run_closes_its_connection Examples.scripted 4 DefaultClientOptions
           Supervisor.Root "10.0.0.1:80" None
           (Examples.start Examples.unknownVersionRun)
           out.1.1 out.1.2 out.2 (triple_eta out)).
Defined.

Lemma run_fails_only_to_retire_witness :
  let out := Supervisor.run Examples.scripted 4 DefaultClientOptions
               Supervisor.Root "10.0.0.1:80" None
               (Examples.start Examples.cancelledWhileIdle) in
  out.1.1 = Ret (None, Some (Errorf "killing connection: %v" (Context Canceled)))
  /\ forall what, out.1.1 = Panic what ->
       what = "channel is closed"
       /\ exists m, In (Supervisor.EvReceive m false) out.1.2.
Proof.
  intros out. split; [vm_compute; reflexivity |].
  apply (run_fails_only_to_retire Examples.scripted 4 DefaultClientOptions
           Supervisor.Root "10.0.0.1:80" None
           (Examples.start Examples.cancelledWhileIdle)
           out.1.1 out.1.2 out.2 (triple_eta out)).
Defined.

Lemma run_exchange_order_witness :
  let out := Supervisor.run Examples.scripted 4 DefaultClientOptions
               Supervisor.Root "10.0.0.1:80" None
               (Examples.start Examples.unknownVersionRun) in
  exists fin,
    Supervisor.exchanges (TimeToLive DefaultClientOptions)
      (None, Supervisor.entering None) out.1.2 = Some fin
    /\ forall m, out.1.1 = Ret (m, None) -> fin = (m, Supervisor.Owed) /\ m <> None.
Proof.
  intros out.
  exact (run_exchange_order Examples.scripted 4 DefaultClientOptions
           Supervisor.Root "10.0.0.1:80" None
           (Examples.start Examples.unknownVersionRun)
           out.1.1 out.1.2 out.2 (triple_eta out)).
Defined.

Lemma supervisor_exchange_order_witness :
  let life := Supervisor.runAndKeepAlive Examples.scripted 4 DefaultClientOptions
                Supervisor.Root "10.0.0.1:80"
                (Examples.start Examples.unknownVersion) in
  is_Some (Supervisor.exchanges (TimeToLive DefaultClientOptions)
             (None, Supervisor.Quiet) life.1.2).
Proof.
  intros life.
  exact (supervisor_exchange_order Examples.scripted 4 DefaultClientOptions
           Supervisor.Root "10.0.0.1:80" (Examples.start Examples.unknownVersion)
           life.1.1 life.1.2 life.2 (triple_eta life)).
Defined.

Lemma supervisor_removes_itself_last_witness :
  let life := Supervisor.runAndKeepAlive Examples.scripted 4 DefaultClientOptions
                Supervisor.Root "10.0.0.1:80"
                (Examples.start Examples.unknownVersion) in
  exists pre,
    life.1.2 = Supervisor.EvNewTimer (TimeToLive DefaultClientOptions) :: pre
               ++ [Supervisor.EvClientClose "10.0.0.1:80"]
    /\ (forall a, ~ In (Supervisor.EvClientClose a) pre)
    /\ (forall d, ~ In (Supervisor.EvNewTimer d) pre).
Proof.
  intros life.
  exact (supervisor_removes_itself_last Examples.scripted 4 DefaultClientOptions
           Supervisor.Root "10.0.0.1:80" (Examples.start Examples.unknownVersion)
           life.1.1 life.1.2 life.2 (triple_eta life)).
Defined.

(** *** Who talks to whom, and how a supervisor ends *)

Section PartiesLaws.
Import Supervisor.
Context {S : Type}.
Variable env : Env S.

Lemma via_ticked conn session t pre t1 :
  ticked t pre t1 -> forallb (via conn session) pre = true.
Proof. by intros [[-> _] | (-> & _)]. Qed.

Lemma write_via session rw msg st :
  wp (write env session rw msg) st (fun r e s =>
    forallb (via rw session) e = true /\ exists x, r = Ret x).
Proof.
  unfold write. repeat wp_step; cbn; rewrite ?Nat.eqb_refl; cbn; eauto.
Qed.

Lemma runTurn_via opts ctx conn session st :
  wp (runTurn env opts ctx conn session tt) st (fun r e s =>
    forallb (via conn session) e = true).
Proof.
  unfold runTurn. apply wp_bind.
  eapply wp_mono; [apply selectCase_spec |].
  intros r e s (pre & t1 & Ht & Hsel). unfold andThen.
  pose proof (via_ticked conn session _ _ _ Ht) as Hpre.
  destruct Hsel as [(err & -> & -> & Hd) | [(-> & -> & Hp & Hd)
    | [(m & ok & _ & -> & -> & Hd) | [(? & _) | (_ & -> & -> & Hd)]]]]; try done.
  - wp_step. by rewrite !forallb_app, Hpre.
  - wp_step. by rewrite !forallb_app, Hpre.
  - destruct ok; cbn [negb].
    2:{ wp_step. by rewrite !forallb_app, Hpre. }
    wp_step. eapply wp_mono; [apply timerStop_spec |].
    intros r e s' (pre2 & t2 & Ht2 & -> & -> & Hd2). unfold andThen.
    pose proof (via_ticked conn session _ _ _ Ht2) as Hpre2.
    unfold timerDrain, timerReset.
    repeat wp_step.
    all: try (eapply wp_mono; [apply write_via |];
              intros r e s'' (Hw & [x ->]);
              destruct x as [err |]; repeat wp_step).
    all: rewrite ?forallb_app; cbn; rewrite ?forallb_app, ?Hpre, ?Hpre2, ?Hw,
           ?Nat.eqb_refl; done.
Qed.

Lemma runLoop_via fuel opts ctx conn session st :
  wp (loop fuel (runTurn env opts ctx conn session) tt) st (fun r e s =>
    forallb (via conn session) e = true).
Proof.
  apply (wp_loop (fun _ _ => True) (fun _ _ _ e _ => forallb (via conn session) e = true)
           (runTurn env opts ctx conn session)); [done | | done].
  intros [] s _. eapply wp_mono; [apply runTurn_via |].
  intros r e s' He. destruct r as [[[] | b] | | |]; try done.
  split; [done |]. intros r' e' s'' He'. by rewrite forallb_app, He, He'.
Qed.

Lemma closeLogged_via conn session (st : St S) :
  wp (closeLogged env conn) st (fun r e s =>
    r = Ret tt /\ forallb (via conn session) e = true).
Proof. unfold closeLogged. repeat wp_step; cbn; by rewrite Nat.eqb_refl. Qed.

(** X24.  After the dial, everything [run] does goes over the connection
    and the session the dial returned: it sets deadlines on that connection,
    writes to it and reads from it, encrypts and decrypts on that session,
    and neither dials nor handshakes again.  When it returns or panics, the
    last thing it does is to close that connection (and log the error of
    closing, if any); before that it does not close it. *)
Theorem run_uses_what_it_dialled fuel opts ctx addr lastMessage st conn session
    evsd std r evs st' :
  dial env fuel opts ctx addr st = (Ret (inr (conn, session)), evsd, std) ->
  run env fuel opts ctx addr lastMessage st = (r, evs, st') ->
  exists body closing,
    evs = evsd ++ body ++ closing
    /\ forallb (via conn session) body = true
    /\ forallb serving body = true
    /\ match r with
       | Ret _ | Panic _ =>
           exists x,
             closing = EvClose conn x
                       :: match x with
                          | Some err => [EvLog Error_ "closing connection: %v" (Some err)]
                          | None => []
                          end
       | _ => closing = []
       end.
Proof.
  intros Hdial Hrun.
  unfold run, bind at 1 in Hrun. rewrite Hdial in Hrun.
  match type of Hrun with
  | context [defer ?c ?b std] => destruct (defer c b std) as [[r1 e1] s1] eqn:Hdefer
  end.
  injection Hrun as <- <- <-.
  cut (exists body closing,
          e1 = body ++ closing
          /\ forallb (via conn session) body = true
          /\ forallb serving body = true
          /\ match r1 with
             | Ret _ | Panic _ =>
                 exists x,
                   closing = EvClose conn x
                             :: match x with
                                | Some err =>
                                    [EvLog Error_ "closing connection: %v" (Some err)]
                                | None => []
                                end
             | _ => closing = []
             end).
  { intros (body & closing & -> & H). by exists body, closing. }
  wp_start Hdefer. apply wp_defer.
  assert (Hbody : wp
            match lastMessage with
            | Some m =>
                bind (logf Info "resending last message sent" None) (fun _ =>
                bind (write env session conn m) (fun w =>
                match w with
                | Some err =>
                    bind (logf Error_ "writing: %v" (Some err)) (fun _ =>
                    ret (lastMessage, None))
                | None => loop fuel (runTurn env opts ctx conn session) tt
                end))
            | None => loop fuel (runTurn env opts ctx conn session) tt
            end std
            (fun r e' s' => forallb (via conn session) e' = true)).
  { destruct lastMessage as [m0 |]; [| apply runLoop_via].
    repeat wp_step.
    eapply wp_mono; [apply write_via |].
    intros r e' s' (Hw & [x ->]). unfold andThen.
    destruct x as [err |].
    - repeat wp_step. cbn. by rewrite !forallb_app, Hw.
    - eapply wp_mono; [apply runLoop_via |].
      intros r e'' s'' Hloop. cbn. by rewrite forallb_app, Hw, Hloop. }
  eapply wp_mono; [apply wp_conj; [exact Hbody | apply runBody_serving] |].
  intros r e' s' [Hvia Hserving].
  destruct r as [a | what | |].
  - unfold closeLogged. repeat wp_step; cbn.
    all: do 2 eexists; split_and!; [reflexivity | done | done |].
    all: first [by exists None | eexists (Some _); reflexivity].
  - unfold closeLogged. repeat wp_step; cbn.
    all: do 2 eexists; split_and!; [reflexivity | done | done |].
    all: first [by exists None | eexists (Some _); reflexivity].
  - exists e', []. by rewrite app_nil_r.
  - exists e', []. by rewrite app_nil_r.
Qed.



Lemma dialTurn_parties opts dialCtx addr n st :
  wp (dialTurn env opts dialCtx addr n) st (fun r e s =>
    (forall c conn h,
        In (EvHandshake c conn h) e ->
        c = dialCtx /\ exists ac, In (EvDial ac addr (inr conn)) e)
    /\ (forall c a d,
          In (EvDial c a d) e ->
          a = addr /\ exists k, c = WithTimeout dialCtx (TimeToDial opts) k)
    /\ (forall conn session,
          r = Ret (Return (inr (conn, session))) ->
          In (EvHandshake dialCtx conn (Some session, None)) e)).
Proof.
  unfold dialTurn. repeat wp_step; cbn; split_and!; intros.
  all: repeat match goal with
         | H : _ \/ _ |- _ => destruct H
         | H : False |- _ => destruct H
         end; simplify_eq; eauto 10.
Qed.

Lemma dial_parties fuel opts ctx addr st :
  wp (dial env fuel opts ctx addr) st (fun r e s =>
    let dialCtx := WithTimeout ctx (TimeToLive opts) (serial st) in
    (forall c conn h,
        In (EvHandshake c conn h) e ->
        c = dialCtx /\ exists ac, In (EvDial ac addr (inr conn)) e)
    /\ (forall c a d,
          In (EvDial c a d) e ->
          a = addr /\ exists k, c = WithTimeout dialCtx (TimeToDial opts) k)
    /\ (forall conn session,
          r = Ret (inr (conn, session)) ->
          In (EvHandshake dialCtx conn (Some session, None)) e)).
Proof.
  unfold dial. repeat wp_step. apply wp_defer.
  set (dialCtx := WithTimeout ctx (TimeToLive opts) (serial st)).
  eapply wp_mono.
  - apply (wp_loop (fun _ _ => True)
             (fun _ _ r e _ =>
                (forall c conn h,
                    In (EvHandshake c conn h) e ->
                    c = dialCtx /\ exists ac, In (EvDial ac addr (inr conn)) e)
                /\ (forall c a d,
                      In (EvDial c a d) e ->
                      a = addr /\ exists k, c = WithTimeout dialCtx (TimeToDial opts) k)
                /\ (forall conn session,
                      r = Ret (inr (conn, session)) ->
                      In (EvHandshake dialCtx conn (Some session, None)) e))
             (dialTurn env opts dialCtx addr)); [done | | done].
    intros n s _. eapply wp_mono; [apply dialTurn_parties |].
    intros r e s' (Hh & Hd & Hr). destruct r as [[n' | b] | | |]; try done.
    + split; [done |]. intros r' e' s'' (Hh' & Hd' & Hr'). split_and!.
      * intros c conn h [Hin | Hin]%in_app_iff.
        -- destruct (Hh _ _ _ Hin) as [-> [ac Hac]]. split; [done |].
           exists ac. apply in_app_iff. by left.
        -- destruct (Hh' _ _ _ Hin) as [-> [ac Hac]]. split; [done |].
           exists ac. apply in_app_iff. by right.
      * intros c a d [Hin | Hin]%in_app_iff; eauto.
      * intros conn session Heq. apply in_app_iff. right. by apply Hr'.
    + split_and!; try done. intros conn session [= ->]. by apply Hr.
  - intros r e s (Hh & Hd & Hr). cbn beta.
    destruct r as [x | what | |]; repeat wp_step; cbn [app].
    all: split_and!.
    all: try (intros c conn h Hin;
              assert (Hin' : In (EvHandshake c conn h) e)
                by (cbn in Hin; rewrite ?in_app_iff in Hin; cbn in Hin;
                    decompose [or] Hin; (discriminate || contradiction || assumption));
              destruct (Hh _ _ _ Hin') as [-> [ac Hac]]; (split; [done |]);
              exists ac; cbn; rewrite ?in_app_iff; tauto).
    all: try (intros c a d Hin;
              assert (Hin' : In (EvDial c a d) e)
                by (cbn in Hin; rewrite ?in_app_iff in Hin; cbn in Hin;
                    decompose [or] Hin; (discriminate || contradiction || assumption));
              eauto).
    all: try (intros conn session Heq; discriminate Heq).
    all: intros conn session Heq; cbn; rewrite ?in_app_iff; right; left; by apply Hr.
Qed.


(** X23.  In [dial], every [DialContext] call is for the address given and
    under a context of its own, derived from the dial context with the time
    to dial; every handshake is on a connection that a [DialContext] call of
    this [dial] returned, and under the dial context, whose timeout is the
    time to live, not under the context of the attempt.  The connection and
    the session [dial] returns are those of a handshake that succeeded. *)
Theorem dial_handshakes_under_dial_context fuel opts ctx addr st r evs st' :
  dial env fuel opts ctx addr st = (r, evs, st') ->
  let dialCtx := WithTimeout ctx (TimeToLive opts) (serial st) in
  (forall c conn h,
      In (EvHandshake c conn h) evs ->
      c = dialCtx /\ exists ac, In (EvDial ac addr (inr conn)) evs)
  /\ (forall c a d,
        In (EvDial c a d) evs ->
        a = addr /\ exists k, c = WithTimeout dialCtx (TimeToDial opts) k)
  /\ (forall conn session,
        r = Ret (inr (conn, session)) ->
        In (EvHandshake dialCtx conn (Some session, None)) evs).
Proof. intros H. wp_start H. apply dial_parties. Qed.

Lemma keepAliveTurn_parting fuel opts ctx addr last st :
  wp (keepAliveTurn env fuel opts ctx addr last) st (fun r e s =>
    r = Ret (Return tt) -> exists pre tail, e = pre ++ tail /\ parting ctx tail).
Proof.
  unfold keepAliveTurn. apply wp_bind.
  eapply wp_mono; [apply selectCase_spec |].
  intros r e s (pre & t1 & Ht & Hsel). unfold andThen.
  destruct Hsel as [(err & -> & -> & Hd) | [(-> & -> & Hp & Hd)
    | [(m & ok & ? & _) | [(_ & -> & -> & Hd) | (? & _)]]]]; try done.
  - wp_step. intros _. exists pre, [EvDone err]. rewrite app_nil_r.
    split; [done |]. left. by eexists.
  - repeat wp_step. intros _. eexists pre, _. rewrite <- app_assoc.
    split; [reflexivity |]. right; left. done.
  - wp_step. eapply wp_mono; [apply wp_run |].
    intros r e s' _. unfold andThen.
    destruct r as [[m [err |]] | | |]; repeat wp_step; try done; intros _.
    + eexists ((pre ++ [EvDefault]) ++ e), _. rewrite <- !app_assoc.
      split; [reflexivity |]. right; right; left. by eexists.
    + eexists ((pre ++ [EvDefault]) ++ e), _. rewrite <- !app_assoc.
      split; [reflexivity |]. right; right; right. by eexists.
Qed.

Lemma keepAliveLoop_parting fuel fuel' opts ctx addr last st :
  wp (loop fuel (keepAliveTurn env fuel' opts ctx addr) last) st (fun r e s =>
    r = Ret tt -> exists pre tail, e = pre ++ tail /\ parting ctx tail).
Proof.
  apply (wp_loop (fun _ _ => True)
           (fun _ _ r e _ =>
              r = Ret tt -> exists pre tail, e = pre ++ tail /\ parting ctx tail)
           (keepAliveTurn env fuel' opts ctx addr)); [done | | done].
  intros a s _. eapply wp_mono; [apply keepAliveTurn_parting |].
  intros r e s' H. destruct r as [[a' | []] | | |]; try done.
  - split; [done |]. intros r' e' s'' H' Hr.
    destruct (H' Hr) as (pre & tail & -> & Ht).
    exists (e ++ pre), tail. by rewrite app_assoc.
  - intros _. by apply H.
Qed.

(** X25.  When the goroutine of a supervisor returns, what it did last
    before calling [client.Close] is one of: its [select] found the context
    done; its [select] found the timer expired, and it logged that; [run]
    had returned an error and the context was then found done, so that
    nothing was logged; [run] had returned an error and the context was not
    done, and it logged the error. *)
Theorem supervisor_retires_for_a_reason fuel opts ctx addr st r evs st' :
  runAndKeepAlive env fuel opts ctx addr st = (r, evs, st') ->
  r = Ret tt ->
  exists pre tail,
    evs = pre ++ tail ++ [EvClientClose addr] /\ parting ctx tail.
Proof.
  intros H. wp_start H. unfold runAndKeepAlive, newTimer.
  apply wp_defer. repeat wp_step.
  eapply wp_mono; [apply keepAliveLoop_parting |].
  intros r0 e s Hr. cbn beta.
  destruct r0 as [[] | what | |]; repeat wp_step; try done.
  intros _. destruct (Hr eq_refl) as (pre & tail & -> & Ht).
  exists (EvNewTimer (TimeToLive opts) :: pre), tail.
  split; [| done]. cbn. by rewrite <- !app_assoc.
Qed.

End PartiesLaws.


Lemma nonpositive_MaxConnections_refuses_all_witness :
  Pool.connsByAddr
    (Pool.exec [Pool.OpSend Examples.liveCaller "10.0.0.1:80" Examples.ping;
                Pool.OpClose "10.0.0.1:80"]
       (Pool.NewClient (WithMaxConnections DefaultClientOptions 0))) = ∅.
Proof.
  destruct (nonpositive_MaxConnections_refuses_all
              (WithMaxConnections DefaultClientOptions 0)
              [Pool.OpSend Examples.liveCaller "10.0.0.1:80" Examples.ping;
               Pool.OpClose "10.0.0.1:80"]
              Examples.liveCaller "10.0.0.2:80" Examples.ping) as [H _].
  - vm_compute. discriminate.
  - exact H.
Defined.

Lemma dial_handshakes_under_dial_context_witness :
  let out := Supervisor.dial Examples.scripted 4 DefaultClientOptions
               Supervisor.Root "10.0.0.1:80" (Examples.start Examples.secondTry) in
  let dialCtx := Supervisor.WithTimeout Supervisor.Root
                   (TimeToLive DefaultClientOptions) 0 in
  In (Supervisor.EvHandshake dialCtx 2%nat (Some 0%nat, None)) out.1.2.
Proof.
  intros out dialCtx.
  destruct (dial_handshakes_under_dial_context Examples.scripted 4
              DefaultClientOptions Supervisor.Root "10.0.0.1:80"
              (Examples.start Examples.secondTry)
              out.1.1 out.1.2 out.2 (triple_eta out)) as (_ & _ & H).
  apply H. vm_compute. reflexivity.
Defined.

Lemma run_uses_what_it_dialled_witness :
  let connected := Supervisor.dial Examples.scripted 4 DefaultClientOptions
                     Supervisor.Root "10.0.0.1:80"
                     (Examples.start Examples.unknownVersionRun) in
  let out := Supervisor.run Examples.scripted 4 DefaultClientOptions
               Supervisor.Root "10.0.0.1:80" None
               (Examples.start Examples.unknownVersionRun) in
  exists body closing,
    out.1.2 = connected.1.2 ++ body ++ closing
    /\ forallb (Supervisor.via 1%nat 0%nat) body = true
    /\ forallb Supervisor.serving body = true
    /\ exists x,
         closing = Supervisor.EvClose 1%nat x
                   :: match x with
                      | Some err =>
                          [Supervisor.EvLog Supervisor.Error_
                             "closing connection: %v" (Some err)]
                      | None => []
                      end.
Proof.
  intros connected out.
  apply (run_uses_what_it_dialled Examples.scripted 4 DefaultClientOptions
           Supervisor.Root "10.0.0.1:80" None
           (Examples.start Examples.unknownVersionRun)
           1%nat 0%nat connected.1.2 connected.2 out.1.1 out.1.2 out.2).
  - vm_compute. reflexivity.
  - apply triple_eta.
Defined.

Lemma supervisor_retires_for_a_reason_witness :
  let life := Supervisor.runAndKeepAlive Examples.scripted 4 DefaultClientOptions
                Supervisor.Root "10.0.0.1:80"
                (Examples.start Examples.unknownVersion) in
  exists pre tail,
    life.1.2 = pre ++ tail ++ [Supervisor.EvClientClose "10.0.0.1:80"]
    /\ Supervisor.parting Supervisor.Root tail.
Proof.
  intros life.
  apply (supervisor_retires_for_a_reason Examples.scripted 4 DefaultClientOptions
           Supervisor.Root "10.0.0.1:80" (Examples.start Examples.unknownVersion)
           life.1.1 life.1.2 life.2 (triple_eta life)).
  vm_compute. reflexivity.
Defined.
